(** * Loreline native bridge (linc_Loreline.cpp): a shallow embedding

    The bridge exposes a single-threaded, garbage-collected narrative engine
    to host code.  This development embeds the bridge's own data structures
    and control flow:

    - [RefString]: the reference-counted [Loreline_String] and its
      [Loreline_StringData] blocks on an explicit allocation heap;
    - [Bridge]: the opaque handles with their GC roots, the worker thread
      with its task queue, the dispatch-out queue, the call scheduler and
      the boundary functions, over a runtime (engine and host handlers)
      taken as a parameter;
    - [Toy]: a small runtime and a few worlds for concrete runs;
    - [Host]: the pure parts of the two programs that call the bridge, the
      sample application and the test runner;
    - [RefStringFacts], [BridgeFacts], [HostFacts]: the properties.

    Conventions.  Bridge code is written in a state monad over the whole
    process, whose outcomes tell a normal return from a C++ exception in
    flight, [std::terminate], a caller left waiting and undefined
    behaviour.  Closures ([std::function], hxcpp local functions) are
    defunctionalised: one constructor per lambda of the source, carrying
    its captures.  Threads are interleaved at the granularity of one queued
    task; a blocking wait lets the worker take turns, a bounded number of
    them ([fuel]).  [malloc] and [new] succeed.  Engine-side code reaches
    the engine, the handles, their roots and the dispatch-out queue, not
    the worker's queue; host handlers return normally.  A string is the
    sequence of its bytes; where the source passes it as a [const char*]
    the bytes before the first NUL are what goes through ([as_cstr]). *)

From stdpp Require Import gmap list strings.
From Stdlib Require Import ZArith.
From Stdlib Require Import Floats.SpecFloat.
From Stdlib Require Import Ascii.

Local Open Scope Z_scope.

(** ** Reference-counted strings *)

Module RefString.

(** [std::atomic<int>]: 32-bit two's complement; atomic arithmetic wraps. *)
Definition int_wrap (z : Z) : Z := (z + 2 ^ 31) `mod` 2 ^ 32 - 2 ^ 31.

(** [struct Loreline_StringData { refCount; len; data[] }].  [data] holds the
    [len] copied bytes; the terminating NUL written at [data[len]] is implicit
    in the [string] representation. *)
Record Loreline_StringData := mkStringData {
  refCount : Z;
  len : nat;
  data : string
}.

(** The allocation heap: live blocks by address, and the log of the
    addresses passed to [free], most recent first. *)
Record Memory := mkMemory {
  blocks : gmap positive Loreline_StringData;
  freed : list positive
}.

Definition empty_memory : Memory := mkMemory ∅ [].

(** [malloc] returns an address that is not currently live. *)
Definition malloc_addr (m : Memory) : positive := fresh (dom (blocks m)).

(** A nullable [const char*] is [option string]; a nullable
    [Loreline_StringData*] is [option positive]. *)
Definition linc_createStringData (s : option string) (n : nat) (m : Memory)
  : option positive * Memory :=
  match s with
  | None => (None, m)
  | Some bytes =>
      let d := malloc_addr m in
      (Some d,
       mkMemory (<[d := mkStringData 1 n (String.substring 0 n bytes)]> (blocks m))
                (freed m))
  end.

(** Operations that dereference a block return [None] when the block is not
    live (use after free: undefined behaviour). *)
Definition linc_retainStringData (d : option positive) (m : Memory) : option Memory :=
  match d with
  | None => Some m
  | Some a =>
      match blocks m !! a with
      | None => None
      | Some b =>
          Some (mkMemory
                  (<[a := mkStringData (int_wrap (refCount b + 1)) (len b) (data b)]> (blocks m))
                  (freed m))
      end
  end.

(** [fetch_sub(1) == 1] compares the value before the decrement. *)
Definition linc_releaseStringData (d : option positive) (m : Memory) : option Memory :=
  match d with
  | None => Some m
  | Some a =>
      match blocks m !! a with
      | None => None
      | Some b =>
          if decide (refCount b = 1)
          then Some (mkMemory (delete a (blocks m)) (a :: freed m))
          else Some (mkMemory
                       (<[a := mkStringData (int_wrap (refCount b - 1)) (len b) (data b)]> (blocks m))
                       (freed m))
      end
  end.

Record Loreline_String := mkString { ptr : option positive }.

(** [Loreline_String()] *)
Definition String_default : Loreline_String := mkString None.

(** [Loreline_String(const char* s)] *)
Definition String_of_cstr (s : option string) (m : Memory) : Loreline_String * Memory :=
  match s with
  | Some bytes =>
      let '(p, m') := linc_createStringData s (String.length bytes) m in (mkString p, m')
  | None => (mkString None, m)
  end.

(** [Loreline_String(const char* s, size_t len)] *)
Definition String_of_buf (s : option string) (n : nat) (m : Memory) : Loreline_String * Memory :=
  match s with
  | Some _ => let '(p, m') := linc_createStringData s n m in (mkString p, m')
  | None => (mkString None, m)
  end.

(** [Loreline_String(const Loreline_String& o)] *)
Definition String_copy (o : Loreline_String) (m : Memory) : option (Loreline_String * Memory) :=
  match linc_retainStringData (ptr o) m with
  | Some m' => Some (mkString (ptr o), m')
  | None => None
  end.

(** [Loreline_String(Loreline_String&& o)]: the new string and the source
    as it is left. *)
Definition String_move (o : Loreline_String) : Loreline_String * Loreline_String :=
  (mkString (ptr o), mkString None).

(** [operator=(const Loreline_String& o)], with [self] telling whether
    [this == &o]: the value of [*this] afterwards. *)
Definition String_assign (self : bool) (this o : Loreline_String) (m : Memory)
  : option (Loreline_String * Memory) :=
  if self then Some (this, m)
  else
    match linc_retainStringData (ptr o) m with
    | None => None
    | Some m1 =>
        match linc_releaseStringData (ptr this) m1 with
        | None => None
        | Some m2 => Some (mkString (ptr o), m2)
        end
    end.

(** [operator=(Loreline_String&& o)]: the values of [*this] and of [o]
    afterwards. *)
Definition String_move_assign (self : bool) (this o : Loreline_String) (m : Memory)
  : option (Loreline_String * Loreline_String * Memory) :=
  if self then Some (this, o, m)
  else
    match linc_releaseStringData (ptr this) m with
    | None => None
    | Some m1 => Some (mkString (ptr o), mkString None, m1)
    end.

(** [~Loreline_String()] *)
Definition String_destroy (s : Loreline_String) (m : Memory) : option Memory :=
  linc_releaseStringData (ptr s) m.

(** [c_str()]: the address of the block whose [data] the result points to. *)
Definition c_str (s : Loreline_String) : option positive :=
  match ptr s with Some a => Some a | None => None end.

(** [length()] reads [ptr->len]. *)
Definition length (s : Loreline_String) (m : Memory) : option nat :=
  match ptr s with
  | Some a => len <$> blocks m !! a
  | None => Some 0%nat
  end.

Definition isNull (s : Loreline_String) : bool :=
  match ptr s with None => true | Some _ => false end.

(** [operator bool()] *)
Definition to_bool (s : Loreline_String) : bool :=
  match ptr s with None => false | Some _ => true end.

(** [n] successive copy constructions from [s]. *)
Fixpoint copies (n : nat) (s : Loreline_String) (m : Memory)
  : option (list Loreline_String * Memory) :=
  match n with
  | O => Some ([], m)
  | S n' =>
      match String_copy s m with
      | None => None
      | Some (c, m1) =>
          match copies n' s m1 with
          | None => None
          | Some (cs, m2) => Some (c :: cs, m2)
          end
      end
  end.

(** Destruction of every string of a list, in order. *)
Fixpoint destroy_all (l : list Loreline_String) (m : Memory) : option Memory :=
  match l with
  | [] => Some m
  | s :: l' =>
      match String_destroy s m with
      | None => None
      | Some m1 => destroy_all l' m1
      end
  end.

Definition count_of (a : positive) (m : Memory) : option Z :=
  refCount <$> blocks m !! a.

Definition live (a : positive) (m : Memory) : bool :=
  bool_decide (is_Some (blocks m !! a)).

(** The values of a C [int]. *)
Definition in_int_range (z : Z) : Prop := - 2 ^ 31 <= z < 2 ^ 31.

(** The memory where the live block [a] has its count replaced. *)
Definition with_count (a : positive) (c : Z) (m : Memory) : Memory :=
  match blocks m !! a with
  | Some b => mkMemory (<[a := mkStringData c (len b) (data b)]> (blocks m)) (freed m)
  | None => m
  end.

(** A number of copies the 32-bit count cannot tell from none. *)
Definition overflow_copies : nat := Z.to_nat (2 ^ 32).

(** *** Programs over string objects *)

(** Whether the pointer [p] is the address [a], as a number. *)
Definition hit (p : option positive) (a : positive) : nat :=
  if decide (p = Some a) then 1 else 0.

Definition points (s : Loreline_String) (a : positive) : nat := hit (ptr s) a.

(** The number of strings of [vars] that point to the block [a]. *)
Fixpoint owners (a : positive) (vars : list Loreline_String) : nat :=
  match vars with
  | [] => 0
  | s :: rest => points s a + owners a rest
  end.

(** Every live block counts [f a] references, and [f] is zero on the
    addresses that are not live. *)
Definition counted_with (f : positive -> nat) (m : Memory) : Prop :=
  forall a,
    match blocks m !! a with
    | Some b => refCount b = Z.of_nat (f a) /\ (0 < f a)%nat
    | None => f a = 0%nat
    end.

(** Every live block counts the strings that point to it, and no string
    points to a block that is not live. *)
Definition counted (vars : list Loreline_String) (m : Memory) : Prop :=
  counted_with (fun a => owners a vars) m.

(** Statements of a program over string objects, named by their position
    among the live ones: the constructors, the two assignments and the
    destructor. *)
Inductive StringOp :=
  | NewDefault
  | NewFromCstr (s : option string)
  | NewFromBuf (s : option string) (n : nat)
  | NewCopy (src : nat)
  | NewMove (src : nat)
  | Assign (dst src : nat)
  | MoveAssign (dst src : nat)
  | Destroy (i : nat).

Definition op_valid (op : StringOp) (vars : list Loreline_String) : Prop :=
  match op with
  | NewCopy i | NewMove i | Destroy i => (i < List.length vars)%nat
  | Assign d s | MoveAssign d s => (d < List.length vars)%nat /\ (s < List.length vars)%nat
  | _ => True
  end.

(** One statement; [None] when it names no object or runs into freed
    memory. *)
Definition exec (op : StringOp) (vars : list Loreline_String) (m : Memory)
  : option (list Loreline_String * Memory) :=
  match op with
  | NewDefault => Some (vars ++ [String_default], m)
  | NewFromCstr s => let '(x, m') := String_of_cstr s m in Some (vars ++ [x], m')
  | NewFromBuf s n => let '(x, m') := String_of_buf s n m in Some (vars ++ [x], m')
  | NewCopy src =>
      o ← vars !! src;
      '(x, m') ← String_copy o m;
      Some (vars ++ [x], m')
  | NewMove src =>
      o ← vars !! src;
      let '(x, o') := String_move o in Some (<[src := o']> vars ++ [x], m)
  | Assign dst src =>
      this ← vars !! dst;
      o ← vars !! src;
      '(x, m') ← String_assign (bool_decide (dst = src)) this o m;
      Some (<[dst := x]> vars, m')
  | MoveAssign dst src =>
      this ← vars !! dst;
      o ← vars !! src;
      '(x, o', m') ← String_move_assign (bool_decide (dst = src)) this o m;
      Some (<[dst := x]> (<[src := o']> vars), m')
  | Destroy i =>
      s ← vars !! i;
      m' ← String_destroy s m;
      Some (delete i vars, m')
  end.

End RefString.


(** ** The bridge: handles, scheduler, queues and boundary functions *)

Module Bridge.

(** *** Values crossing the boundary *)

(** The values of [std::thread::id].  The constructor names the thread an
    id was first given to: a thread of the host, or a worker spawned by the
    bridge.  The bridge compares ids and nothing else, and an id may be
    given again to a thread started after its first holder was joined:
    such a thread is denoted by the same value, and where two ids must
    differ a theorem says so in a hypothesis. *)
Inductive ThreadId :=
  | HostThread (n : nat)
  | WorkerThread (n : nat).

#[global] Instance ThreadId_eq_dec : EqDecision ThreadId.
Proof. solve_decision. Defined.

(** The hxcpp closures the bridge hands to the engine
    ([_hx_Closure_dialogue], ...), with their captures. *)
Inductive BridgeClosure :=
  | ClDialogue (h : positive)
  | ClChoice (h : positive)
  | ClFinish (h : positive)
  | ClFileHandler (fh : positive) (fhData : option positive).

#[local] Set Warnings "-register-all".

(** hxcpp's [::Dynamic], which is also the representation of a nullable
    [hx::Object*] ([DNull] is the null pointer).  A float is carried as its
    binary64 bit pattern. *)
Inductive Dynamic :=
  | DNull
  | DBool (b : bool)
  | DInt (i : Z)
  | DFloat (bits : Z)
  | DString (s : string)
  | DArray (l : list Dynamic)
  | DAnon (fields : list (string * Dynamic))
  | DObject (p : positive)
  | DClosure (k : BridgeClosure).

(** [hx::IsNull] *)
Definition IsNull (d : Dynamic) : bool :=
  match d with DNull => true | _ => false end.

(** Casts and field access of hxcpp, on the values above: a cast from a
    value of another kind gives the zero of the target type, a missing
    field reads as null. *)
Definition hx_string (d : Dynamic) : option string :=
  match d with DString s => Some s | _ => None end.

Definition hx_int (d : Dynamic) : Z :=
  match d with DInt i => i | _ => 0 end.

Definition hx_bool (d : Dynamic) : bool :=
  match d with DBool b => b | _ => false end.

Definition hx_array (d : Dynamic) : list Dynamic :=
  match d with DArray l => l | _ => [] end.

Fixpoint assoc_field (name : string) (fields : list (string * Dynamic)) : Dynamic :=
  match fields with
  | [] => DNull
  | (k, v) :: rest => if String.eqb k name then v else assoc_field name rest
  end.

Definition hx_field (d : Dynamic) (name : string) : Dynamic :=
  match d with DAnon fields => assoc_field name fields | _ => DNull end.

(** A [Loreline_String] carried by value inside a marshalled structure is
    represented by its contents, [None] for the null string; its reference
    counting is the subject of [RefString]. *)
Record Loreline_TextTag := mkTextTag {
  tag_value : option string;
  tag_offset : Z;
  tag_closing : bool
}.

Record Loreline_ChoiceOption := mkChoiceOption {
  opt_text : option string;
  opt_tags : option (list Loreline_TextTag);
  opt_tagCount : Z;
  opt_enabled : bool
}.

(** [struct Loreline_Value]: the type tag with its live union member. *)
Inductive Loreline_Value :=
  | Loreline_Null
  | Loreline_Int (intValue : Z)
  | Loreline_Float (floatValue : Z)
  | Loreline_Bool (boolValue : bool)
  | Loreline_StringValue (stringValue : option string).

Definition null_val : Loreline_Value := Loreline_Null.

(** What a [const char*] that points to the bytes of a string shows of
    them, to [strlen] and to the constructors of [Loreline_String] and
    [::String] that take such a pointer alone: the bytes before the first
    NUL.  (A Haxe string, a [std::string] and a [Loreline_String] built
    with an explicit length may hold a NUL.) *)
Fixpoint as_cstr (s : string) : string :=
  match s with
  | EmptyString => EmptyString
  | String c rest => if bool_decide (c = Ascii.zero) then EmptyString else String c (as_cstr rest)
  end.

(** [linc_hxToString]: [strlen(s.c_str())] bytes of the Haxe string are
    copied. *)
Definition linc_hxToString (s : option string) : option string := as_cstr <$> s.

(** [linc_toHxString] of a [const char*]; the argument is the C string
    the host's pointer shows. *)
Definition linc_toHxString (s : option string) : option string := s.

(** [linc_hxToValue]: the switch on [__GetType()]; a string goes through
    [from_string(c_str())], which takes [strlen] bytes. *)
Definition linc_hxToValue (val : Dynamic) : Loreline_Value :=
  match val with
  | DNull => null_val
  | DBool b => Loreline_Bool b
  | DInt i => Loreline_Int i
  | DFloat f => Loreline_Float f
  | DString s => Loreline_StringValue (Some (as_cstr s))
  | _ => null_val
  end.

(** [linc_valueToHx]; a string goes through [::String(c_str())]. *)
Definition linc_valueToHx (v : Loreline_Value) : Dynamic :=
  match v with
  | Loreline_Int i => DInt i
  | Loreline_Float f => DFloat f
  | Loreline_Bool b => DBool b
  | Loreline_StringValue (Some s) => DString (as_cstr s)
  | Loreline_StringValue None => DNull
  | Loreline_Null => DNull
  end.

(** [linc_buildTextTags]: the array (null when empty) and its count. *)
Definition linc_buildTextTags (hxTags : Dynamic) : option (list Loreline_TextTag) * Z :=
  if IsNull hxTags then (None, 0)
  else
    let arr := hx_array hxTags in
    if decide (length arr = 0%nat) then (None, 0)
    else
      (Some (map (fun tag =>
                    mkTextTag (linc_hxToString (hx_string (hx_field tag "value")))
                              (hx_int (hx_field tag "offset"))
                              (hx_bool (hx_field tag "closing"))) arr),
       Z.of_nat (length arr)).

(** [linc_buildChoiceOptions] *)
Definition linc_buildChoiceOptions (hxOptions : Dynamic)
  : option (list Loreline_ChoiceOption) * Z :=
  if IsNull hxOptions then (None, 0)
  else
    let arr := hx_array hxOptions in
    if decide (length arr = 0%nat) then (None, 0)
    else
      (Some (map (fun opt =>
                    let '(tags, tagCount) := linc_buildTextTags (hx_field opt "tags") in
                    mkChoiceOption (linc_hxToString (hx_string (hx_field opt "text")))
                                   tags tagCount
                                   (hx_bool (hx_field opt "enabled"))) arr),
       Z.of_nat (length arr)).

(** *** Opaque handles and GC roots *)

Record Loreline_Script := mkScript { script_obj : Dynamic }.

Record Loreline_Translations := mkTranslations { translations_obj : Dynamic }.

(** Handler function pointers and [userData] are nullable addresses. *)
Record Loreline_Interpreter := mkInterp {
  obj : Dynamic;
  pendingCb : Dynamic;
  dialogueHandler : option positive;
  choiceHandler : option positive;
  finishHandler : option positive;
  userData : option positive
}.

(** A GC root is the address of a pointer field of a handle:
    [&h->obj] or [&h->pendingCb]. *)
Inductive Field := FObj | FPendingCb.

#[global] Instance Field_eq_dec : EqDecision Field.
Proof. solve_decision. Defined.

#[global] Instance Field_countable : Countable Field.
Proof.
  refine (inj_countable' (fun f => match f with FObj => false | FPendingCb => true end)
                         (fun b => if b then FPendingCb else FObj) _).
  by intros [].
Defined.

(** *** Scheduled closures *)

(** The bodies handed to [linc_Loreline_schedule] / [scheduleSync] by
    [LORELINE_BEGIN_CALL] / [LORELINE_BEGIN_CALL_SYNC], one constructor per
    call site, with the values the lambda captures. *)
Inductive Task :=
  | TInit
  | TDispose
  | TGc
  | TAdvance (cb : Dynamic)
  | TSelect (cb : Dynamic) (index : Z)
  | TParse (input filePath : option string) (fileHandler fileHandlerData : option positive)
  | TPlay (h : positive) (hxScript : Dynamic) (hxBeatName : option string)
          (translationsObj : Dynamic)
  | TResume (h : positive) (hxScript : Dynamic) (hxSaveStr hxBeatName : option string)
            (translationsObj : Dynamic)
  | TStart (interp : positive) (hxBeatName : option string)
  | TSave (interp : positive)
  | TRestore (interp : positive) (hxSaveStr : option string)
  | TGetCharacterField (interp : positive) (character field : string)
  | TSetCharacterField (interp : positive) (character field : string) (value : Loreline_Value)
  | TExtractTranslations (script : positive)
  | TReleaseTranslations (tr : positive)
  | TPrintScript (script : positive)
  | TReleaseScript (script : positive)
  | TReleaseInterpreter (interp : positive).

(** What a synchronous body leaves in the caller's local it captured by
    reference ([handle], [result]). *)
Inductive RetVal :=
  | RNone
  | RHandle (h : option positive)
  | RString (s : option string)
  | RValue (v : Loreline_Value).

(** An element of [taskQueue]: a body as such ([schedule]), or wrapped by
    [scheduleSync] with the caller's completion frame. *)
Inductive QTask :=
  | Async (b : Task)
  | Wrapped (b : Task) (c : nat).

Record Loreline_Thread := mkThread {
  workerId : nat;
  taskQueue : list QTask;
  stopFlag : bool
}.

(** The [completed] flag a [scheduleSync] caller waits on, with the local
    the body writes through its by-reference capture. *)
Record SyncFrame := mkFrame {
  completed : bool;
  result : RetVal
}.

(** The closures handed to [linc_Loreline_dispatchOut] by
    [LORELINE_BEGIN_DISPATCH_OUT], with their by-value captures. *)
Inductive DispatchFn :=
  | DDialogue (h : positive) (character text : option string)
              (tags : option (list Loreline_TextTag)) (tagCount : Z)
  | DChoice (h : positive) (options : option (list Loreline_ChoiceOption)) (optionCount : Z)
  | DFinish (h : positive).

(** Calls into the engine (Haxe code compiled by hxcpp). *)
Inductive EngineCall :=
  | InternalCollect
  | Callback_run (cb : Dynamic) (args : list Dynamic)
  | Loreline_obj_parse (input filePath : option string) (fileHandler : Dynamic)
  | Loreline_obj_play (script dialogue choice finish : Dynamic)
                      (beatName : option string) (options : Dynamic)
  | Loreline_obj_resume (script dialogue choice finish saveData : Dynamic)
                        (beatName : option string) (options : Dynamic)
  | InterpreterOptions_new (translations : Dynamic)
  | Json_parse (s : option string)
  | Json_stringify (d : Dynamic)
  | Interpreter_start (interp : Dynamic) (beatName : option string)
  | Interpreter_save (interp : Dynamic)
  | Interpreter_restore (interp saveData : Dynamic)
  | Interpreter_resume (interp : Dynamic)
  | Interpreter_getCharacterField (interp : Dynamic) (character field : string)
  | Interpreter_setCharacterField (interp : Dynamic) (character field : string)
                                  (value : Dynamic)
  | Loreline_obj_extractTranslations (script : Dynamic)
  | Loreline_obj_print (script : Dynamic).

(** Calls of host handlers through the function pointers of a session. *)
Inductive HostCall :=
  | HDialogue (fn h : positive) (character text : option string)
              (tags : option (list Loreline_TextTag)) (tagCount : Z)
              (data : option positive)
  | HChoice (fn h : positive) (options : option (list Loreline_ChoiceOption))
            (optionCount : Z) (data : option positive)
  | HFinish (fn h : positive) (data : option positive).

(** C++ exceptions: a Haxe value thrown by the engine, or the
    [std::runtime_error] of the thread check. *)
Inductive Exn :=
  | HxException (e : Dynamic)
  | RuntimeError (msg : string).

(** The observable trace: a scheduled body invoked on a thread, an engine
    entry, a host handler fired, a dispatch-out closure invoked, a line
    printed on stderr. *)
Inductive Event :=
  | EvRan (b : Task) (tid : ThreadId)
  | EvEngine (c : EngineCall) (tid : ThreadId)
  | EvHost (c : HostCall) (tid : ThreadId)
  | EvDelivered (d : DispatchFn) (tid : ThreadId)
  | EvStderr (what : string) (e : Dynamic).

(** *** State *)

(** The scheduler's statics: [linc_Loreline_useInternalThread] and
    [linc_Loreline_thread] with the object it points to. *)
Record Sched := mkSched {
  linc_Loreline_useInternalThread : bool;
  linc_Loreline_thread : option Loreline_Thread
}.

Section WithEngine.

(** The engine's managed object graph is opaque. *)
Context {E : Type}.

(** What engine-side code running on the home thread can reach: the engine
    itself, the handles and their roots, the statics of the thread check and
    of callback dispatch, and the dispatch-out queue. *)
Record Heap := mkHeap {
  engineState : E;
  interps : gmap positive Loreline_Interpreter;
  scripts : gmap positive Loreline_Script;
  translations : gmap positive Loreline_Translations;
  roots : gset (positive * Field);
  s_dispatchInterp : option positive;
  linc_Loreline_didCallHaxeMain : bool;
  linc_Loreline_haxeThreadId : option ThreadId;
  functionQueue : list DispatchFn
}.

(** The whole process.  [frames] are the completion frames of
    [scheduleSync] callers; [spawned] counts the worker threads ever
    started and [liveWorkers] lists those whose [threadLoop] has not
    returned; [trace] is the observable trace so far. *)
Record World := mkWorld {
  sched : Sched;
  heap : Heap;
  frames : list SyncFrame;
  spawned : nat;
  liveWorkers : list nat;
  trace : list Event
}.

Inductive EngineOutcome :=
  | Returns (v : Dynamic) (hp : Heap)
  | Throws (e : Dynamic) (hp : Heap).

(** The collaborators the bridge is written against.  An engine entry runs
    on the calling thread, sees the scheduler's statics, updates what
    engine-side code can reach and returns or throws a Haxe value; a host
    handler may in addition use the scheduler; [hxRunLibrary] boots the
    runtime. *)
Record Runtime := mkRuntime {
  engine : EngineCall -> ThreadId -> Sched -> Heap -> EngineOutcome;
  host : HostCall -> ThreadId -> Sched * Heap -> Sched * Heap;
  hxRunLibrary : ThreadId -> Heap -> Heap
}.

(** Outcome of running bridge code from a world: normal return, a C++
    exception in flight, [std::terminate] (an exception left a thread
    function), a caller left waiting, or undefined behaviour (a dangling
    handle dereferenced). *)
Inductive Res (A : Type) :=
  | Ok (a : A) (w : World)
  | Throw (e : Exn) (w : World)
  | Terminate (w : World)
  | Blocked (w : World)
  | Undefined.

#[global] Arguments Ok {A} a w.
#[global] Arguments Throw {A} e w.
#[global] Arguments Terminate {A} w.
#[global] Arguments Blocked {A} w.
#[global] Arguments Undefined {A}.

Definition M (A : Type) : Type := World -> Res A.

Definition ret {A} (a : A) : M A := fun w => Ok a w.

Definition bind {A B} (m : M A) (k : A -> M B) : M B :=
  fun w =>
    match m w with
    | Ok a w' => k a w'
    | Throw e w' => Throw e w'
    | Terminate w' => Terminate w'
    | Blocked w' => Blocked w'
    | Undefined => Undefined
    end.

Definition throw {A} (e : Exn) : M A := fun w => Throw e w.

(** [try { m } catch (::Dynamic e) { handler e }] *)
Definition try_catch {A} (m : M A) (handler : Dynamic -> M A) : M A :=
  fun w =>
    match m w with
    | Throw (HxException e) w' => handler e w'
    | r => r
    end.

Definition set_sched (s : Sched) (w : World) : World :=
  mkWorld s (heap w) (frames w) (spawned w) (liveWorkers w) (trace w).

Definition set_heap (hp : Heap) (w : World) : World :=
  mkWorld (sched w) hp (frames w) (spawned w) (liveWorkers w) (trace w).

Definition set_frames (fs : list SyncFrame) (w : World) : World :=
  mkWorld (sched w) (heap w) fs (spawned w) (liveWorkers w) (trace w).

Definition set_trace (tr : list Event) (w : World) : World :=
  mkWorld (sched w) (heap w) (frames w) (spawned w) (liveWorkers w) tr.

Definition emit (e : Event) : M unit :=
  fun w => Ok tt (set_trace (trace w ++ [e]) w).

(** A heap update that fails on a dangling handle. *)
Definition on_heap (f : Heap -> option Heap) : M unit :=
  fun w =>
    match f (heap w) with
    | Some hp => Ok tt (set_heap hp w)
    | None => Undefined
    end.

Definition set_interps (m : gmap positive Loreline_Interpreter) (hp : Heap) : Heap :=
  mkHeap (engineState hp) m (scripts hp) (translations hp) (roots hp)
         (s_dispatchInterp hp) (linc_Loreline_didCallHaxeMain hp)
         (linc_Loreline_haxeThreadId hp) (functionQueue hp).

Definition set_scripts (m : gmap positive Loreline_Script) (hp : Heap) : Heap :=
  mkHeap (engineState hp) (interps hp) m (translations hp) (roots hp)
         (s_dispatchInterp hp) (linc_Loreline_didCallHaxeMain hp)
         (linc_Loreline_haxeThreadId hp) (functionQueue hp).

Definition set_translations (m : gmap positive Loreline_Translations) (hp : Heap) : Heap :=
  mkHeap (engineState hp) (interps hp) (scripts hp) m (roots hp)
         (s_dispatchInterp hp) (linc_Loreline_didCallHaxeMain hp)
         (linc_Loreline_haxeThreadId hp) (functionQueue hp).

Definition set_roots (r : gset (positive * Field)) (hp : Heap) : Heap :=
  mkHeap (engineState hp) (interps hp) (scripts hp) (translations hp) r
         (s_dispatchInterp hp) (linc_Loreline_didCallHaxeMain hp)
         (linc_Loreline_haxeThreadId hp) (functionQueue hp).

Definition set_dispatchInterp (h : option positive) (hp : Heap) : Heap :=
  mkHeap (engineState hp) (interps hp) (scripts hp) (translations hp) (roots hp)
         h (linc_Loreline_didCallHaxeMain hp)
         (linc_Loreline_haxeThreadId hp) (functionQueue hp).

Definition set_haxeThread (tid : ThreadId) (hp : Heap) : Heap :=
  mkHeap (engineState hp) (interps hp) (scripts hp) (translations hp) (roots hp)
         (s_dispatchInterp hp) true (Some tid) (functionQueue hp).

Definition set_functionQueue (q : list DispatchFn) (hp : Heap) : Heap :=
  mkHeap (engineState hp) (interps hp) (scripts hp) (translations hp) (roots hp)
         (s_dispatchInterp hp) (linc_Loreline_didCallHaxeMain hp)
         (linc_Loreline_haxeThreadId hp) q.

(** [hx::GCAddRoot], [hx::GCRemoveRoot]: the collector keeps a set of root
    addresses. *)
Definition GCAddRoot (slot : positive * Field) (hp : Heap) : Heap :=
  set_roots (roots hp ∪ {[slot]}) hp.

Definition GCRemoveRoot (slot : positive * Field) (hp : Heap) : Heap :=
  set_roots (roots hp ∖ {[slot]}) hp.

(** [new] returns an address no live handle has. *)
Definition new_handle (hp : Heap) : positive :=
  fresh (dom (interps hp) ∪ dom (scripts hp) ∪ dom (translations hp)).

Definition with_obj (o : Dynamic) (i : Loreline_Interpreter) : Loreline_Interpreter :=
  mkInterp o (pendingCb i) (dialogueHandler i) (choiceHandler i) (finishHandler i) (userData i).

Definition with_pendingCb (cb : Dynamic) (i : Loreline_Interpreter) : Loreline_Interpreter :=
  mkInterp (obj i) cb (dialogueHandler i) (choiceHandler i) (finishHandler i) (userData i).

(** [Loreline_Interpreter::set] *)
Definition Interpreter_set (h : positive) (o : Dynamic) (hp : Heap) : option Heap :=
  match interps hp !! h with
  | None => None
  | Some i =>
      let hp1 := set_interps (<[h := with_obj o i]> (interps hp)) hp in
      Some (if IsNull o then hp1 else GCAddRoot (h, FObj) hp1)
  end.

(** [Loreline_Interpreter::setPendingCallback] *)
Definition setPendingCallback (h : positive) (cb : Dynamic) (hp : Heap) : option Heap :=
  match interps hp !! h with
  | None => None
  | Some i =>
      let hp1 := if IsNull (pendingCb i) then hp else GCRemoveRoot (h, FPendingCb) hp in
      let hp2 := set_interps (<[h := with_pendingCb cb i]> (interps hp1)) hp1 in
      Some (if IsNull cb then hp2 else GCAddRoot (h, FPendingCb) hp2)
  end.

(** [~Loreline_Interpreter] followed by the deallocation of [delete]. *)
Definition delete_Interpreter (h : positive) (hp : Heap) : option Heap :=
  match interps hp !! h with
  | None => None
  | Some i =>
      let hp1 := if IsNull (pendingCb i) then hp else GCRemoveRoot (h, FPendingCb) hp in
      let hp2 := if IsNull (obj i) then hp1 else GCRemoveRoot (h, FObj) hp1 in
      Some (set_interps (delete h (interps hp2)) hp2)
  end.

(** [new Loreline_Script(); handle->set(o)] *)
Definition new_Script (o : Dynamic) (hp : Heap) : positive * Heap :=
  let h := new_handle hp in
  let hp1 := set_scripts (<[h := mkScript o]> (scripts hp)) hp in
  (h, if IsNull o then hp1 else GCAddRoot (h, FObj) hp1).

(** [~Loreline_Script] followed by the deallocation of [delete]. *)
Definition delete_Script (h : positive) (hp : Heap) : option Heap :=
  match scripts hp !! h with
  | None => None
  | Some x =>
      let hp1 := if IsNull (script_obj x) then hp else GCRemoveRoot (h, FObj) hp in
      Some (set_scripts (delete h (scripts hp1)) hp1)
  end.

(** [new Loreline_Translations(); handle->set(o)] *)
Definition new_Translations (o : Dynamic) (hp : Heap) : positive * Heap :=
  let h := new_handle hp in
  let hp1 := set_translations (<[h := mkTranslations o]> (translations hp)) hp in
  (h, if IsNull o then hp1 else GCAddRoot (h, FObj) hp1).

(** [~Loreline_Translations] followed by the deallocation of [delete]. *)
Definition delete_Translations (h : positive) (hp : Heap) : option Heap :=
  match translations hp !! h with
  | None => None
  | Some x =>
      let hp1 := if IsNull (translations_obj x) then hp else GCRemoveRoot (h, FObj) hp in
      Some (set_translations (delete h (translations hp1)) hp1)
  end.

(** [new Loreline_Interpreter()] with the handler fields assigned. *)
Definition new_Interpreter (onDialogue onChoice onFinish data : option positive) (hp : Heap)
  : positive * Heap :=
  let h := new_handle hp in
  (h, set_interps (<[h := mkInterp DNull DNull onDialogue onChoice onFinish data]> (interps hp)) hp).

End WithEngine.

#[global] Arguments Heap : clear implicits.
#[global] Arguments World : clear implicits.
#[global] Arguments Runtime : clear implicits.
#[global] Arguments EngineOutcome : clear implicits.
#[global] Arguments Res : clear implicits.
#[global] Arguments M : clear implicits.

Declare Scope bridge_scope.
Delimit Scope bridge_scope with bridge.
Notation "x <- m ;; k" := (bind m (fun x => k))
  (at level 100, m at next level, right associativity) : bridge_scope.
Notation "m ;; k" := (bind m (fun _ => k))
  (at level 100, right associativity) : bridge_scope.
Local Open Scope bridge_scope.

Inductive LoopStatus := Continue | Exit | Idle.

Section WithRuntime.

Context {E : Type} (R : Runtime E).

Definition call_engine (c : EngineCall) (tid : ThreadId) : M E Dynamic :=
  fun w =>
    let w1 := set_trace (trace w ++ [EvEngine c tid]) w in
    match engine R c tid (sched w) (heap w) with
    | Returns v hp => Ok v (set_heap hp w1)
    | Throws e hp => Throw (HxException e) (set_heap hp w1)
    end.

Definition call_host (c : HostCall) (tid : ThreadId) : M E unit :=
  fun w =>
    let w1 := set_trace (trace w ++ [EvHost c tid]) w in
    let '(s, hp) := host R c tid (sched w, heap w) in
    Ok tt (set_heap hp (set_sched s w1)).

Definition deref (h : positive) : M E Loreline_Interpreter :=
  fun w =>
    match interps (heap w) !! h with
    | Some i => Ok i w
    | None => Undefined
    end.

(** [translations ? translations->obj : nullptr] *)
Definition translations_obj_of (tr : option positive) : M E Dynamic :=
  fun w =>
    match tr with
    | None => Ok DNull w
    | Some t =>
        match translations (heap w) !! t with
        | Some x => Ok (translations_obj x) w
        | None => Undefined
        end
    end.

Definition script_obj_of (script : positive) : M E Dynamic :=
  fun w =>
    match scripts (heap w) !! script with
    | Some x => Ok (script_obj x) w
    | None => Undefined
    end.

(** [linc_Loreline_ensureHaxeThread], run by the thread [tid]. *)
Definition linc_Loreline_ensureHaxeThread (tid : ThreadId) : M E unit :=
  fun w =>
    let w1 :=
      if linc_Loreline_didCallHaxeMain (heap w) then w
      else set_heap (hxRunLibrary R tid (set_haxeThread tid (heap w))) w in
    if decide (linc_Loreline_haxeThreadId (heap w1) = Some tid) then Ok tt w1
    else throw (RuntimeError "Calling Loreline from the wrong thread!") w1.

(** The lambda between [LORELINE_BEGIN_CALL(_SYNC)] and [LORELINE_END_CALL]
    of each call site, run by the thread [tid].  [hx::SetTopOfStack] only
    informs the collector of the stack bounds. *)
Definition run_body (b : Task) (tid : ThreadId) : M E RetVal :=
  linc_Loreline_ensureHaxeThread tid ;;
  match b with
  | TInit => ret RNone
  | TDispose => ret RNone
  | TGc => _ <- call_engine InternalCollect tid ;; ret RNone
  | TAdvance cb => _ <- call_engine (Callback_run cb []) tid ;; ret RNone
  | TSelect cb index => _ <- call_engine (Callback_run cb [DInt index]) tid ;; ret RNone
  | TParse input filePath fileHandler fileHandlerData =>
      let hxInput := linc_toHxString input in
      let hxFilePath := linc_toHxString filePath in
      let hxFileHandler :=
        match fileHandler, filePath with
        | Some fh, Some _ => DClosure (ClFileHandler fh fileHandlerData)
        | _, _ => DNull
        end in
      try_catch
        (hxScript <- call_engine (Loreline_obj_parse hxInput hxFilePath hxFileHandler) tid ;;
         if IsNull hxScript then ret (RHandle None)
         else fun w =>
                let '(handle, hp) := new_Script hxScript (heap w) in
                Ok (RHandle (Some handle)) (set_heap hp w))
        (fun e => emit (EvStderr "Loreline_parse error" e) ;; ret (RHandle None))
  | TPlay h hxScript hxBeatName translationsObj =>
      hxOptions <- (if IsNull translationsObj then ret DNull
                    else call_engine (InterpreterOptions_new translationsObj) tid) ;;
      try_catch
        (hxInterp <- call_engine
                       (Loreline_obj_play hxScript (DClosure (ClDialogue h))
                          (DClosure (ClChoice h)) (DClosure (ClFinish h))
                          hxBeatName hxOptions) tid ;;
         on_heap (Interpreter_set h hxInterp))
        (fun e => emit (EvStderr "Loreline_play error" e)) ;;
      ret RNone
  | TResume h hxScript hxSaveStr hxBeatName translationsObj =>
      hxSaveData <- call_engine (Json_parse hxSaveStr) tid ;;
      hxOptions <- (if IsNull translationsObj then ret DNull
                    else call_engine (InterpreterOptions_new translationsObj) tid) ;;
      try_catch
        (hxInterp <- call_engine
                       (Loreline_obj_resume hxScript (DClosure (ClDialogue h))
                          (DClosure (ClChoice h)) (DClosure (ClFinish h))
                          hxSaveData hxBeatName hxOptions) tid ;;
         on_heap (Interpreter_set h hxInterp))
        (fun e => emit (EvStderr "Loreline_resume error" e)) ;;
      ret RNone
  | TStart interp hxBeatName =>
      i <- deref interp ;;
      _ <- call_engine (Interpreter_start (obj i) hxBeatName) tid ;;
      ret RNone
  | TSave interp =>
      i <- deref interp ;;
      saveData <- call_engine (Interpreter_save (obj i)) tid ;;
      json <- call_engine (Json_stringify saveData) tid ;;
      ret (RString (linc_hxToString (hx_string json)))
  | TRestore interp hxSaveStr =>
      i <- deref interp ;;
      hxSaveData <- call_engine (Json_parse hxSaveStr) tid ;;
      _ <- call_engine (Interpreter_restore (obj i) hxSaveData) tid ;;
      _ <- call_engine (Interpreter_resume (obj i)) tid ;;
      ret RNone
  | TGetCharacterField interp character field =>
      i <- deref interp ;;
      val <- call_engine (Interpreter_getCharacterField (obj i) character field) tid ;;
      ret (RValue (linc_hxToValue val))
  | TSetCharacterField interp character field value =>
      i <- deref interp ;;
      let hxVal := linc_valueToHx value in
      _ <- call_engine (Interpreter_setCharacterField (obj i) character field hxVal) tid ;;
      ret RNone
  | TExtractTranslations script =>
      hxScript <- script_obj_of script ;;
      hxTranslations <- call_engine (Loreline_obj_extractTranslations hxScript) tid ;;
      if IsNull hxTranslations then ret (RHandle None)
      else fun w =>
             let '(handle, hp) := new_Translations hxTranslations (heap w) in
             Ok (RHandle (Some handle)) (set_heap hp w)
  | TReleaseTranslations tr =>
      on_heap (delete_Translations tr) ;; ret RNone
  | TPrintScript script =>
      hxScript <- script_obj_of script ;;
      printed <- call_engine (Loreline_obj_print hxScript) tid ;;
      ret (RString (linc_hxToString (hx_string printed)))
  | TReleaseScript script =>
      on_heap (delete_Script script) ;; ret RNone
  | TReleaseInterpreter interp =>
      on_heap (delete_Interpreter interp) ;; ret RNone
  end.

(** Invocation of the [std::function] holding a body. *)
Definition run_task (b : Task) (tid : ThreadId) : M E RetVal :=
  emit (EvRan b tid) ;; run_body b tid.

(** *** Thread worker *)

Definition set_thread (t : option Loreline_Thread) (w : World E) : World E :=
  set_sched (mkSched (linc_Loreline_useInternalThread (sched w)) t) w.

(** The push of [Loreline_Thread::schedule] (and of [scheduleSync]). *)
Definition Thread_push (q : QTask) : M E unit :=
  fun w =>
    match linc_Loreline_thread (sched w) with
    | Some t => Ok tt (set_thread (Some (mkThread (workerId t) (taskQueue t ++ [q]) (stopFlag t))) w)
    | None => Undefined
    end.

Definition complete_frame (c : nat) (r : RetVal) : M E unit :=
  fun w => Ok tt (set_frames (<[c := mkFrame true r]> (frames w)) w).

(** A queued element run by the worker: the body, and for [wrappedTask]
    the completion signal after it. *)
Definition run_qtask (q : QTask) (tid : ThreadId) : M E unit :=
  match q with
  | Async b => _ <- run_task b tid ;; ret tt
  | Wrapped b c => r <- run_task b tid ;; complete_frame c r
  end.

(** One turn of the [while (true)] of [threadLoop], taken when the worker is
    scheduled: [Idle] when the wait condition does not hold, [Exit] on
    [break], otherwise the front task is popped and run.  An exception that
    leaves the task leaves the thread function. *)
Definition threadLoop_iter : M E LoopStatus :=
  fun w =>
    match linc_Loreline_thread (sched w) with
    | None => Undefined
    | Some t =>
        match taskQueue t with
        | [] =>
            if stopFlag t
            then Ok Exit (mkWorld (sched w) (heap w) (frames w) (spawned w)
                            (filter (fun n => n ≠ workerId t) (liveWorkers w)) (trace w))
            else Ok Idle w
        | q :: rest =>
            match run_qtask q (WorkerThread (workerId t))
                    (set_thread (Some (mkThread (workerId t) rest (stopFlag t))) w) with
            | Ok _ w' => Ok Continue w'
            | Throw _ w' => Terminate w'
            | Terminate w' => Terminate w'
            | Blocked w' => Blocked w'
            | Undefined => Undefined
            end
        end
    end.

(** [threadLoop] run until it returns, with no other thread interleaved. *)
Fixpoint threadLoop (fuel : nat) : M E unit :=
  fun w =>
    match fuel with
    | O => Blocked w
    | S fuel' =>
        match threadLoop_iter w with
        | Ok Continue w' => threadLoop fuel' w'
        | Ok Exit w' => Ok tt w'
        | Ok Idle w' => Blocked w'
        | Throw e w' => Throw e w'
        | Terminate w' => Terminate w'
        | Blocked w' => Blocked w'
        | Undefined => Undefined
        end
    end.

(** [~Loreline_Thread]: raise [stopFlag], notify, join. *)
Definition Thread_destructor (fuel : nat) : M E unit :=
  fun w =>
    match linc_Loreline_thread (sched w) with
    | None => Undefined
    | Some t =>
        threadLoop fuel (set_thread (Some (mkThread (workerId t) (taskQueue t) true)) w)
    end.

(** [Loreline_Thread::schedule] *)
Definition Thread_schedule (b : Task) : M E unit := Thread_push (Async b).

(** The wait of [scheduleSync] on [completed]: while the flag is down the
    caller sleeps and the worker takes turns. *)
Fixpoint await (fuel : nat) (c : nat) : M E RetVal :=
  fun w =>
    match frames w !! c with
    | None => Undefined
    | Some f =>
        if completed f then Ok (result f) w
        else
          match fuel with
          | O => Blocked w
          | S fuel' =>
              match threadLoop_iter w with
              | Ok Continue w' => await fuel' c w'
              | Ok _ w' => Blocked w'
              | Throw e w' => Throw e w'
              | Terminate w' => Terminate w'
              | Blocked w' => Blocked w'
              | Undefined => Undefined
              end
          end
    end.

(** [Loreline_Thread::scheduleSync] *)
Definition Thread_scheduleSync (fuel : nat) (b : Task) : M E RetVal :=
  fun w =>
    let c := length (frames w) in
    (Thread_push (Wrapped b c) ;; await fuel c)
      (set_frames (frames w ++ [mkFrame false RNone]) w).

(** *** Dispatch-out queue *)

(** A dispatch-out closure invoked by the thread [tid]. *)
Definition run_dispatch (d : DispatchFn) (tid : ThreadId) : M E unit :=
  emit (EvDelivered d tid) ;;
  match d with
  | DDialogue h character text tags tagCount =>
      on_heap (fun hp => Some (set_dispatchInterp (Some h) hp)) ;;
      i <- deref h ;;
      match dialogueHandler i with
      | Some fn => call_host (HDialogue fn h character text tags tagCount (userData i)) tid
      | None => ret tt
      end
  | DChoice h options optionCount =>
      on_heap (fun hp => Some (set_dispatchInterp (Some h) hp)) ;;
      i <- deref h ;;
      match choiceHandler i with
      | Some fn => call_host (HChoice fn h options optionCount (userData i)) tid
      | None => ret tt
      end
  | DFinish h =>
      i <- deref h ;;
      match finishHandler i with
      | Some fn => call_host (HFinish fn h (userData i)) tid
      | None => ret tt
      end
  end.

(** [Loreline_FunctionQueue::add] *)
Definition FunctionQueue_add (d : DispatchFn) : M E unit :=
  fun w => Ok tt (set_heap (set_functionQueue (functionQueue (heap w) ++ [d]) (heap w)) w).

(** The [for] loop of [flush] over [tempQueue]. *)
Fixpoint run_all (q : list DispatchFn) (tid : ThreadId) : M E unit :=
  match q with
  | [] => ret tt
  | d :: q' => run_dispatch d tid ;; run_all q' tid
  end.

(** [Loreline_FunctionQueue::flush], called by the thread [tid]. *)
Definition FunctionQueue_flush (tid : ThreadId) : M E unit :=
  fun w =>
    match functionQueue (heap w) with
    | [] => Ok tt w
    | tempQueue => run_all tempQueue tid (set_heap (set_functionQueue [] (heap w)) w)
    end.

(** *** schedule / scheduleSync / dispatchOut *)

Definition worker_active (s : Sched) : bool :=
  linc_Loreline_useInternalThread s && bool_decide (is_Some (linc_Loreline_thread s)).

Definition linc_Loreline_schedule (b : Task) (tid : ThreadId) : M E unit :=
  fun w =>
    if worker_active (sched w) then Thread_schedule b w
    else (_ <- run_task b tid ;; ret tt) w.

Definition linc_Loreline_scheduleSync (fuel : nat) (b : Task) (tid : ThreadId) : M E RetVal :=
  fun w =>
    if worker_active (sched w) then Thread_scheduleSync fuel b w
    else run_task b tid w.

Definition linc_Loreline_dispatchOut (d : DispatchFn) (tid : ThreadId) : M E unit :=
  fun w =>
    if linc_Loreline_useInternalThread (sched w) then FunctionQueue_add d w
    else run_dispatch d tid w.

(** *** API implementation *)

Definition set_useInternalThread (b : bool) (w : World E) : World E :=
  set_sched (mkSched b (linc_Loreline_thread (sched w))) w.

(** [Loreline_init] *)
Definition Loreline_init (fuel : nat) (tid : ThreadId) : M E unit :=
  _ <- linc_Loreline_scheduleSync fuel TInit tid ;; ret tt.

(** [Loreline_dispose]: [delete linc_Loreline_thread] runs the destructor. *)
Definition Loreline_dispose (fuel : nat) (tid : ThreadId) : M E unit :=
  linc_Loreline_schedule TDispose tid ;;
  fun w =>
    match linc_Loreline_thread (sched w) with
    | Some _ =>
        (Thread_destructor fuel ;;
         fun w' => Ok tt (set_useInternalThread false (set_thread None w'))) w
    | None => Ok tt w
    end.

(** [Loreline_gc] *)
Definition Loreline_gc (tid : ThreadId) : M E unit :=
  linc_Loreline_schedule TGc tid.

(** [Loreline_createThread]: [new Loreline_Thread()] starts a worker. *)
Definition Loreline_createThread : M E unit :=
  fun w =>
    if linc_Loreline_useInternalThread (sched w) then Ok tt w
    else Ok tt (mkWorld (mkSched true (Some (mkThread (spawned w) [] false)))
                  (heap w) (frames w) (S (spawned w))
                  (spawned w :: liveWorkers w) (trace w)).

(** [linc_advance] *)
Definition linc_advance (tid : ThreadId) : M E unit :=
  fun w =>
    match s_dispatchInterp (heap w) with
    | None => Ok tt w
    | Some h =>
        match interps (heap w) !! h with
        | None => Undefined
        | Some i =>
            if IsNull (pendingCb i) then Ok tt w
            else (on_heap (setPendingCallback h DNull) ;;
                  linc_Loreline_schedule (TAdvance (pendingCb i)) tid) w
        end
    end.

(** [linc_select]; [index] is the value of the C [int] passed by the host. *)
Definition linc_select (index : Z) (tid : ThreadId) : M E unit :=
  fun w =>
    match s_dispatchInterp (heap w) with
    | None => Ok tt w
    | Some h =>
        match interps (heap w) !! h with
        | None => Undefined
        | Some i =>
            if IsNull (pendingCb i) then Ok tt w
            else (on_heap (setPendingCallback h DNull) ;;
                  linc_Loreline_schedule (TSelect (pendingCb i) index) tid) w
        end
    end.

(** [linc_ensureInterpHandle] *)
Definition linc_ensureInterpHandle (h : positive) (hxInterp : Dynamic) : M E unit :=
  i <- deref h ;;
  if IsNull (obj i) && negb (IsNull hxInterp)
  then on_heap (Interpreter_set h hxInterp)
  else ret tt.

(** [_hx_Closure_dialogue::_hx_run], called by the engine on thread [tid]. *)
Definition Closure_dialogue_run (h : positive)
    (hxInterp hxChar hxText hxTags hxCallback : Dynamic) (tid : ThreadId) : M E unit :=
  linc_ensureInterpHandle h hxInterp ;;
  let character := linc_hxToString (hx_string hxChar) in
  let text := linc_hxToString (hx_string hxText) in
  let '(tags, tagCount) := linc_buildTextTags hxTags in
  on_heap (setPendingCallback h hxCallback) ;;
  linc_Loreline_dispatchOut (DDialogue h character text tags tagCount) tid.

(** [_hx_Closure_choice::_hx_run] *)
Definition Closure_choice_run (h : positive)
    (hxInterp hxOptions hxCallback : Dynamic) (tid : ThreadId) : M E unit :=
  linc_ensureInterpHandle h hxInterp ;;
  let '(options, optionCount) := linc_buildChoiceOptions hxOptions in
  on_heap (setPendingCallback h hxCallback) ;;
  linc_Loreline_dispatchOut (DChoice h options optionCount) tid.

(** [_hx_Closure_finish::_hx_run] *)
Definition Closure_finish_run (h : positive) (hxInterp : Dynamic) (tid : ThreadId) : M E unit :=
  linc_ensureInterpHandle h hxInterp ;;
  linc_Loreline_dispatchOut (DFinish h) tid.

(** [Loreline_parse] *)
Definition Loreline_parse (fuel : nat) (input filePath : option string)
    (fileHandler fileHandlerData : option positive) (tid : ThreadId) : M E (option positive) :=
  r <- linc_Loreline_scheduleSync fuel (TParse input filePath fileHandler fileHandlerData) tid ;;
  ret (match r with RHandle handle => handle | _ => None end).

Definition alloc_Interpreter (onDialogue onChoice onFinish data : option positive)
  : M E positive :=
  fun w =>
    let '(handle, hp) := new_Interpreter onDialogue onChoice onFinish data (heap w) in
    Ok handle (set_heap hp w).

(** [Loreline_play] *)
Definition Loreline_play (script : option positive)
    (onDialogue onChoice onFinish : option positive) (beatName : option string)
    (tr : option positive) (data : option positive) (tid : ThreadId)
  : M E (option positive) :=
  match script with
  | None => ret None
  | Some sc =>
      handle <- alloc_Interpreter onDialogue onChoice onFinish data ;;
      let hxBeatName := linc_toHxString beatName in
      hxScript <- script_obj_of sc ;;
      translationsObj <- translations_obj_of tr ;;
      linc_Loreline_schedule (TPlay handle hxScript hxBeatName translationsObj) tid ;;
      ret (Some handle)
  end.

(** [Loreline_resume] *)
Definition Loreline_resume (script : option positive)
    (onDialogue onChoice onFinish : option positive) (saveData beatName : option string)
    (tr : option positive) (data : option positive) (tid : ThreadId)
  : M E (option positive) :=
  match script, saveData with
  | Some sc, Some _ =>
      handle <- alloc_Interpreter onDialogue onChoice onFinish data ;;
      let hxBeatName := linc_toHxString beatName in
      let hxSaveStr := linc_toHxString saveData in
      hxScript <- script_obj_of sc ;;
      translationsObj <- translations_obj_of tr ;;
      linc_Loreline_schedule (TResume handle hxScript hxSaveStr hxBeatName translationsObj) tid ;;
      ret (Some handle)
  | _, _ => ret None
  end.

(** [Loreline_start] *)
Definition Loreline_start (interp : option positive) (beatName : option string)
    (tid : ThreadId) : M E unit :=
  match interp with
  | None => ret tt
  | Some h => linc_Loreline_schedule (TStart h (linc_toHxString beatName)) tid
  end.

(** [Loreline_save]; the result is the contents of the returned
    [Loreline_String], [None] for the null string. *)
Definition Loreline_save (fuel : nat) (interp : option positive) (tid : ThreadId)
  : M E (option string) :=
  match interp with
  | None => ret None
  | Some h =>
      r <- linc_Loreline_scheduleSync fuel (TSave h) tid ;;
      ret (match r with RString s => s | _ => None end)
  end.

(** [Loreline_restore] *)
Definition Loreline_restore (interp : option positive) (saveData : option string)
    (tid : ThreadId) : M E unit :=
  match interp, saveData with
  | Some h, Some _ => linc_Loreline_schedule (TRestore h (linc_toHxString saveData)) tid
  | _, _ => ret tt
  end.

(** [Loreline_getCharacterField] *)
Definition Loreline_getCharacterField (fuel : nat) (interp : option positive)
    (character field : option string) (tid : ThreadId) : M E Loreline_Value :=
  match interp, character, field with
  | Some h, Some c, Some f =>
      r <- linc_Loreline_scheduleSync fuel (TGetCharacterField h c f) tid ;;
      ret (match r with RValue v => v | _ => null_val end)
  | _, _, _ => ret null_val
  end.

(** [Loreline_setCharacterField] *)
Definition Loreline_setCharacterField (interp : option positive)
    (character field : option string) (value : Loreline_Value) (tid : ThreadId) : M E unit :=
  match interp, character, field with
  | Some h, Some c, Some f => linc_Loreline_schedule (TSetCharacterField h c f value) tid
  | _, _, _ => ret tt
  end.

(** [Loreline_extractTranslations] *)
Definition Loreline_extractTranslations (fuel : nat) (script : option positive)
    (tid : ThreadId) : M E (option positive) :=
  match script with
  | None => ret None
  | Some sc =>
      r <- linc_Loreline_scheduleSync fuel (TExtractTranslations sc) tid ;;
      ret (match r with RHandle handle => handle | _ => None end)
  end.

(** [Loreline_releaseTranslations] *)
Definition Loreline_releaseTranslations (tr : option positive) (tid : ThreadId) : M E unit :=
  match tr with
  | None => ret tt
  | Some t => linc_Loreline_schedule (TReleaseTranslations t) tid
  end.

(** [Loreline_printScript] *)
Definition Loreline_printScript (fuel : nat) (script : option positive) (tid : ThreadId)
  : M E (option string) :=
  match script with
  | None => ret None
  | Some sc =>
      r <- linc_Loreline_scheduleSync fuel (TPrintScript sc) tid ;;
      ret (match r with RString s => s | _ => None end)
  end.

(** [Loreline_releaseScript] *)
Definition Loreline_releaseScript (script : option positive) (tid : ThreadId) : M E unit :=
  match script with
  | None => ret tt
  | Some sc => linc_Loreline_schedule (TReleaseScript sc) tid
  end.

(** [Loreline_update]: the flush, then the periodic collection.  The
    accumulation of [delta] in a [double] is represented by its outcome
    [due]: whether the accumulated time has reached the threshold. *)
Definition Loreline_update (due : bool) (tid : ThreadId) : M E unit :=
  FunctionQueue_flush tid ;;
  if due then linc_Loreline_schedule TGc tid else ret tt.

(** [Loreline_releaseInterpreter] *)
Definition Loreline_releaseInterpreter (interp : option positive) (tid : ThreadId)
  : M E unit :=
  match interp with
  | None => ret tt
  | Some h => linc_Loreline_schedule (TReleaseInterpreter h) tid
  end.

End WithRuntime.

(** The statics as the program starts, over an engine state [e]. *)
Definition initial_world {E : Type} (e : E) : World E :=
  mkWorld (mkSched false None)
          (mkHeap e ∅ ∅ ∅ ∅ None false None [])
          [] 0 [] [].

(** The part of the trace after a known prefix. *)
Definition ran_tasks (tr : list Event) : list (Task * ThreadId) :=
  omap (fun ev => match ev with EvRan b tid => Some (b, tid) | _ => None end) tr.

Definition delivered (tr : list Event) : list (DispatchFn * ThreadId) :=
  omap (fun ev => match ev with EvDelivered d tid => Some (d, tid) | _ => None end) tr.

Definition engine_calls (tr : list Event) : list (EngineCall * ThreadId) :=
  omap (fun ev => match ev with EvEngine c tid => Some (c, tid) | _ => None end) tr.

Definition host_calls (tr : list Event) : list (HostCall * ThreadId) :=
  omap (fun ev => match ev with EvHost c tid => Some (c, tid) | _ => None end) tr.

(** The continuations a session holds. *)
Definition pending {E : Type} (h : positive) (hp : Heap E) : list Dynamic :=
  match interps hp !! h with
  | Some i => if IsNull (pendingCb i) then [] else [pendingCb i]
  | None => []
  end.



Definition task_of (q : QTask) : Task :=
  match q with Async b | Wrapped b _ => b end.

(** The bodies of queued elements, as run by the worker [id]. *)
Definition on_worker (id : nat) (q : list QTask) : list (Task * ThreadId) :=
  map (fun x => (task_of x, WorkerThread id)) q.

(** The completion frames that queued wrapped tasks refer to exist. *)
Definition frames_allocated {E : Type} (w : World E) : Prop :=
  forall t, linc_Loreline_thread (sched w) = Some t ->
    Forall (fun q => match q with
                     | Wrapped _ c => (c < length (frames w))%nat
                     | Async _ => True
                     end) (taskQueue t).

(** Between two API calls: the worker object exists exactly when
    [linc_Loreline_useInternalThread] is set, and its thread is the only
    live worker. *)
Definition sched_inv {E : Type} (w : World E) : Prop :=
  match linc_Loreline_thread (sched w) with
  | Some t =>
      linc_Loreline_useInternalThread (sched w) = true /\ liveWorkers w = [workerId t]
  | None =>
      linc_Loreline_useInternalThread (sched w) = false /\ liveWorkers w = []
  end.

(** The thread check of [linc_Loreline_ensureHaxeThread] passes for [tid]
    without booting the runtime. *)
Definition on_haxe_thread {E : Type} (tid : ThreadId) (w : World E) : Prop :=
  linc_Loreline_didCallHaxeMain (heap w) = true /\
  linc_Loreline_haxeThreadId (heap w) = Some tid.

(** *** Frame conditions *)

(** Events of engine-side code. *)
Definition quiet_event (ev : Event) : Prop :=
  match ev with EvEngine _ _ | EvStderr _ _ => True | _ => False end.

Definition same_sched {E : Type} (w w' : World E) : Prop :=
  sched w' = sched w /\ frames w' = frames w /\
  spawned w' = spawned w /\ liveWorkers w' = liveWorkers w.

Definition extends {E : Type} (P : Event -> Prop) (w w' : World E) : Prop :=
  exists tr, trace w' = trace w ++ tr /\ Forall P tr.

(** A computation that returns or throws, and touches the heap and the
    trace only, with engine-side events. *)
Definition heap_only {E A : Type} (m : M E A) : Prop :=
  forall w,
    match m w with
    | Ok _ w' | Throw _ w' => same_sched w w' /\ extends quiet_event w w'
    | Undefined => True
    | Terminate _ | Blocked _ => False
    end.

(** *** Marshalled values *)

(** [Loreline_Value::from_int] and the other convenience constructors. *)
Definition from_int (i : Z) : Loreline_Value := Loreline_Int i.
Definition from_float (f : Z) : Loreline_Value := Loreline_Float f.
Definition from_bool (b : bool) : Loreline_Value := Loreline_Bool b.
Definition from_string (s : option string) : Loreline_Value := Loreline_StringValue s.

(** A [::String] passed where a [::Dynamic] is expected. *)
Definition hx_of_string (s : option string) : Dynamic :=
  match s with Some x => DString x | None => DNull end.

(** A tag object of the engine whose fields have the types the bridge
    casts them to: the Haxe string [value] (which may hold a NUL), the
    offset and the closing flag. *)
Definition hx_tag (fields : list (string * Dynamic))
    (value : option string) (offset : Z) (closing : bool) : Prop :=
  assoc_field "value" fields = hx_of_string value /\
  assoc_field "offset" fields = DInt offset /\
  assoc_field "closing" fields = DBool closing.

(** An option object of the engine, likewise: its Haxe string [text] and
    its flag. *)
Definition hx_option (fields : list (string * Dynamic))
    (text : option string) (enabled : bool) : Prop :=
  assoc_field "text" fields = hx_of_string text /\
  assoc_field "enabled" fields = DBool enabled.

(** The array and the count handed to a handler agree: a null array with
    count 0, or a non-empty array with its length. *)
Definition array_count {A : Type} (arr : option (list A)) (n : Z) : Prop :=
  match arr with
  | None => n = 0
  | Some l => l <> [] /\ n = Z.of_nat (length l)
  end.

(** *** The thread check *)

(** The statics of the thread check. *)
Definition thread_statics {E : Type} (hp : Heap E) : bool * option ThreadId :=
  (linc_Loreline_didCallHaxeMain hp, linc_Loreline_haxeThreadId hp).

(** [hxRunLibrary] is code of the engine: it cannot name the file-local
    statics of the thread check. *)
Definition boot_keeps_thread {E : Type} (R : Runtime E) : Prop :=
  forall tid hp, thread_statics (hxRunLibrary R tid hp) = thread_statics hp.

(** The [std::runtime_error] of [linc_Loreline_ensureHaxeThread]. *)
Definition wrong_thread : Exn := RuntimeError "Calling Loreline from the wrong thread!".

(** *** Handles *)

(** Every GC root is a field of a live handle. *)
Definition roots_live {E : Type} (hp : Heap E) : Prop :=
  forall h f, (h, f) ∈ roots hp ->
    h ∈ dom (interps hp) ∪ dom (scripts hp) ∪ dom (translations hp).

(** [hxFileHandler] of [Loreline_parse]: a closure only when both the
    handler and the file path are given. *)
Definition parse_fileHandler (fileHandler fileHandlerData : option positive)
    (filePath : option string) : Dynamic :=
  match fileHandler, filePath with
  | Some fh, Some _ => DClosure (ClFileHandler fh fileHandlerData)
  | _, _ => DNull
  end.

(** [translations ? translations->obj : nullptr], [None] on a dangling
    handle. *)
Definition translations_arg {E : Type} (tr : option positive) (hp : Heap E) : option Dynamic :=
  match tr with
  | None => Some DNull
  | Some t => translations_obj <$> translations hp !! t
  end.

(** The engine entries are code of the engine too. *)
Definition engine_keeps_thread {E : Type} (R : Runtime E) : Prop :=
  forall c tid s hp,
    match engine R c tid s hp with
    | Returns _ hp' | Throws _ hp' => thread_statics hp' = thread_statics hp
    end.

(** A computation that leaves the statics of the thread check alone. *)
Definition keeps_thread {E A : Type} (m : M E A) : Prop :=
  forall w,
    match m w with
    | Ok _ w' | Throw _ w' | Terminate w' | Blocked w' =>
        thread_statics (heap w') = thread_statics (heap w)
    | Undefined => True
    end.

(** *** Doubles *)

(** A C [double] is an IEEE 754 binary64 number; [+=] rounds to nearest
    even. *)
Definition double_add (x y : spec_float) : spec_float := SFadd 53 1024 x y.

(** [x >= y]: false when either side is a NaN. *)
Definition double_ge (x y : spec_float) : bool :=
  match SFcompare x y with
  | Some Gt | Some Eq => true
  | _ => false
  end.

(** The literals [15.0] and [0.0]. *)
Definition double_15 : spec_float := S754_finite false 8444249301319680 (-49).
Definition double_0 : spec_float := S754_zero false.

Section WithStatics.

Context {E : Type} (R : Runtime E).

(** Code that reads and writes one more file-local static: its value is
    threaded beside the world, and is defined whatever the outcome (a
    static outlives an exception). *)
Definition WithStatic (S A : Type) : Type := S -> World E -> S * Res E A.

(** *** File handler bridge *)

(** [linc_fileProvide], over the static [s_pendingFileProvide]. *)
Definition linc_fileProvide (content : option string) (tid : ThreadId)
  : WithStatic Dynamic unit :=
  fun s_pendingFileProvide w =>
    if IsNull s_pendingFileProvide then (s_pendingFileProvide, Ok tt w)
    else
      let cb := s_pendingFileProvide in
      (DNull,
       (_ <- call_engine R (Callback_run cb [hx_of_string (linc_toHxString content)]) tid ;;
        ret tt) w).

(** A host file handler is given by what it does with [provide] while it
    runs: the contents it passes, call after call. *)
Fixpoint provide_calls (contents : list (option string)) (tid : ThreadId)
  : WithStatic Dynamic unit :=
  fun s w =>
    match contents with
    | [] => (s, Ok tt w)
    | c :: rest =>
        match linc_fileProvide c tid s w with
        | (s', Ok _ w') => provide_calls rest tid s' w'
        | r => r
        end
    end.

(** [_hx_Closure_fileHandler::_hx_run], called by the engine on thread
    [tid] with the path of the file it needs; [fh] is the host handler,
    which is given [hxPath.c_str()]. *)
Definition Closure_fileHandler_run (fh : string -> list (option string))
    (hxPath : string) (hxCallback : Dynamic) (tid : ThreadId) : WithStatic Dynamic unit :=
  fun _ w =>
    match provide_calls (fh (as_cstr hxPath)) tid hxCallback w with
    | (_, Ok _ w') => (DNull, Ok tt w')
    | r => r
    end.

(** *** Periodic collection *)

(** [Loreline_update], over the static [linc_Loreline_gcAccum]. *)
Definition Loreline_update_delta (delta : spec_float) (tid : ThreadId)
  : WithStatic spec_float unit :=
  fun linc_Loreline_gcAccum w =>
    match FunctionQueue_flush R tid w with
    | Ok _ w1 =>
        let gcAccum := double_add linc_Loreline_gcAccum delta in
        if double_ge gcAccum double_15
        then (double_0, linc_Loreline_schedule R TGc tid w1)
        else (gcAccum, Ok tt w1)
    | r => (linc_Loreline_gcAccum, r)
    end.

(** Successive calls of [Loreline_update], one per frame. *)
Fixpoint updates (deltas : list spec_float) (tid : ThreadId) : WithStatic spec_float unit :=
  fun acc w =>
    match deltas with
    | [] => (acc, Ok tt w)
    | d :: rest =>
        match Loreline_update_delta d tid acc w with
        | (acc', Ok _ w') => updates rest tid acc' w'
        | r => r
        end
    end.

(** As many flushes of the dispatch-out queue, and nothing else. *)
Fixpoint flushes (n : nat) (tid : ThreadId) : M E unit :=
  match n with
  | O => ret tt
  | S n' => FunctionQueue_flush R tid ;; flushes n' tid
  end.

End WithStatics.

End Bridge.

(** ** A small runtime for concrete runs *)

Module Toy.

Import Bridge.

Definition bump (hp : Heap nat) : Heap nat :=
  mkHeap (S (engineState hp)) (interps hp) (scripts hp) (translations hp) (roots hp)
         (s_dispatchInterp hp) (linc_Loreline_didCallHaxeMain hp)
         (linc_Loreline_haxeThreadId hp) (functionQueue hp).

(** The engine state counts the engine entries.  JSON parsing accepts only
    the empty object; parsing a script needs a source text. *)
Definition toy_engine (c : EngineCall) (tid : ThreadId) (s : Sched) (hp : Heap nat)
  : EngineOutcome nat :=
  match c with
  | Json_parse (Some "{}"%string) => Returns (DAnon []) (bump hp)
  | Json_parse _ => Throws (DString "Invalid JSON") (bump hp)
  | Json_stringify _ => Returns (DString "{}") (bump hp)
  | Interpreter_save DNull => Throws (DString "Null Object Reference") (bump hp)
  | Interpreter_save _ => Returns (DAnon []) (bump hp)
  | Loreline_obj_parse (Some _) _ _ => Returns (DObject 1) (bump hp)
  | Loreline_obj_parse None _ _ => Throws (DString "Parse error") (bump hp)
  | Loreline_obj_play _ _ _ _ _ _ => Returns (DObject 2) (bump hp)
  | Loreline_obj_resume _ _ _ _ _ _ _ => Returns (DObject 2) (bump hp)
  | _ => Returns DNull (bump hp)
  end.

Definition toy : Runtime nat :=
  mkRuntime toy_engine (fun _ _ x => x) (fun _ hp => hp).

Definition main_thread : ThreadId := HostThread 0.

(** The world a result carries on, or the given one. *)
Definition world_of {A} (r : Res nat A) (default : World nat) : World nat :=
  match r with
  | Ok _ w | Throw _ w | Terminate w | Blocked w => w
  | Undefined => default
  end.

Definition step {A} (m : M nat A) (w : World nat) : World nat := world_of (m w) w.

(** A session on the main thread with no worker: a script parsed, a
    playback started, and a choice event with two options raised by the
    engine with continuation [DObject 7]. *)
Definition two_options : Dynamic :=
  DArray [DAnon [("text"%string, DString "left"); ("enabled"%string, DBool true)];
          DAnon [("text"%string, DString "right"); ("enabled"%string, DBool true)]].

Definition w_started : World nat :=
  Eval vm_compute in
    step (Loreline_play toy (Some 1%positive) (Some 10%positive) (Some 11%positive)
            (Some 12%positive) None None None main_thread)
      (step (Loreline_parse toy 0 (Some "story"%string) None None None main_thread)
         (step (Loreline_init toy 0 main_thread) (initial_world 0%nat))).

Definition w_choice : World nat :=
  Eval vm_compute in
    step (Closure_choice_run toy 2 (DObject 2) two_options (DObject 7) main_thread) w_started.


(** A worker created first, so that the engine is bound to it, with one
    fire-and-forget collection queued. *)
Definition w_worker : World nat :=
  Eval vm_compute in step Loreline_createThread (initial_world 0%nat).

Definition w_worker_busy : World nat :=
  Eval vm_compute in step (Loreline_gc toy main_thread) w_worker.

(** A host whose handlers queue a finish event while they run, as a worker
    raising the next event during a flush would. *)
Definition requeue_host (c : HostCall) (tid : ThreadId) (x : Sched * Heap nat)
  : Sched * Heap nat :=
  (x.1, set_functionQueue (functionQueue x.2 ++ [DFinish 2]) x.2).

Definition toy_requeue : Runtime nat :=
  mkRuntime toy_engine requeue_host (fun _ hp => hp).

(** The same session driven through the worker: the engine is booted,
    the script parsed and the playback started by tasks run on the worker
    thread. *)
Definition w_worker_started : World nat :=
  Eval vm_compute in
    step (threadLoop_iter toy)
      (step (Loreline_play toy (Some 1%positive) (Some 10%positive) (Some 11%positive)
               (Some 12%positive) None None None main_thread)
         (step (Loreline_parse toy 1 (Some "story"%string) None None None main_thread)
            (step (Loreline_init toy 1 main_thread) w_worker))).

(** A dialogue event raised by the engine on the worker thread, waiting in
    the dispatch-out queue. *)
Definition w_deferred : World nat :=
  Eval vm_compute in
    step (Closure_dialogue_run toy 2 (DObject 2) DNull (DString "Hello") DNull (DObject 8)
            (WorkerThread 0))
      w_worker_started.

(** The started session with a second, empty session handle: what
    [Loreline_play] leaves when the engine refuses to start. *)
Definition w_unstarted : World nat :=
  Eval vm_compute in
    set_heap (new_Interpreter None None None None (heap w_started)).2 w_started.



(** A runtime whose engine refuses to start at the beat named
    nowhere. *)
Definition strict_engine (c : EngineCall) (tid : ThreadId) (s : Sched) (hp : Heap nat)
  : EngineOutcome nat :=
  match c with
  | Loreline_obj_play _ _ _ _ (Some "nowhere"%string) _ =>
      Throws (DString "Beat not found") (bump hp)
  | Interpreter_start _ (Some "nowhere"%string) =>
      Throws (DString "Beat not found") (bump hp)
  | _ => toy_engine c tid s hp
  end.

Definition toy_strict : Runtime nat :=
  mkRuntime strict_engine (fun _ _ x => x) (fun _ hp => hp).

(** A second host thread. *)
Definition other_thread : ThreadId := HostThread 1.


(** A second session started on the script of [w_started], and a dialogue
    event raised for each of the two sessions. *)
Definition w_two_sessions : World nat :=
  Eval vm_compute in
    step (Closure_dialogue_run toy 3 (DObject 3) (DString "b") (DString "Hi") DNull
            (DObject 8) main_thread)
      (step (Closure_dialogue_run toy 2 (DObject 2) (DString "a") (DString "Hello") DNull
               (DObject 7) main_thread)
         (step (Loreline_play toy (Some 1%positive) (Some 10%positive) (Some 11%positive)
                  (Some 12%positive) None None None main_thread)
            w_started)).



(** A host file handler that calls [provide] twice. *)
Definition eager_handler (path : string) : list (option string) :=
  [Some path; Some "again"%string].

(** The runtime booted through the idle worker of [w_worker]. *)
Definition w_worker_booted : World nat :=
  Eval vm_compute in step (Loreline_init toy 1 main_thread) w_worker.

(** The double [16.0]. *)
Definition double_16 : spec_float := S754_finite false 4503599627370496 (-48).

End Toy.


(** * The hosts of the bridge

    The two programs of the repository that call the bridge: the sample
    console application and the test runner.  Their pure parts are modelled:
    how the sample answers a file request, lays out a text and picks an
    option from the number typed, and the text helpers with which the test
    runner prepares its inputs, renders tags and compares outputs. *)

Module Host.

Import Bridge.

(** *** [std::string]

    A [std::string] is the sequence of its characters; the member functions
    the hosts use are given by what the standard says they return. *)

(** The line feed and the carriage return. *)
Definition LF : ascii := ascii_of_nat 10.
Definition CR : ascii := ascii_of_nat 13.

(** [s.substr(pos, n)], for [pos <= s.size()]. *)
Definition substr (s : list ascii) (pos n : nat) : list ascii := take n (drop pos s).

(** [std::string::find]: the search over the characters [rest] that start at
    position [pos]. *)
Fixpoint find_in (rest from : list ascii) (pos : nat) : option nat :=
  match rest with
  | [] => match from with [] => Some pos | _ => None end
  | _ :: rest' =>
      if bool_decide (from `prefix_of` rest) then Some pos
      else find_in rest' from (S pos)
  end.

(** [s.find(from, prev)]; [None] is [npos]. *)
Definition find (s from : list ascii) (prev : nat) : option nat :=
  if (length s <? prev)%nat then None else find_in (drop prev s) from prev.

(** The characters of [" \t\r\n"]. *)
Definition whitespace : list ascii :=
  [" "%char; ascii_of_nat 9; ascii_of_nat 13; ascii_of_nat 10].

(** Membership in this set. *)
Definition is_space (c : ascii) : bool := bool_decide (c ∈ whitespace).

(** [s.find_first_not_of(" \t\r\n")]: the first position of a character
    that is none of these; [None] is [npos]. *)
Fixpoint find_first_not_of (s : list ascii) : option nat :=
  match s with
  | [] => None
  | c :: rest => if is_space c then S <$> find_first_not_of rest else Some 0%nat
  end.

(** [s.find_last_not_of(" \t\r\n")]: the last position of a character that
    is none of these. *)
Fixpoint find_last_not_of (s : list ascii) : option nat :=
  match s with
  | [] => None
  | c :: rest =>
      match find_last_not_of rest with
      | Some k => Some (S k)
      | None => if is_space c then None else Some 0%nat
      end
  end.

(** *** The sample host (sample/loreline-cpp/main.cpp) *)

(** [onFileRequest] of the sample, given by the calls of [provide] it makes
    (one); [readFile] reads the whole file, and gives the empty string for
    a file that cannot be opened. *)
Definition onFileRequest (readFile : string -> string) (path : string) : list (option string) :=
  let content := readFile path in
  if bool_decide (content = EmptyString) then [None] else [Some (as_cstr content)].

(** The loop of [onDialogue] that indents continuation lines:
    [formatted.replace(pos, 1, replacement); pos += step], as long as
    [formatted.find('\n', pos)] finds a newline. *)
Fixpoint onDialogue_loop (fuel : nat) (formatted replacement : list ascii) (step pos : nat)
  : option (list ascii) :=
  match fuel with
  | O => None
  | S fuel' =>
      match find formatted [LF] pos with
      | Some p =>
          onDialogue_loop fuel'
            (take p formatted ++ replacement ++ drop (p + 1) formatted)
            replacement step (p + step)
      | None => Some formatted
      end
  end.

(** The text printed by [onDialogue]: a line of dialogue continues under
    three spaces, a narrative text under one.  The text behind [pos]
    gets shorter at every turn. *)
Definition onDialogue_format (dialogue : bool) (t : list ascii) : option (list ascii) :=
  if dialogue
  then onDialogue_loop (S (length t)) t [LF; " "; " "; " "]%char 4 0
  else onDialogue_loop (S (length t)) t [LF; " "]%char 2 0.

(** Every newline followed by [n] spaces. *)
Definition indented (n : nat) (t : list ascii) : list ascii :=
  t ≫= (fun c => if bool_decide (c = LF) then LF :: replicate n " "%char else [c]).

(** The scan of [onChoice] for the option displayed under the number
    [choice]: [idx] is the number the next enabled option is displayed
    under, [i] the index of the option looked at.  The result is the
    argument given to [select]; both counters stay below [optionCount],
    so that no [int] wraps. *)
Fixpoint onChoice_scan (options : list Loreline_ChoiceOption) (choice idx i : Z) : option Z :=
  match options with
  | [] => None
  | o :: rest =>
      if opt_enabled o
      then if choice =? idx then Some i else onChoice_scan rest choice (idx + 1) (i + 1)
      else onChoice_scan rest choice idx (i + 1)
  end.

(** One round of the input loop for the number [atoi] read: the index
    selected, or [None] when the input is asked for again. *)
Definition onChoice_pick (options : list Loreline_ChoiceOption) (choice : Z) : option Z :=
  if 1 <=? choice then onChoice_scan options choice 1 0 else None.

(** At the end of the input: the first enabled option, if any. *)
Fixpoint onChoice_eof (options : list Loreline_ChoiceOption) (i : Z) : option Z :=
  match options with
  | [] => None
  | o :: rest => if opt_enabled o then Some i else onChoice_eof rest (i + 1)
  end.

(** The number of enabled options. *)
Fixpoint enabled_count (options : list Loreline_ChoiceOption) : nat :=
  match options with
  | [] => 0
  | o :: rest => (if opt_enabled o then 1 else 0) + enabled_count rest
  end.

(** *** The test runner (cpp/test/test_runner.cpp) *)

(** The [while] loop of [replaceAll], bounded by [fuel] iterations; [None]
    when they do not suffice. *)
Fixpoint replaceAll_loop (fuel : nat) (s from to : list ascii)
    (prev : nat) (result : list ascii) : option (list ascii) :=
  match fuel with
  | O => None
  | S fuel' =>
      match find s from prev with
      | Some pos =>
          replaceAll_loop fuel' s from to (pos + length from)
            (result ++ substr s prev (pos - prev) ++ to)
      | None => Some (result ++ drop prev s)
      end
  end.

(** [replaceAll]: every match consumes at least one character of [s], so
    [length s + 1] iterations are enough (see [replaceAll_total]). *)
Definition replaceAll (s from to : list ascii) : option (list ascii) :=
  match from with
  | [] => Some s
  | _ => replaceAll_loop (S (length s)) s from to 0 []
  end.

(** [trim]; [end] is found whenever [start] is (were it [npos], the count
    [end - start + 1] would wrap around to [2^64 - start]). *)
Definition trim (s : list ascii) : list ascii :=
  match find_first_not_of s with
  | None => []
  | Some start =>
      match find_last_not_of s with
      | Some end_ => substr s start (end_ - start + 1)
      | None => match start with O => [] | S _ => drop start s end
      end
  end.

(** [trimEnd] *)
Definition trimEnd (s : list ascii) : list ascii :=
  match find_last_not_of s with
  | None => []
  | Some end_ => substr s 0 (end_ + 1)
  end.

(** The [getline] loop of [splitLines]: [line] holds the characters read
    since the last newline; at the end of the stream a non-empty [line] is
    still pushed, an empty one is not. *)
Fixpoint splitLines_from (s line : list ascii) : list (list ascii) :=
  match s with
  | [] => match line with [] => [] | _ => [line] end
  | c :: rest =>
      if bool_decide (c = LF) then line :: splitLines_from rest []
      else splitLines_from rest (line ++ [c])
  end.

Definition splitLines (s : list ascii) : list (list ascii) := splitLines_from s [].

(** Every line followed by a newline. *)
Definition unlines (lines : list (list ascii)) : list ascii :=
  concat ((fun l => l ++ [LF]) <$> lines).

(** What [unlines] gives back: the text, terminated by a newline when it
    was not (and was not empty). *)
Definition terminated (s : list ascii) : list ascii :=
  match last s with
  | None => []
  | Some c => if bool_decide (c = LF) then s else s ++ [LF]
  end.

(** [startsWith] *)
Definition startsWith (s prefix : list ascii) : bool :=
  if (length s <? length prefix)%nat then false
  else bool_decide (substr s 0 (length prefix) = prefix).

(** [endsWith] *)
Definition endsWith (s suffix : list ascii) : bool :=
  if (length s <? length suffix)%nat then false
  else bool_decide (substr s (length s - length suffix) (length suffix) = suffix).

(** The markup of a tag, [<<value>>] or [<</value>>], with the characters
    that [value.c_str()] shows; undefined ([None]) for a tag whose value is
    the null string, whose [c_str()] is the null pointer. *)
Definition tag_markup (t : Loreline_TextTag) : option (list ascii) :=
  v ← tag_value t;
  Some (["<"; "<"]%char ++ (if tag_closing t then ["/"%char] else []) ++
        String.list_ascii_of_string (as_cstr v) ++ [">"; ">"]%char).

(** The loops over the tags of [insertTagsInText]: the markup of the tags
    whose offset is selected is appended to [result], in the order of the
    array. *)
Fixpoint append_tags (tags : list Loreline_TextTag) (sel : Z -> bool)
    (result : list ascii) : option (list ascii) :=
  match tags with
  | [] => Some result
  | t :: rest =>
      if sel (tag_offset t)
      then m ← tag_markup t; append_tags rest sel (result ++ m)
      else append_tags rest sel result
  end.

(** The loop over the characters of [insertTagsInText], from index [i]
    with [n] characters to go. *)
Fixpoint insertTags_loop (n : nat) (i : Z) (text : list ascii)
    (tags : list Loreline_TextTag) (offsetsWithTags : gset Z) (multiline : bool)
    (result : list ascii) : option (list ascii) :=
  match n with
  | O => Some result
  | S n' =>
      r ← (if bool_decide (i ∈ offsetsWithTags)
           then append_tags tags (fun o => o =? i) result
           else Some result);
      c ← text !! Z.to_nat i;
      insertTags_loop n' (i + 1) text tags offsetsWithTags multiline
        (if multiline && bool_decide (c = LF)
         then r ++ [LF; " "; " "]%char
         else r ++ [c])
  end.

(** [insertTagsInText]; [text] is [None] for the null pointer, and [tags]
    has [tagCount] elements. *)
Definition insertTagsInText (text : option (list ascii)) (tags : list Loreline_TextTag)
    (multiline : bool) : option (list ascii) :=
  match text with
  | None => Some []
  | Some text =>
      let offsetsWithTags : gset Z := list_to_set (tag_offset <$> tags) in
      let len := RefString.int_wrap (Z.of_nat (length text)) in
      r ← insertTags_loop (Z.to_nat len) 0 text tags offsetsWithTags multiline [];
      r' ← append_tags tags (fun o => len <=? o) r;
      Some (trimEnd r')
  end.

(** The tags that can be rendered in a text of [len] characters: those of
    a negative offset left out, the offsets behind the end moved to the
    end. *)
Definition clip_tags (len : Z) (tags : list Loreline_TextTag) : list Loreline_TextTag :=
  (fun t => mkTextTag (tag_value t) (Z.min (tag_offset t) len) (tag_closing t)) <$>
    filter (fun t => 0 <= tag_offset t) tags.

(** The markup of a tag that has a value. *)
Definition markup (t : Loreline_TextTag) : list ascii := default [] (tag_markup t).

(** The markups of the tags whose offset is selected, one after the other
    in the order of the array. *)
Definition marks (tags : list Loreline_TextTag) (sel : Z -> bool) : list ascii :=
  concat (markup <$> filter (fun t => sel (tag_offset t) = true) tags).

(** What a tagged text shows for the character [c] at index [i]: the
    markups of the tags of offset [i], then the character, a newline being
    followed by two spaces in a multiline text. *)
Definition piece (tags : list Loreline_TextTag) (multiline : bool) (i : nat) (c : ascii)
  : list ascii :=
  marks tags (fun o => o =? Z.of_nat i) ++
  (if multiline && bool_decide (c = LF) then [LF; " "; " "]%char else [c]).

(** A text with its tags: the pieces of its characters, and behind them
    the markups of the tags whose offset is the length of the text or
    more. *)
Definition tagged (text : list ascii) (tags : list Loreline_TextTag) (multiline : bool)
  : list ascii :=
  concat (imap (piece tags multiline) text) ++
  marks tags (fun o => Z.of_nat (length text) <=? o).

(** The [for] loop of [compareOutput] from index [i], with [n] iterations
    left ([i + n = minLen], so both lines exist). *)
Fixpoint compareOutput_loop (expectedLines actualLines : list (list ascii))
    (i n : nat) : option nat :=
  match n with
  | O => None
  | S n' =>
      if bool_decide (expectedLines !! i = actualLines !! i)
      then compareOutput_loop expectedLines actualLines (S i) n'
      else Some i
  end.

(** The comparison of the two vectors of lines; [(int)] wraps. *)
Definition compare_lines (expectedLines actualLines : list (list ascii)) : Z :=
  let minLen := (length expectedLines `min` length actualLines)%nat in
  let maxLen := (length expectedLines `max` length actualLines)%nat in
  match compareOutput_loop expectedLines actualLines 0 minLen with
  | Some i => RefString.int_wrap (Z.of_nat i)
  | None => if (minLen <? maxLen)%nat then RefString.int_wrap (Z.of_nat minLen) else -1
  end.

(** [splitLines(trim(replaceAll(s, "\r\n", "\n")))] *)
Definition normalized_lines (s : list ascii) : option (list (list ascii)) :=
  (fun r => splitLines (trim r)) <$> replaceAll s [CR; LF] [LF].

(** [compareOutput] *)
Definition compareOutput (expected actual : list ascii) : option Z :=
  expectedLines ← normalized_lines expected;
  actualLines ← normalized_lines actual;
  Some (compare_lines expectedLines actualLines).

End Host.

(** ** Facts about reference-counted strings *)

Module RefStringFacts.

Import RefString.
#[local] Set Warnings "-clear-no-such-hyp".

Lemma int_wrap_id z : in_int_range z -> int_wrap z = z.
Proof.
  unfold in_int_range, int_wrap. intros H.
  rewrite Z.mod_small by lia. lia.
Qed.

Lemma int_wrap_range z : in_int_range (int_wrap z).
Proof.
  unfold in_int_range, int_wrap.
  pose proof (Z.mod_pos_bound (z + 2 ^ 31) (2 ^ 32) ltac:(lia)). lia.
Qed.

Lemma int_wrap_succ z : int_wrap (int_wrap z + 1) = int_wrap (z + 1).
Proof.
  unfold int_wrap.
  replace ((z + 2 ^ 31) `mod` 2 ^ 32 - 2 ^ 31 + 1 + 2 ^ 31)
    with ((z + 2 ^ 31) `mod` 2 ^ 32 + 1) by lia.
  replace (z + 1 + 2 ^ 31) with (z + 2 ^ 31 + 1) by lia.
  by rewrite Zplus_mod_idemp_l.
Qed.

Lemma int_wrap_pred z : int_wrap (int_wrap z - 1) = int_wrap (z - 1).
Proof.
  unfold int_wrap.
  replace ((z + 2 ^ 31) `mod` 2 ^ 32 - 2 ^ 31 - 1 + 2 ^ 31)
    with ((z + 2 ^ 31) `mod` 2 ^ 32 + (- 1)) by lia.
  replace (z - 1 + 2 ^ 31) with (z + 2 ^ 31 + (- 1)) by lia.
  by rewrite Zplus_mod_idemp_l.
Qed.

(** The wrapped count reads 1 exactly when the number of references is 1
    modulo 2^32. *)
Lemma int_wrap_one z : int_wrap z = 1 <-> z `mod` 2 ^ 32 = 1.
Proof.
  unfold int_wrap. split; intros H.
  - assert (Hm : (z + 2 ^ 31) `mod` 2 ^ 32 = 2 ^ 31 + 1) by lia.
    replace z with (z + 2 ^ 31 + - 2 ^ 31) by lia.
    rewrite <- Zplus_mod_idemp_l, Hm. reflexivity.
  - rewrite <- Zplus_mod_idemp_l, H. reflexivity.
Qed.

Lemma int_wrap_not_one z : 1 < z <= 2 ^ 32 -> int_wrap z <> 1.
Proof.
  intros Hz H. apply int_wrap_one in H.
  destruct (decide (z = 2 ^ 32)) as [->|]; [done|].
  rewrite Z.mod_small in H by lia. lia.
Qed.

Lemma with_count_same a m b :
  blocks m !! a = Some b -> with_count a (refCount b) m = m.
Proof.
  intros H. unfold with_count. rewrite H. destruct m as [bl fr], b as [c l d]; simpl in *.
  f_equal. by apply insert_id.
Qed.

Lemma with_count_lookup a c m b :
  blocks m !! a = Some b ->
  blocks (with_count a c m) !! a = Some (mkStringData c (len b) (data b)).
Proof. intros H. unfold with_count. rewrite H. simpl. by rewrite lookup_insert_eq. Qed.

Lemma with_count_twice a c c' m b :
  blocks m !! a = Some b ->
  with_count a c' (with_count a c m) = with_count a c' m.
Proof.
  intros H. unfold with_count at 1. rewrite (with_count_lookup a c m b H).
  unfold with_count. rewrite H. simpl. f_equal. by rewrite insert_insert_eq.
Qed.

Lemma with_count_freed a c m : freed (with_count a c m) = freed m.
Proof. unfold with_count. by destruct (blocks m !! a). Qed.

Lemma with_count_dom a c m : dom (blocks (with_count a c m)) = dom (blocks m).
Proof.
  unfold with_count. destruct (blocks m !! a) eqn:H; [|done]. simpl.
  rewrite dom_insert_L. apply elem_of_dom_2 in H.
  apply subseteq_union_1_L, singleton_subseteq_l, H.
Qed.

Lemma retain_live a m b :
  blocks m !! a = Some b ->
  linc_retainStringData (Some a) m = Some (with_count a (int_wrap (refCount b + 1)) m).
Proof. intros H. unfold linc_retainStringData, with_count. by rewrite H. Qed.

Lemma release_last a m b :
  blocks m !! a = Some b -> refCount b = 1 ->
  linc_releaseStringData (Some a) m = Some (mkMemory (delete a (blocks m)) (a :: freed m)).
Proof.
  intros H Hc. unfold linc_releaseStringData. rewrite H.
  by destruct (decide (refCount b = 1)).
Qed.

Lemma release_shared a m b :
  blocks m !! a = Some b -> refCount b <> 1 ->
  linc_releaseStringData (Some a) m = Some (with_count a (int_wrap (refCount b - 1)) m).
Proof.
  intros H Hc. unfold linc_releaseStringData, with_count. rewrite H.
  by destruct (decide (refCount b = 1)).
Qed.

(** [n] copies of a string whose block holds the wrapped count of [j]
    references leave the wrapped count of [j + n]. *)
Lemma copies_count n : forall a j m b,
  blocks m !! a = Some b -> refCount b = int_wrap j ->
  copies n (mkString (Some a)) m =
    Some (replicate n (mkString (Some a)), with_count a (int_wrap (j + Z.of_nat n)) m).
Proof.
  induction n as [|n IH]; intros a j m b Hb Hc.
  - simpl. rewrite Z.add_0_r, <- Hc. by rewrite (with_count_same a m b).
  - cbn [copies]. unfold String_copy. cbn [ptr]. rewrite (retain_live a m b Hb).
    rewrite (IH a (j + 1) _ _ (with_count_lookup a _ m b Hb)).
    + rewrite (with_count_twice a _ _ m b Hb). cbn [replicate]. do 4 f_equal. lia.
    + cbn [refCount]. rewrite Hc. apply int_wrap_succ.
Qed.

(** Destroying [k] of [j] references, [k < j <= 2^32], only decrements. *)
Lemma destroy_some k : forall a j m b,
  blocks m !! a = Some b -> refCount b = int_wrap j ->
  Z.of_nat k < j <= 2 ^ 32 ->
  destroy_all (replicate k (mkString (Some a))) m =
    Some (with_count a (int_wrap (j - Z.of_nat k)) m).
Proof.
  induction k as [|k IH]; intros a j m b Hb Hc Hj.
  - simpl. rewrite Z.sub_0_r, <- Hc. by rewrite (with_count_same a m b).
  - cbn [replicate destroy_all]. unfold String_destroy. cbn [ptr].
    rewrite (release_shared a m b Hb).
    2:{ rewrite Hc. apply int_wrap_not_one. clear -Hj. lia. }
    rewrite (IH a (j - 1) _ _ (with_count_lookup a _ m b Hb)).
    + rewrite (with_count_twice a _ _ m b Hb). do 3 f_equal. lia.
    + cbn [refCount]. rewrite Hc. apply int_wrap_pred.
    + clear -Hj. lia.
Qed.

Lemma destroy_all_app l1 : forall l2 m,
  destroy_all (l1 ++ l2) m =
    match destroy_all l1 m with Some m' => destroy_all l2 m' | None => None end.
Proof.
  induction l1 as [|s l1 IH]; intros l2 m; [done|].
  simpl. destruct (String_destroy s m); [apply IH|done].
Qed.

Lemma with_count_delete a c m :
  delete a (blocks (with_count a c m)) = delete a (blocks m).
Proof.
  unfold with_count. destruct (blocks m !! a); [|done]. simpl.
  by rewrite delete_insert_eq.
Qed.

Lemma count_of_with_count a c m b :
  blocks m !! a = Some b -> count_of a (with_count a c m) = Some c.
Proof. intros H. unfold count_of. by rewrite (with_count_lookup a c m b H). Qed.

Lemma live_with_count a c m b :
  blocks m !! a = Some b -> live a (with_count a c m) = true.
Proof.
  intros H. unfold live. rewrite (with_count_lookup a c m b H).
  by apply bool_decide_eq_true.
Qed.

Lemma int_wrap_pred_zero c : in_int_range c -> int_wrap (c - 1) = 0 <-> c = 1.
Proof.
  intros Hc. split; [|intros ->; reflexivity].
  destruct (decide (c = - 2 ^ 31)) as [->|Hne]; [vm_compute; discriminate|].
  rewrite int_wrap_id; [lia|]. unfold in_int_range in *. lia.
Qed.

(** C8 (as amended): construction from bytes allocates a block with count
    1; a copy (by construction or by assignment) increments the shared
    count (modulo 2^32) and allocates nothing; a move (by construction or
    by assignment) hands over the pointer and nulls the source without
    touching the count; destruction decrements and frees the block exactly
    when the count reaches zero; hence, for [N < 2^32], after [N] copies the
    destruction of any [k <= N] of the [N + 1] references leaves the block
    allocated, and the destruction of all of them frees it exactly once. *)
Theorem refcount_lifecycle (bytes : string) (n : nat) (m : Memory) (N : nat) :
  Z.of_nat N < 2 ^ 32 ->
  let s := (String_of_buf (Some bytes) n m).1 in
  let m1 := (String_of_buf (Some bytes) n m).2 in
  exists a,
    ptr s = Some a /\ blocks m !! a = None /\ count_of a m1 = Some 1 /\
    (forall m' c, count_of a m' = Some c ->
       exists m'', String_copy s m' = Some (s, m'') /\
         count_of a m'' = Some (int_wrap (c + 1)) /\
         dom (blocks m'') = dom (blocks m') /\ freed m'' = freed m') /\
    String_move s = (s, String_default) /\
    (forall m' c, count_of a m' = Some c ->
       exists m'', String_assign false String_default s m' = Some (s, m'') /\
         count_of a m'' = Some (int_wrap (c + 1)) /\
         dom (blocks m'') = dom (blocks m') /\ freed m'' = freed m') /\
    (forall m', String_move_assign false String_default s m' = Some (s, String_default, m')) /\
    (forall m', String_assign true s s m' = Some (s, m') /\
                String_move_assign true s s m' = Some (s, s, m')) /\
    (forall m' c, count_of a m' = Some c -> in_int_range c ->
       exists m'', String_destroy s m' = Some m'' /\
         (int_wrap (c - 1) = 0 -> live a m'' = false /\ freed m'' = a :: freed m') /\
         (int_wrap (c - 1) <> 0 ->
            count_of a m'' = Some (int_wrap (c - 1)) /\ freed m'' = freed m')) /\
    exists cs m2,
      copies N s m1 = Some (cs, m2) /\ List.length cs = N /\
      Forall (fun c => ptr c = Some a) cs /\
      count_of a m2 = Some (int_wrap (1 + Z.of_nat N)) /\
      (forall k, (k <= N)%nat ->
         exists m3, destroy_all (take k (s :: cs)) m2 = Some m3 /\
           live a m3 = true /\ freed m3 = freed m) /\
      exists m4, destroy_all (s :: cs) m2 = Some m4 /\
        blocks m4 = blocks m /\ freed m4 = a :: freed m.
Proof.
  intros HN. cbn [String_of_buf linc_createStringData fst snd].
  set (a := malloc_addr m). set (b0 := mkStringData 1 n (String.substring 0 n bytes)).
  set (m1 := mkMemory (<[a:=b0]> (blocks m)) (freed m)).
  assert (Hfresh : blocks m !! a = None).
  { apply not_elem_of_dom. exact (is_fresh (dom (blocks m))). }
  assert (Hb0 : blocks m1 !! a = Some b0) by apply lookup_insert_eq.
  exists a. split; [done|]. split; [done|]. split.
  { unfold count_of. by rewrite Hb0. }
  split.
  { intros m' c Hc. unfold count_of in Hc.
    destruct (blocks m' !! a) as [b|] eqn:Hb; [|done]. injection Hc as <-.
    exists (with_count a (int_wrap (refCount b + 1)) m'). split.
    - unfold String_copy. cbn [ptr]. by rewrite (retain_live a m' b Hb).
    - split; [by apply (count_of_with_count a _ m' b)|].
      split; [apply with_count_dom|apply with_count_freed]. }
  split; [done|]. split.
  { intros m' c Hc. unfold count_of in Hc.
    destruct (blocks m' !! a) as [b|] eqn:Hb; [|done]. injection Hc as <-.
    exists (with_count a (int_wrap (refCount b + 1)) m'). split.
    - unfold String_assign. cbn [ptr String_default]. rewrite (retain_live a m' b Hb). done.
    - split; [by apply (count_of_with_count a _ m' b)|].
      split; [apply with_count_dom|apply with_count_freed]. }
  split; [done|]. split; [done|]. split.
  { intros m' c Hc Hrange. unfold count_of in Hc.
    destruct (blocks m' !! a) as [b|] eqn:Hb; [|done]. injection Hc as <-.
    unfold String_destroy. cbn [ptr].
    destruct (decide (refCount b = 1)) as [H1|H1].
    - rewrite (release_last a m' b Hb H1). eexists. split; [done|]. split.
      + intros _. split; [|done]. unfold live. cbn [blocks].
        rewrite lookup_delete_eq. apply bool_decide_eq_false. by intros [? ?].
      + intros Hnz. exfalso. apply Hnz. by apply int_wrap_pred_zero.
    - rewrite (release_shared a m' b Hb H1). eexists. split; [done|]. split.
      + intros Hz. apply int_wrap_pred_zero in Hz; done.
      + intros _. split; [by apply (count_of_with_count a _ m' b)|].
        apply with_count_freed. }
  pose proof (copies_count N a 1 m1 b0 Hb0 eq_refl) as Hcopies.
  set (m2 := with_count a (int_wrap (1 + Z.of_nat N)) m1) in *.
  assert (Hb2 : blocks m2 !! a = Some (mkStringData (int_wrap (1 + Z.of_nat N)) n
                                           (String.substring 0 n bytes))).
  { apply (with_count_lookup a _ m1 b0 Hb0). }
  exists (replicate N (mkString (Some a))), m2.
  split; [done|]. split; [apply length_replicate|].
  split; [by apply Forall_replicate|].
  split; [by apply (count_of_with_count a _ m1 b0)|]. split.
  - intros k Hk.
    change (mkString (Some a) :: replicate N (mkString (Some a)))
      with (replicate (S N) (mkString (Some a))).
    rewrite take_replicate, Nat.min_l by lia.
    rewrite (destroy_some k a (1 + Z.of_nat N) m2 _ Hb2 eq_refl) by lia.
    eexists. split; [done|]. split.
    + by eapply live_with_count.
    + rewrite with_count_freed. unfold m2. by rewrite with_count_freed.
  - change (mkString (Some a) :: replicate N (mkString (Some a)))
      with (replicate (S N) (mkString (Some a))).
    rewrite replicate_S_end, destroy_all_app.
    rewrite (destroy_some N a (1 + Z.of_nat N) m2 _ Hb2 eq_refl) by lia.
    cbn [destroy_all]. unfold String_destroy. cbn [ptr].
    erewrite release_last.
    2:{ by eapply with_count_lookup. }
    2:{ cbn [refCount]. replace (1 + Z.of_nat N - Z.of_nat N) with 1 by lia. reflexivity. }
    eexists. split; [done|]. cbn [blocks freed]. split.
    + rewrite with_count_delete. unfold m2. rewrite with_count_delete.
      unfold m1. cbn [blocks]. by apply delete_insert_id.
    + rewrite with_count_freed. unfold m2. by rewrite with_count_freed.
Qed.

(** The lifecycle at three copies of a two-byte string in an empty heap. *)
Lemma refcount_lifecycle_witness :
  Z.of_nat 3 < 2 ^ 32 /\
  exists cs m2 m4,
    copies 3 (String_of_buf (Some "hi"%string) 2 empty_memory).1
             (String_of_buf (Some "hi"%string) 2 empty_memory).2 = Some (cs, m2) /\
    destroy_all ((String_of_buf (Some "hi"%string) 2 empty_memory).1 :: cs) m2 = Some m4 /\
    blocks m4 = ∅ /\ List.length (freed m4) = 1%nat.
Proof.
  assert (H : Z.of_nat 3 < 2 ^ 32) by (vm_compute; reflexivity).
  split; [exact H|].
  destruct (refcount_lifecycle "hi" 2 empty_memory 3 H)
    as (a & _ & _ & _ & _ & _ & _ & _ & _ & _ & cs & m2 & Hc & _ & _ & _ & _
        & m4 & Hd & Hb & Hf).
  exists cs, m2, m4. split; [exact Hc|]. split; [exact Hd|]. split; [exact Hb|].
  rewrite Hf. reflexivity.
Defined.

(** Any string whose block holds count 1, copied 2^32 times. *)
Lemma overflow_general (a : positive) (m : Memory) (b : Loreline_StringData) (N : nat) :
  blocks m !! a = Some b -> refCount b = 1 -> Z.of_nat N = 2 ^ 32 ->
  exists m2 m3,
    copies N (mkString (Some a)) m = Some (replicate N (mkString (Some a)), m2) /\
    count_of a m2 = Some 1 /\
    String_destroy (mkString (Some a)) m2 = Some m3 /\ live a m3 = false /\
    destroy_all (mkString (Some a) :: replicate N (mkString (Some a))) m2 = None.
Proof.
  intros Hb Hc HN.
  pose proof (copies_count N a 1 m b Hb Hc) as Hcopies.
  rewrite HN in Hcopies. change (int_wrap (1 + 2 ^ 32)) with 1 in Hcopies.
  set (m2 := with_count a 1 m) in *.
  assert (Hb2 : blocks m2 !! a = Some (mkStringData 1 (len b) (data b))).
  { by apply with_count_lookup. }
  exists m2, (mkMemory (delete a (blocks m2)) (a :: freed m2)).
  split; [done|]. split; [by apply (count_of_with_count a 1 m b)|].
  assert (Hd : String_destroy (mkString (Some a)) m2 =
               Some (mkMemory (delete a (blocks m2)) (a :: freed m2))).
  { unfold String_destroy. cbn [ptr]. by apply (release_last a m2 _ Hb2). }
  split; [done|]. split.
  { unfold live. cbn [blocks]. rewrite lookup_delete_eq.
    apply bool_decide_eq_false. by intros [? ?]. }
  destruct N as [|N']; [clear -HN; lia|].
  cbn [replicate destroy_all]. rewrite Hd.
  unfold String_destroy, linc_releaseStringData. cbn [ptr blocks].
  by rewrite lookup_delete_eq.
Qed.

(** C8 (as stated) fails at [N = 2^32]: the count, a 32-bit integer, is back
    at 1 after 2^32 copies, so the first destruction frees the buffer the
    other 2^32 references still point to, and destroying all [N + 1]
    references runs into freed memory. *)
Lemma refcount_wraps_after_2_32_copies :
  exists cs m2 m3,
    copies overflow_copies (String_of_cstr (Some "a"%string) empty_memory).1
           (String_of_cstr (Some "a"%string) empty_memory).2 = Some (cs, m2) /\
    List.length cs = overflow_copies /\
    count_of 1%positive m2 = Some 1 /\
    String_destroy (String_of_cstr (Some "a"%string) empty_memory).1 m2 = Some m3 /\
    live 1%positive m3 = false /\
    destroy_all ((String_of_cstr (Some "a"%string) empty_memory).1 :: cs) m2 = None.
Proof.
  destruct (overflow_general 1%positive
              (String_of_cstr (Some "a"%string) empty_memory).2
              (mkStringData 1 1 "a") overflow_copies)
    as (m2 & m3 & Hc & Hn & Hd & Hl & Hall).
  - reflexivity.
  - reflexivity.
  - apply Z2Nat.id. discriminate.
  - exists (replicate overflow_copies (mkString (Some 1%positive))), m2, m3.
    split; [exact Hc|]. split; [apply length_replicate|].
    split; [exact Hn|]. split; [exact Hd|]. split; [exact Hl|exact Hall].
Qed.

(** C10: the default string and a string built from a null pointer are
    null ([isNull], no [operator bool], null [c_str], length 0, nothing
    allocated); a string built from a non-null pointer, of length zero
    included, is not: the null string and the empty string differ. *)
Theorem null_string_distinct_from_empty :
  (isNull String_default = true /\ to_bool String_default = false /\
   c_str String_default = None /\ forall m, length String_default m = Some 0%nat) /\
  (forall m,
     let s := (String_of_cstr None m).1 in
     (String_of_cstr None m).2 = m /\
     isNull s = true /\ to_bool s = false /\ c_str s = None /\ length s m = Some 0%nat) /\
  (forall n m,
     let s := (String_of_buf None n m).1 in
     (String_of_buf None n m).2 = m /\
     isNull s = true /\ to_bool s = false /\ c_str s = None /\ length s m = Some 0%nat) /\
  (forall bytes m,
     let s := (String_of_cstr (Some bytes) m).1 in
     let m' := (String_of_cstr (Some bytes) m).2 in
     isNull s = false /\ to_bool s = true /\ c_str s <> None /\
     length s m' = Some (String.length bytes)) /\
  (forall bytes n m,
     let s := (String_of_buf (Some bytes) n m).1 in
     let m' := (String_of_buf (Some bytes) n m).2 in
     isNull s = false /\ to_bool s = true /\ c_str s <> None /\ length s m' = Some n) /\
  (forall m,
     let empty := (String_of_cstr (Some ""%string) m).1 in
     let m' := (String_of_cstr (Some ""%string) m).2 in
     length empty m' = length String_default m' /\
     isNull empty <> isNull String_default /\
     to_bool empty <> to_bool String_default /\
     c_str empty <> c_str String_default).
Proof.
  repeat split; try done.
  - cbn. by rewrite lookup_insert_eq.
  - cbn. by rewrite lookup_insert_eq.
  - cbn. by rewrite lookup_insert_eq.
Qed.

(** *** The count and the owners *)

Lemma owners_app a l1 l2 : owners a (l1 ++ l2) = (owners a l1 + owners a l2)%nat.
Proof. induction l1 as [|s l1 IH]; cbn; [done|]. rewrite IH. lia. Qed.

Lemma owners_insert a i s s' : forall l,
  l !! i = Some s ->
  (owners a (<[i := s']> l) + points s a = owners a l + points s' a)%nat.
Proof.
  induction i as [|i IH]; intros [|x l] H; try done.
  - injection H as ->. simpl. lia.
  - simpl in *. specialize (IH l H). lia.
Qed.

Lemma owners_delete a i s : forall l,
  l !! i = Some s -> (owners a (delete i l) + points s a = owners a l)%nat.
Proof.
  induction i as [|i IH]; intros [|x l] H; try done.
  - injection H as ->. simpl. lia.
  - simpl in *. specialize (IH l H). lia.
Qed.

Lemma owners_le_length a l : (owners a l <= List.length l)%nat.
Proof.
  induction l as [|s l IH]; cbn; [lia|]. unfold points, hit. destruct (decide _); lia.
Qed.

Lemma owners_pos a i s l :
  l !! i = Some s -> ptr s = Some a -> (0 < owners a l)%nat.
Proof.
  intros Hi Hp. pose proof (owners_delete a i s l Hi) as H. unfold points, hit in H.
  rewrite decide_True in H by done. lia.
Qed.

Lemma counted_with_ext f g m :
  (forall a, f a = g a) -> counted_with f m -> counted_with g m.
Proof. intros Hfg Hc a. specialize (Hc a). rewrite <- Hfg. exact Hc. Qed.

Lemma counted_with_retain f m a :
  counted_with f m -> (0 < f a)%nat -> Z.of_nat (f a) + 1 < 2 ^ 31 ->
  exists m',
    linc_retainStringData (Some a) m = Some m' /\
    counted_with (fun x => if decide (x = a) then S (f a) else f x) m'.
Proof.
  intros Hc Hpos Hb. pose proof (Hc a) as Ha.
  destruct (blocks m !! a) as [b|] eqn:Hl; [|lia]. destruct Ha as [Hr _].
  eexists. split; [unfold linc_retainStringData; rewrite Hl; reflexivity|].
  intros x. cbn [blocks]. destruct (decide (x = a)) as [->|Hne].
  - rewrite lookup_insert_eq. cbn [refCount]. split; [|lia].
    rewrite Hr, int_wrap_id; [lia|]. unfold in_int_range. lia.
  - rewrite lookup_insert_ne by done. apply Hc.
Qed.

Lemma counted_with_release f m a :
  counted_with f m -> (0 < f a)%nat -> Z.of_nat (f a) < 2 ^ 31 ->
  exists m',
    linc_releaseStringData (Some a) m = Some m' /\
    counted_with (fun x => if decide (x = a) then pred (f a) else f x) m'.
Proof.
  intros Hc Hpos Hb. pose proof (Hc a) as Ha.
  destruct (blocks m !! a) as [b|] eqn:Hl; [|lia]. destruct Ha as [Hr _].
  unfold linc_releaseStringData. rewrite Hl.
  destruct (decide (refCount b = 1)) as [H1|H1]; eexists; (split; [reflexivity|]);
    intros x; cbn [blocks]; destruct (decide (x = a)) as [->|Hne].
  - rewrite lookup_delete_eq. lia.
  - rewrite lookup_delete_ne by done. apply Hc.
  - rewrite lookup_insert_eq. cbn [refCount]. split; [|lia].
    rewrite Hr, int_wrap_id; [lia|]. unfold in_int_range. lia.
  - rewrite lookup_insert_ne by done. apply Hc.
Qed.

Lemma counted_with_create f m bytes n :
  counted_with f m ->
  exists a m',
    linc_createStringData (Some bytes) n m = (Some a, m') /\ f a = 0%nat /\
    counted_with (fun x => if decide (x = a) then 1%nat else f x) m'.
Proof.
  intros Hc. exists (malloc_addr m). eexists. split; [reflexivity|].
  assert (Hfresh : blocks m !! malloc_addr m = None).
  { apply not_elem_of_dom. exact (is_fresh (dom (blocks m))). }
  split. { pose proof (Hc (malloc_addr m)) as H. by rewrite Hfresh in H. }
  intros x. cbn [blocks]. destruct (decide (x = malloc_addr m)) as [->|Hne].
  - rewrite lookup_insert_eq. cbn. split; [done|lia].
  - rewrite lookup_insert_ne by done. apply Hc.
Qed.

Lemma counted_with_retain_opt f m p :
  counted_with f m ->
  (forall a, p = Some a -> (0 < f a)%nat /\ Z.of_nat (f a) + 1 < 2 ^ 31) ->
  exists m',
    linc_retainStringData p m = Some m' /\
    counted_with (fun x => (f x + hit p x)%nat) m'.
Proof.
  intros Hc Hp. destruct p as [a|].
  - destruct (Hp a eq_refl) as [Hpos Hb].
    destruct (counted_with_retain f m a Hc Hpos Hb) as (m' & Hr & Hc').
    exists m'. split; [exact Hr|]. eapply counted_with_ext; [|exact Hc'].
    intros x. unfold hit. cbn beta. destruct (decide (x = a)) as [->|Hne].
    + rewrite decide_True by done. lia.
    + rewrite decide_False by congruence. lia.
  - exists m. split; [done|]. eapply counted_with_ext; [|exact Hc].
    intros x. unfold hit. rewrite decide_False by done. lia.
Qed.

Lemma counted_with_release_opt f m p :
  counted_with f m ->
  (forall a, p = Some a -> (0 < f a)%nat /\ Z.of_nat (f a) < 2 ^ 31) ->
  exists m',
    linc_releaseStringData p m = Some m' /\
    counted_with (fun x => (f x - hit p x)%nat) m'.
Proof.
  intros Hc Hp. destruct p as [a|].
  - destruct (Hp a eq_refl) as [Hpos Hb].
    destruct (counted_with_release f m a Hc Hpos Hb) as (m' & Hr & Hc').
    exists m'. split; [exact Hr|]. eapply counted_with_ext; [|exact Hc'].
    intros x. unfold hit. cbn beta. destruct (decide (x = a)) as [->|Hne].
    + rewrite decide_True by done. lia.
    + rewrite decide_False by congruence. lia.
  - exists m. split; [done|]. eapply counted_with_ext; [|exact Hc].
    intros x. unfold hit. rewrite decide_False by done. lia.
Qed.

Lemma hit_le p x : (hit p x <= 1)%nat.
Proof. unfold hit. destruct (decide _); lia. Qed.

Lemma owners_bounds vars i s a :
  vars !! i = Some s -> ptr s = Some a ->
  (0 < owners a vars)%nat /\ (owners a vars <= List.length vars)%nat.
Proof.
  intros Hi Hp. split; [by eapply owners_pos|apply owners_le_length].
Qed.

Lemma counted_new vars m s m' x :
  counted vars m ->
  (s = None /\ x = mkString None /\ m' = m \/
   exists bytes n, s = Some bytes /\ (mkString (fst (linc_createStringData s n m)) = x) /\
                   snd (linc_createStringData s n m) = m') ->
  counted (vars ++ [x]) m'.
Proof.
  intros Hc [(-> & -> & ->)|(bytes & n & -> & <- & <-)].
  - eapply counted_with_ext; [|exact Hc]. intros a. rewrite owners_app. cbn.
    unfold points, hit. cbn [ptr]. rewrite decide_False by done. lia.
  - destruct (counted_with_create _ m bytes n Hc) as (a & m' & Hcr & Hz & Hc').
    rewrite Hcr. cbn [fst snd]. eapply counted_with_ext; [|exact Hc'].
    intros y. rewrite owners_app. cbn. unfold points, hit. cbn [ptr].
    destruct (decide (y = a)) as [->|Hne].
    + rewrite decide_True by done. lia.
    + rewrite decide_False by congruence. lia.
Qed.

(** X15: the count of a block is the number of string objects that point
    to it.  This holds of the empty program state and is kept by every
    constructor, by both assignments (self-assignment included) and by the
    destructor, as long as fewer than 2^31 - 1 objects are alive; so no
    such statement runs into freed memory, a string never points to a
    freed block, and once no object is left no block is left. *)
Theorem refcount_counts_owners :
  counted [] empty_memory /\
  (forall op vars m,
     counted vars m -> Z.of_nat (List.length vars) < 2 ^ 31 - 1 -> op_valid op vars ->
     exists vars' m', exec op vars m = Some (vars', m') /\ counted vars' m') /\
  (forall vars m i s a,
     counted vars m -> vars !! i = Some s -> ptr s = Some a ->
     exists b, blocks m !! a = Some b /\ refCount b = Z.of_nat (owners a vars)) /\
  (forall m, counted [] m -> blocks m = ∅).
Proof.
  split; [|split; [|split]].
  - intros a. cbn. by rewrite lookup_empty.
  - intros op vars m Hc Hb Hv.
    assert (Hrange : forall i s a, vars !! i = Some s -> ptr s = Some a ->
              (0 < owners a vars)%nat /\ Z.of_nat (owners a vars) + 1 < 2 ^ 31).
    { intros i s a Hi Hp. destruct (owners_bounds vars i s a Hi Hp). split; [done|lia]. }
    destruct op as [|s|s n|src|src|dst src|dst src|i]; cbn [exec op_valid] in *.
    + eexists _, _. split; [reflexivity|]. apply (counted_new vars m None). exact Hc. by left.
    + destruct s as [bytes|].
      * cbn. eexists _, _. split; [reflexivity|].
        apply (counted_new vars m (Some bytes)); [exact Hc|]. right.
        by exists bytes, (String.length bytes).
      * cbn. eexists _, _. split; [reflexivity|]. apply (counted_new vars m None). exact Hc.
        by left.
    + destruct s as [bytes|].
      * cbn. eexists _, _. split; [reflexivity|].
        apply (counted_new vars m (Some bytes)); [exact Hc|]. right. by exists bytes, n.
      * cbn. eexists _, _. split; [reflexivity|]. apply (counted_new vars m None). exact Hc.
        by left.
    + destruct (lookup_lt_is_Some_2 vars src Hv) as [o Ho]. rewrite Ho. cbn.
      destruct (counted_with_retain_opt _ m (ptr o) Hc) as (m' & Hr & Hc').
      { intros a Ha. exact (Hrange src o a Ho Ha). }
      unfold String_copy. rewrite Hr. cbn. eexists _, _. split; [reflexivity|].
      eapply counted_with_ext; [|exact Hc']. intros x. rewrite owners_app. cbn.
      unfold points. cbn. lia.
    + destruct (lookup_lt_is_Some_2 vars src Hv) as [o Ho]. rewrite Ho. cbn.
      eexists _, _. split; [reflexivity|].
      eapply counted_with_ext; [|exact Hc]. intros x. rewrite owners_app. cbn.
      pose proof (owners_insert x src o (mkString None) vars Ho) as H.
      assert (Hn : hit None x = 0%nat) by (unfold hit; by rewrite decide_False).
      unfold points in *. cbn [ptr] in *. lia.
    + destruct Hv as [Hd Hs].
      destruct (lookup_lt_is_Some_2 vars dst Hd) as [this Hthis].
      destruct (lookup_lt_is_Some_2 vars src Hs) as [o Ho]. rewrite Hthis, Ho. cbn.
      destruct (decide (dst = src)) as [->|Hne].
      * rewrite bool_decide_eq_true_2 by done. cbn. eexists _, _. split; [reflexivity|].
        by rewrite list_insert_id.
      * rewrite bool_decide_eq_false_2 by done. cbn.
        destruct (counted_with_retain_opt _ m (ptr o) Hc) as (m1 & Hr & Hc1).
        { intros a Ha. exact (Hrange src o a Ho Ha). }
        rewrite Hr.
        destruct (counted_with_release_opt _ m1 (ptr this) Hc1) as (m2 & Hl & Hc2).
        { intros a Ha. destruct (owners_bounds vars dst this a Hthis Ha).
          pose proof (hit_le (ptr o) a). split; lia. }
        rewrite Hl. cbn. eexists _, _. split; [reflexivity|].
        eapply counted_with_ext; [|exact Hc2]. intros x. cbn beta.
        pose proof (owners_insert x dst this (mkString (ptr o)) vars Hthis) as H.
        unfold points in *. cbn [ptr] in *. lia.
    + destruct Hv as [Hd Hs].
      destruct (lookup_lt_is_Some_2 vars dst Hd) as [this Hthis].
      destruct (lookup_lt_is_Some_2 vars src Hs) as [o Ho]. rewrite Hthis, Ho. cbn.
      destruct (decide (dst = src)) as [->|Hne].
      * rewrite bool_decide_eq_true_2 by done. cbn. eexists _, _. split; [reflexivity|].
        assert (this = o) as -> by congruence.
        by rewrite !(list_insert_id vars src o Ho).
      * rewrite bool_decide_eq_false_2 by done. cbn.
        destruct (counted_with_release_opt _ m (ptr this) Hc) as (m1 & Hl & Hc1).
        { intros a Ha. destruct (owners_bounds vars dst this a Hthis Ha). split; lia. }
        rewrite Hl. cbn. eexists _, _. split; [reflexivity|].
        eapply counted_with_ext; [|exact Hc1]. intros x. cbn beta.
        pose proof (owners_insert x src o (mkString None) vars Ho) as H1.
        assert (Hthis' : <[src := mkString None]> vars !! dst = Some this)
          by (by rewrite list_lookup_insert_ne).
        pose proof (owners_insert x dst this (mkString (ptr o)) _ Hthis') as H2.
        assert (Hn : hit None x = 0%nat) by (unfold hit; by rewrite decide_False).
        unfold points in *. cbn [ptr] in *. lia.
    + destruct (lookup_lt_is_Some_2 vars i Hv) as [s Hs]. rewrite Hs. cbn.
      destruct (counted_with_release_opt _ m (ptr s) Hc) as (m1 & Hl & Hc1).
      { intros a Ha. destruct (owners_bounds vars i s a Hs Ha). split; lia. }
      unfold String_destroy. rewrite Hl. cbn. eexists _, _. split; [reflexivity|].
      eapply counted_with_ext; [|exact Hc1]. intros x. cbn beta.
      pose proof (owners_delete x i s vars Hs) as H. unfold points in *. lia.
  - intros vars m i s a Hc Hi Hp. pose proof (Hc a) as Ha.
    destruct (blocks m !! a) as [b|].
    + exists b. split; [done|]. apply Ha.
    + pose proof (owners_pos a i s vars Hi Hp). cbn in Ha. lia.
  - intros m Hc. apply map_eq. intros a. rewrite lookup_empty.
    pose proof (Hc a) as Ha. destruct (blocks m !! a); [|done]. cbn in Ha. lia.
Qed.

(** A string built from two bytes and copied once. *)
Lemma refcount_counts_owners_witness :
  exists vars m,
    exec (NewCopy 0) [(String_of_cstr (Some "hi"%string) empty_memory).1]
      (String_of_cstr (Some "hi"%string) empty_memory).2 = Some (vars, m) /\
    counted vars m /\ List.length vars = 2%nat /\
    count_of 1%positive m = Some 2.
Proof.
  destruct refcount_counts_owners as (H0 & Hstep & _ & _).
  assert (Hb0 : Z.of_nat (List.length (@nil Loreline_String)) < 2 ^ 31 - 1)
    by (vm_compute; reflexivity).
  destruct (Hstep (NewFromCstr (Some "hi"%string)) [] empty_memory H0 Hb0 I)
    as (v1 & m1 & He1 & Hc1).
  cbn in He1. injection He1 as <- <-.
  assert (Hb1 : Z.of_nat (List.length [mkString (Some (malloc_addr empty_memory))])
                < 2 ^ 31 - 1) by (vm_compute; reflexivity).
  destruct (Hstep (NewCopy 0) _ _ Hc1 Hb1 ltac:(simpl; lia)) as (v2 & m2 & He2 & Hc2).
  exists v2, m2. split; [exact He2|]. split; [exact Hc2|].
  vm_compute in He2. injection He2 as <- <-. split; reflexivity.
Defined.

End RefStringFacts.

(** ** Facts about the bridge *)

Module BridgeFacts.

Import Bridge.
Local Open Scope bridge_scope.
#[local] Set Warnings "-clear-no-such-hyp".

Section Frame.

Context {E : Type} (R : Runtime E).

Lemma same_sched_refl (w : World E) : same_sched w w.
Proof. by repeat split. Qed.

Lemma same_sched_trans (w1 w2 w3 : World E) :
  same_sched w1 w2 -> same_sched w2 w3 -> same_sched w1 w3.
Proof.
  intros (?&?&?&?) (?&?&?&?). repeat split; congruence.
Qed.

Lemma extends_refl P (w : World E) : extends P w w.
Proof. exists []. by rewrite app_nil_r. Qed.

Lemma extends_same P (w w' : World E) : trace w' = trace w -> extends P w w'.
Proof. intros H. exists []. by rewrite app_nil_r. Qed.

Lemma extends_trans P (w1 w2 w3 : World E) :
  extends P w1 w2 -> extends P w2 w3 -> extends P w1 w3.
Proof.
  intros (t1 & H1 & F1) (t2 & H2 & F2). exists (t1 ++ t2).
  split; [by rewrite H2, H1, app_assoc|by apply Forall_app].
Qed.

Lemma heap_only_ret {A} (a : A) : heap_only (ret (E:=E) a).
Proof. intros w. split; [apply same_sched_refl|apply extends_refl]. Qed.

Lemma heap_only_bind {A B} (m : M E A) (k : A -> M E B) :
  heap_only m -> (forall a, heap_only (k a)) -> heap_only (bind m k).
Proof.
  intros Hm Hk w. unfold bind. specialize (Hm w).
  destruct (m w) as [a w1|e w1|w1|w1|]; try done.
  destruct Hm as [Hs He]. specialize (Hk a w1).
  destruct (k a w1) as [b w2|e w2|w2|w2|]; try done;
    destruct Hk as [Hs' He'];
    (split; [by eapply same_sched_trans|by eapply extends_trans]).
Qed.

Lemma heap_only_try_catch {A} (m : M E A) (handler : Dynamic -> M E A) :
  heap_only m -> (forall e, heap_only (handler e)) -> heap_only (try_catch m handler).
Proof.
  intros Hm Hh w. unfold try_catch. specialize (Hm w).
  destruct (m w) as [a w1|e w1|w1|w1|]; try done.
  destruct e as [e|msg]; [|done].
  destruct Hm as [Hs He]. specialize (Hh e w1).
  destruct (handler e w1) as [b w2|e' w2|w2|w2|]; try done;
    destruct Hh as [Hs' He'];
    (split; [by eapply same_sched_trans|by eapply extends_trans]).
Qed.

Lemma heap_only_emit ev : quiet_event ev -> heap_only (emit (E:=E) ev).
Proof.
  intros Hq w. split; [by repeat split|]. exists [ev]. split; [done|].
  by apply Forall_singleton.
Qed.

Lemma heap_only_call_engine c tid : heap_only (call_engine R c tid).
Proof.
  intros w. unfold call_engine.
  destruct (engine R c tid (sched w) (heap w)) as [v hp|e hp];
    (split; [by repeat split|]); exists [EvEngine c tid];
    (split; [done|by apply Forall_singleton]).
Qed.

Lemma heap_only_on_heap f : heap_only (on_heap (E:=E) f).
Proof.
  intros w. unfold on_heap. destruct (f (heap w)); [|done].
  split; [by repeat split|by apply extends_same].
Qed.

Lemma heap_only_deref h : heap_only (deref (E:=E) h).
Proof.
  intros w. unfold deref. destruct (interps (heap w) !! h); [|done].
  split; [apply same_sched_refl|by apply extends_same].
Qed.

Lemma heap_only_ensure tid : heap_only (linc_Loreline_ensureHaxeThread R tid).
Proof.
  intros w. unfold linc_Loreline_ensureHaxeThread.
  destruct (linc_Loreline_didCallHaxeMain (heap w));
    match goal with |- context [decide ?P] => destruct (decide P) end;
    (split; [by repeat split|by apply extends_same]).
Qed.

Lemma heap_only_new_script (d : Dynamic) :
  heap_only (fun w : World E =>
               let '(handle, hp) := new_Script d (heap w) in
               Ok (RHandle (Some handle)) (set_heap hp w)).
Proof.
  intros w. destruct (new_Script d (heap w)) as [handle hp].
  split; [by repeat split|by apply extends_same].
Qed.

Lemma heap_only_new_translations (d : Dynamic) :
  heap_only (fun w : World E =>
               let '(handle, hp) := new_Translations d (heap w) in
               Ok (RHandle (Some handle)) (set_heap hp w)).
Proof.
  intros w. destruct (new_Translations d (heap w)) as [handle hp].
  split; [by repeat split|by apply extends_same].
Qed.

Lemma heap_only_script_obj_of sc : heap_only (script_obj_of (E:=E) sc).
Proof.
  intros w. unfold script_obj_of. destruct (scripts (heap w) !! sc); [|done].
  split; [apply same_sched_refl|apply extends_refl].
Qed.

Lemma heap_only_run_body b tid : heap_only (run_body R b tid).
Proof.
  unfold run_body. apply heap_only_bind; [apply heap_only_ensure|]. intros _.
  destruct b;
    repeat first
      [ apply heap_only_ret
      | apply heap_only_call_engine
      | apply heap_only_on_heap
      | apply heap_only_deref
      | apply heap_only_new_script
      | apply heap_only_new_translations
      | apply heap_only_script_obj_of
      | apply heap_only_emit; exact I
      | apply heap_only_try_catch; [|intros ?]
      | apply heap_only_bind; [|intros ?]
      | match goal with |- heap_only (if ?c then _ else _) => destruct c end ].
Qed.

End Frame.

(** *** Sessions and continuations *)

Section Session.

Context {E : Type} (R : Runtime E).

Lemma setPendingCallback_spec (h : positive) (cb : Dynamic) (hp : Heap E)
    (i : Loreline_Interpreter) :
  interps hp !! h = Some i ->
  exists hp',
    setPendingCallback h cb hp = Some hp' /\
    interps hp' = <[h := with_pendingCb cb i]> (interps hp) /\
    pending h hp' = (if IsNull cb then [] else [cb]) /\
    (((h, FPendingCb) ∈ roots hp <-> IsNull (pendingCb i) = false) ->
     ((h, FPendingCb) ∈ roots hp' <-> IsNull cb = false)) /\
    (forall slot, slot <> (h, FPendingCb) -> slot ∈ roots hp' <-> slot ∈ roots hp) /\
    s_dispatchInterp hp' = s_dispatchInterp hp /\
    functionQueue hp' = functionQueue hp /\
    engineState hp' = engineState hp /\
    linc_Loreline_didCallHaxeMain hp' = linc_Loreline_didCallHaxeMain hp /\
    linc_Loreline_haxeThreadId hp' = linc_Loreline_haxeThreadId hp.
Proof.
  intros Hi. unfold setPendingCallback. rewrite Hi. eexists. split; [reflexivity|].
  assert (Hp : forall hp0 : Heap E,
             interps hp0 = <[h:=with_pendingCb cb i]> (interps hp) ->
             pending h hp0 = (if IsNull cb then [] else [cb])).
  { intros hp0 H0. unfold pending. rewrite H0, lookup_insert_eq. done. }
  destruct (IsNull (pendingCb i)); destruct (IsNull cb) eqn:Hcb; cbn;
    (split; [done|]); (split; [by apply Hp|]);
    (split; [set_solver|]); (split; [set_solver|done]).
Qed.


Lemma pending_other (h h' : positive) (i : Loreline_Interpreter) (hp hp' : Heap E) :
  h' <> h -> interps hp' = <[h := i]> (interps hp) -> pending h' hp' = pending h' hp.
Proof. intros Hne Hi. unfold pending. by rewrite Hi, lookup_insert_ne. Qed.



(** C5 (as amended): [linc_select] has no range check.  Whatever the
    index, when the dispatched session holds a continuation it clears it
    and schedules the continuation with that index: queued as such when a
    worker is active, and otherwise run at once, entering the engine with
    the index as its argument. *)
Theorem select_forwards_any_index (index : Z) (tid : ThreadId) (w : World E)
    (h : positive) (i : Loreline_Interpreter) :
  s_dispatchInterp (heap w) = Some h ->
  interps (heap w) !! h = Some i ->
  IsNull (pendingCb i) = false ->
  exists hp',
    setPendingCallback h DNull (heap w) = Some hp' /\
    pending h hp' = [] /\
    linc_select R index tid w =
      linc_Loreline_schedule R (TSelect (pendingCb i) index) tid (set_heap hp' w) /\
    (worker_active (sched w) = true ->
     exists t,
       linc_Loreline_thread (sched w) = Some t /\
       linc_select R index tid w =
         Ok tt (set_thread
                  (Some (mkThread (workerId t)
                           (taskQueue t ++ [Async (TSelect (pendingCb i) index)])
                           (stopFlag t)))
                  (set_heap hp' w))) /\
    (worker_active (sched w) = false -> on_haxe_thread tid w ->
     let w1 := set_trace (trace w ++ [EvRan (TSelect (pendingCb i) index) tid;
                                      EvEngine (Callback_run (pendingCb i) [DInt index]) tid])
                 (set_heap hp' w) in
     linc_select R index tid w =
       match engine R (Callback_run (pendingCb i) [DInt index]) tid (sched w) hp' with
       | Returns _ hp'' => Ok tt (set_heap hp'' w1)
       | Throws e hp'' => Throw (HxException e) (set_heap hp'' w1)
       end).
Proof.
  intros Hd Hi Hnull.
  destruct (setPendingCallback_spec h DNull (heap w) i Hi)
    as (hp' & Hs & _ & Hp & _ & _ & _ & _ & _ & Hmain & Hid).
  exists hp'. split; [done|]. split; [done|].
  assert (Hsel : linc_select R index tid w =
                 linc_Loreline_schedule R (TSelect (pendingCb i) index) tid (set_heap hp' w)).
  { unfold linc_select. rewrite Hd, Hi, Hnull. unfold bind, on_heap. by rewrite Hs. }
  split; [done|]. split.
  - intros Hact. rewrite Hsel. unfold linc_Loreline_schedule. cbn [sched set_heap].
    rewrite Hact. unfold Thread_schedule, Thread_push. cbn [sched set_heap].
    unfold worker_active in Hact. apply andb_true_iff in Hact as [_ Ht].
    apply bool_decide_eq_true in Ht as [t Ht]. rewrite Ht. by exists t.
  - intros Hact [Hm Ht]. rewrite Hsel. unfold linc_Loreline_schedule. cbn [sched set_heap].
    rewrite Hact. unfold run_task, run_body, bind, emit, ret,
      linc_Loreline_ensureHaxeThread, call_engine.
    cbn [heap set_heap set_trace sched trace]. rewrite Hmain, Hm.
    cbn [heap set_heap set_trace sched trace]. rewrite Hid, Ht.
    rewrite decide_True by done. cbn [heap set_heap set_trace sched trace].
    rewrite <- app_assoc. cbn [app].
    by destruct (engine R (Callback_run (pendingCb i) [DInt index]) tid (sched w) hp').
Qed.

End Session.

(** *** Boundary functions: exceptions and null handles *)

Section Boundary.

Context {E : Type} (R : Runtime E).

Lemma ensure_on_thread tid (w : World E) :
  on_haxe_thread tid w -> linc_Loreline_ensureHaxeThread R tid w = Ok tt w.
Proof.
  intros [Hm Ht]. unfold linc_Loreline_ensureHaxeThread. rewrite Hm, Ht.
  by rewrite decide_True.
Qed.

(** [Loreline_parse] catches: the engine's exception ends in a null
    handle and a line on stderr. *)
Lemma parse_catches_engine_exception (fuel : nat) (input filePath : option string)
    (fh fhData : option positive) (tid : ThreadId) (w : World E) :
  worker_active (sched w) = false ->
  forall e w', Loreline_parse R fuel input filePath fh fhData tid w <> Throw (HxException e) w'.
Proof.
  intros Hact e w'. unfold Loreline_parse, linc_Loreline_scheduleSync, bind at 1.
  rewrite Hact. unfold run_task, run_body, bind at 1, emit.
  unfold bind at 1.
  destruct (linc_Loreline_ensureHaxeThread R tid _) as [[] w1|ex w1|w1|w1|] eqn:Hens;
    try done.
  - unfold try_catch, bind, call_engine.
    destruct (engine R _ tid (sched w1) (heap w1)) as [v hp|e' hp]; [|done].
    destruct (IsNull v); [done|]. cbn. by destruct (new_Script v hp).
  - intros [= -> ->]. revert Hens. unfold linc_Loreline_ensureHaxeThread.
    destruct (linc_Loreline_didCallHaxeMain _);
      match goal with |- context [decide ?P] => destruct (decide P) end; done.
Qed.

(** C2 (where the code departs from it): with no worker, on the engine's
    thread and for a live session, a Haxe exception thrown by the JSON
    parser inside [Loreline_restore], or by the interpreter inside
    [Loreline_save], leaves the boundary function as a C++ exception. *)
Theorem engine_exception_escapes_restore_and_save (tid : ThreadId) (w : World E)
    (h : positive) (i : Loreline_Interpreter) :
  worker_active (sched w) = false ->
  on_haxe_thread tid w ->
  interps (heap w) !! h = Some i ->
  (forall s e hp',
     engine R (Json_parse (Some s)) tid (sched w) (heap w) = Throws e hp' ->
     exists w', Loreline_restore R (Some h) (Some s) tid w = Throw (HxException e) w') /\
  (forall fuel e hp',
     engine R (Interpreter_save (obj i)) tid (sched w) (heap w) = Throws e hp' ->
     exists w', Loreline_save R fuel (Some h) tid w = Throw (HxException e) w').
Proof.
  intros Hact Hth Hi.
  assert (Hth' : forall tr, on_haxe_thread tid (set_trace tr w)) by (intros tr; exact Hth).
  split.
  - intros s e hp' He. eexists.
    unfold Loreline_restore, linc_Loreline_schedule, linc_toHxString. rewrite Hact.
    unfold run_task, run_body, bind, emit. rewrite (ensure_on_thread tid _ (Hth' _)).
    unfold deref. cbn [heap set_trace]. rewrite Hi.
    unfold call_engine. cbn [heap sched set_trace]. rewrite He. reflexivity.
  - intros fuel e hp' He. eexists.
    unfold Loreline_save, linc_Loreline_scheduleSync, bind at 1. rewrite Hact.
    unfold run_task, run_body, bind, emit. rewrite (ensure_on_thread tid _ (Hth' _)).
    unfold deref. cbn [heap set_trace]. rewrite Hi.
    unfold call_engine. cbn [heap sched set_trace]. rewrite He. reflexivity.
Qed.

(** The same exception on the worker leaves the thread function. *)
Lemma engine_exception_on_worker_terminates (w : World E) (t : Loreline_Thread)
    (h : positive) (i : Loreline_Interpreter) (s : string) (rest : list QTask)
    (e : Dynamic) (hp' : Heap E) :
  linc_Loreline_thread (sched w) = Some t ->
  taskQueue t = Async (TRestore h (Some s)) :: rest ->
  on_haxe_thread (WorkerThread (workerId t)) w ->
  interps (heap w) !! h = Some i ->
  (forall sc, engine R (Json_parse (Some s)) (WorkerThread (workerId t)) sc (heap w)
              = Throws e hp') ->
  exists w', threadLoop_iter R w = Terminate w'.
Proof.
  intros Ht Hq Hth Hi He. eexists. unfold threadLoop_iter. rewrite Ht, Hq.
  unfold linc_toHxString.
  unfold run_qtask, run_task, run_body, bind, emit.
  rewrite ensure_on_thread by exact Hth.
  unfold deref. cbn [heap set_trace set_thread set_sched]. rewrite Hi.
  unfold call_engine. cbn [heap sched set_trace set_thread set_sched]. rewrite He.
  reflexivity.
Qed.

(** C4 (as amended): a null handle makes the boundary function return at
    once, with its null result and the world untouched. *)
Theorem null_handle_returns_at_once (fuel : nat) (tid : ThreadId) (w : World E) :
  (forall beatName, Loreline_start R None beatName tid w = Ok tt w) /\
  Loreline_save R fuel None tid w = Ok None w /\
  (forall saveData, Loreline_restore R None saveData tid w = Ok tt w) /\
  (forall character field,
     Loreline_getCharacterField R fuel None character field tid w = Ok null_val w) /\
  (forall onDialogue onChoice onFinish beatName tr data,
     Loreline_play R None onDialogue onChoice onFinish beatName tr data tid w = Ok None w) /\
  (forall onDialogue onChoice onFinish saveData beatName tr data,
     Loreline_resume R None onDialogue onChoice onFinish saveData beatName tr data tid w
       = Ok None w) /\
  (forall character field value,
     Loreline_setCharacterField R None character field value tid w = Ok tt w) /\
  Loreline_extractTranslations R fuel None tid w = Ok None w /\
  Loreline_printScript R fuel None tid w = Ok None w /\
  Loreline_releaseScript R None tid w = Ok tt w /\
  Loreline_releaseTranslations R None tid w = Ok tt w /\
  Loreline_releaseInterpreter R None tid w = Ok tt w.
Proof. repeat split. Qed.

End Boundary.

(** *** The worker thread *)

Section Worker.

Context {E : Type} (R : Runtime E).

Lemma ran_tasks_app tr1 tr2 : ran_tasks (tr1 ++ tr2) = ran_tasks tr1 ++ ran_tasks tr2.
Proof. apply omap_app. Qed.

Lemma ran_tasks_quiet tr : Forall quiet_event tr -> ran_tasks tr = [].
Proof.
  induction 1 as [|ev tr Hq _ IH]; [done|].
  unfold ran_tasks in *. cbn. rewrite IH. by destruct ev.
Qed.

(** A body invoked on a thread is recorded once, returns or throws, and
    leaves the scheduler alone. *)
Lemma run_task_spec b tid (w : World E) :
  match run_task R b tid w with
  | Ok _ w' | Throw _ w' =>
      same_sched w w' /\ ran_tasks (trace w') = ran_tasks (trace w) ++ [(b, tid)]
  | Undefined => True
  | Terminate _ | Blocked _ => False
  end.
Proof.
  unfold run_task, bind, emit.
  pose proof (heap_only_run_body R b tid (set_trace (trace w ++ [EvRan b tid]) w)) as H.
  destruct (run_body R b tid _) as [r w'|e w'|w'|w'|]; try done;
    destruct H as [Hs (tr & Htr & Hq)];
    (split; [exact Hs|]);
    rewrite Htr; cbn [trace set_trace]; rewrite !ran_tasks_app, (ran_tasks_quiet tr Hq);
    by rewrite app_nil_r.
Qed.

Lemma run_qtask_spec q tid (w : World E) :
  match run_qtask R q tid w with
  | Ok _ w' =>
      sched w' = sched w /\ spawned w' = spawned w /\ liveWorkers w' = liveWorkers w /\
      ran_tasks (trace w') = ran_tasks (trace w) ++ [(task_of q, tid)] /\
      match q with
      | Async _ => frames w' = frames w
      | Wrapped _ c => exists r, frames w' = <[c := mkFrame true r]> (frames w)
      end
  | Throw _ w' =>
      sched w' = sched w /\ spawned w' = spawned w /\ liveWorkers w' = liveWorkers w /\
      ran_tasks (trace w') = ran_tasks (trace w) ++ [(task_of q, tid)] /\
      frames w' = frames w
  | Undefined => True
  | Terminate _ | Blocked _ => False
  end.
Proof.
  destruct q as [b|b c]; unfold run_qtask, bind;
    pose proof (run_task_spec b tid w) as H;
    destruct (run_task R b tid w) as [r w'|e w'|w'|w'|]; try done;
    destruct H as [(Hs & Hf & Hn & Hl) Hr]; cbn; try done.
  repeat split; try done. exists r. by rewrite Hf.
Qed.

(** One turn of the worker on a non-empty queue pops and runs the front
    element; an exception there ends the process. *)
Lemma threadLoop_iter_cons (w : World E) id q rest stop :
  linc_Loreline_thread (sched w) = Some (mkThread id (q :: rest) stop) ->
  match threadLoop_iter R w with
  | Ok st w' =>
      st = Continue /\
      sched w' = mkSched (linc_Loreline_useInternalThread (sched w))
                         (Some (mkThread id rest stop)) /\
      spawned w' = spawned w /\ liveWorkers w' = liveWorkers w /\
      ran_tasks (trace w') = ran_tasks (trace w) ++ [(task_of q, WorkerThread id)] /\
      match q with
      | Async _ => frames w' = frames w
      | Wrapped _ c => exists r, frames w' = <[c := mkFrame true r]> (frames w)
      end
  | Terminate w' =>
      ran_tasks (trace w') = ran_tasks (trace w) ++ [(task_of q, WorkerThread id)]
  | Undefined => True
  | Throw _ _ | Blocked _ => False
  end.
Proof.
  intros Ht. unfold threadLoop_iter. rewrite Ht. cbn [workerId taskQueue stopFlag].
  pose proof (run_qtask_spec q (WorkerThread id)
                (set_thread (Some (mkThread id rest stop)) w)) as H.
  destruct (run_qtask R q (WorkerThread id) _) as [r w'|e w'|w'|w'|]; try done.
  by destruct H as (_ & _ & _ & Hr & _).
Qed.

Lemma threadLoop_iter_nil (w : World E) id stop :
  linc_Loreline_thread (sched w) = Some (mkThread id [] stop) ->
  threadLoop_iter R w =
    if stop
    then Ok Exit (mkWorld (sched w) (heap w) (frames w) (spawned w)
                    (filter (fun n => n ≠ id) (liveWorkers w)) (trace w))
    else Ok Idle w.
Proof. intros Ht. unfold threadLoop_iter. by rewrite Ht. Qed.

(** With [stopFlag] raised the loop leaves only on an empty queue: every
    queued element was popped and run, in order. *)
Lemma threadLoop_drains fuel : forall (w : World E) id q,
  linc_Loreline_thread (sched w) = Some (mkThread id q true) ->
  match threadLoop R fuel w with
  | Ok _ w' =>
      ran_tasks (trace w') = ran_tasks (trace w) ++ on_worker id q /\
      sched w' = mkSched (linc_Loreline_useInternalThread (sched w))
                         (Some (mkThread id [] true)) /\
      liveWorkers w' = filter (fun n => n ≠ id) (liveWorkers w) /\
      spawned w' = spawned w
  | Terminate w' =>
      exists done_, ran_tasks (trace w') = ran_tasks (trace w) ++ on_worker id done_ /\
                    done_ `prefix_of` q /\ done_ <> []
  | Blocked _ => (fuel <= length q)%nat
  | Throw _ _ => False
  | Undefined => True
  end.
Proof.
  induction fuel as [|fuel IH]; intros w id q Ht; [simpl; lia|].
  cbn [threadLoop]. destruct q as [|x rest].
  - rewrite (threadLoop_iter_nil w id true Ht). cbn.
    rewrite app_nil_r. repeat split. destruct (sched w) as [fl th]. cbn in *. by subst.
  - pose proof (threadLoop_iter_cons w id x rest true Ht) as H.
    destruct (threadLoop_iter R w) as [st w1|e w1|w1|w1|]; try done.
    + destruct H as (-> & Hs & Hn & Hl & Hr & _).
      assert (Ht1 : linc_Loreline_thread (sched w1) = Some (mkThread id rest true))
        by (by rewrite Hs).
      specialize (IH w1 id rest Ht1).
      destruct (threadLoop R fuel w1) as [[] w2|e w2|w2|w2|]; try done.
      * destruct IH as (Hr2 & Hs2 & Hl2 & Hn2). rewrite Hr2, Hr, Hs2, Hs, Hl2, Hl, Hn2, Hn.
        cbn. by rewrite <- app_assoc.
      * destruct IH as (d & Hr2 & Hp & _). exists (x :: d).
        rewrite Hr2, Hr, <- app_assoc. split; [done|]. split; [|done].
        by apply prefix_cons.
      * cbn. lia.
    + exists [x]. split; [done|]. split; [|done]. by apply prefix_cons, prefix_nil.
Qed.

(** C3 (as amended): shutdown raises the stop flag, wakes the worker and
    joins it; the worker leaves its loop only once the queue is empty, so
    the actions still queued at shutdown are all run, in FIFO order, on the
    worker thread before the join returns (or, if one of them throws, up to
    that one, the process being terminated); none is dropped. *)
Theorem shutdown_drains_queue (fuel : nat) (w : World E) (t : Loreline_Thread) :
  linc_Loreline_thread (sched w) = Some t ->
  (forall w', Thread_destructor R fuel w = Ok tt w' ->
     ran_tasks (trace w') = ran_tasks (trace w) ++ on_worker (workerId t) (taskQueue t) /\
     linc_Loreline_thread (sched w') = Some (mkThread (workerId t) [] true) /\
     liveWorkers w' = filter (fun n => n ≠ workerId t) (liveWorkers w)) /\
  (forall w', Thread_destructor R fuel w = Terminate w' ->
     exists done_,
       ran_tasks (trace w') = ran_tasks (trace w) ++ on_worker (workerId t) done_ /\
       done_ `prefix_of` taskQueue t /\ done_ <> []) /\
  ((length (taskQueue t) < fuel)%nat ->
   match Thread_destructor R fuel w with
   | Ok _ _ | Terminate _ | Undefined => True
   | Blocked _ | Throw _ _ => False
   end).
Proof.
  intros Ht. unfold Thread_destructor. rewrite Ht.
  pose proof (threadLoop_drains fuel
                (set_thread (Some (mkThread (workerId t) (taskQueue t) true)) w)
                (workerId t) (taskQueue t) eq_refl) as H.
  destruct (threadLoop R fuel _) as [[] w1|e w1|w1|w1|]; try done.
  - split; [|split; [done|done]]. intros w' [= <-].
    destruct H as (Hr & Hs & Hl & _). split; [exact Hr|]. split; [by rewrite Hs|exact Hl].
  - split; [done|]. split; [|done]. by intros w' [= <-].
  - split; [done|]. split; [done|]. intros Hlt. cbn in H. lia.
Qed.

Lemma Thread_destructor_spec (fuel : nat) (w : World E) (t : Loreline_Thread) :
  linc_Loreline_thread (sched w) = Some t ->
  match Thread_destructor R fuel w with
  | Ok _ w' =>
      ran_tasks (trace w') = ran_tasks (trace w) ++ on_worker (workerId t) (taskQueue t) /\
      sched w' = mkSched (linc_Loreline_useInternalThread (sched w))
                         (Some (mkThread (workerId t) [] true)) /\
      liveWorkers w' = filter (fun n => n ≠ workerId t) (liveWorkers w) /\
      spawned w' = spawned w
  | Terminate _ | Undefined => True
  | Blocked _ => (fuel <= length (taskQueue t))%nat
  | Throw _ _ => False
  end.
Proof.
  intros Ht. unfold Thread_destructor. rewrite Ht.
  pose proof (threadLoop_drains fuel
                (set_thread (Some (mkThread (workerId t) (taskQueue t) true)) w)
                (workerId t) (taskQueue t) eq_refl) as H.
  by destruct (threadLoop R fuel _) as [[] w1|e w1|w1|w1|].
Qed.

Lemma await_completed fuel c (w : World E) f :
  frames w !! c = Some f -> completed f = true -> await R fuel c w = Ok (result f) w.
Proof. intros Hf Hc. destruct fuel; cbn [await]; by rewrite Hf, Hc. Qed.

(** The caller of [scheduleSync] is released only by its own wrapped
    task, after everything queued before it. *)
Lemma await_spec (pre : list QTask) : forall fuel (w : World E) id stop b c rest f,
  linc_Loreline_thread (sched w) = Some (mkThread id (pre ++ Wrapped b c :: rest) stop) ->
  frames w !! c = Some f -> completed f = false ->
  Forall (fun q => match q with Wrapped _ c' => c' <> c | Async _ => True end) pre ->
  match await R fuel c w with
  | Ok r w' =>
      ran_tasks (trace w') =
        ran_tasks (trace w) ++ on_worker id pre ++ [(b, WorkerThread id)] /\
      frames w' !! c = Some (mkFrame true r) /\
      sched w' = mkSched (linc_Loreline_useInternalThread (sched w))
                         (Some (mkThread id rest stop)) /\
      spawned w' = spawned w /\ liveWorkers w' = liveWorkers w
  | Terminate _ | Undefined => True
  | Blocked _ => (fuel <= length pre)%nat
  | Throw _ _ => False
  end.
Proof.
  induction pre as [|q pre IH]; intros fuel w id stop b c rest f Ht Hf Hc Hpre.
  - destruct fuel as [|fuel]; cbn [await]; rewrite Hf, Hc; [simpl; lia|].
    pose proof (threadLoop_iter_cons w id (Wrapped b c) rest stop Ht) as H.
    destruct (threadLoop_iter R w) as [st w1|e w1|w1|w1|]; try done.
    destruct H as (-> & Hs & Hn & Hl & Hr & r & Hfr).
    assert (Hlook : frames w1 !! c = Some (mkFrame true r)).
    { rewrite Hfr. apply list_lookup_insert_eq. by eapply lookup_lt_Some. }
    rewrite (await_completed fuel c w1 _ Hlook eq_refl). by cbn.
  - destruct fuel as [|fuel]; cbn [await]; rewrite Hf, Hc; [simpl; lia|].
    pose proof (threadLoop_iter_cons w id q (pre ++ Wrapped b c :: rest) stop Ht) as H.
    destruct (threadLoop_iter R w) as [st w1|e w1|w1|w1|]; try done.
    destruct H as (-> & Hs & Hn & Hl & Hr & Hfr).
    apply Forall_cons in Hpre as [Hq Hpre].
    assert (Hlook : frames w1 !! c = Some f).
    { destruct q as [b'|b' c']; [by rewrite Hfr|].
      destruct Hfr as [r ->]. by rewrite list_lookup_insert_ne. }
    assert (Ht1 : linc_Loreline_thread (sched w1)
                  = Some (mkThread id (pre ++ Wrapped b c :: rest) stop)) by (by rewrite Hs).
    specialize (IH fuel w1 id stop b c rest f Ht1 Hlook Hc Hpre).
    destruct (await R fuel c w1) as [r w2|e w2|w2|w2|]; try done.
    + destruct IH as (Hr2 & Hf2 & Hs2 & Hn2 & Hl2).
      rewrite Hr2, Hr, Hs2, Hs, Hn2, Hn, Hl2, Hl. cbn. by rewrite <- app_assoc.
    + cbn. lia.
Qed.

Lemma worker_active_thread (s : Sched) :
  worker_active s = true ->
  linc_Loreline_useInternalThread s = true /\ exists t, linc_Loreline_thread s = Some t.
Proof.
  unfold worker_active. intros [H1 H2]%andb_true_iff.
  by apply bool_decide_eq_true in H2 as [t Ht]; eauto.
Qed.

(** C6: with no worker active a scheduled action runs at once on the
    calling thread, in either mode; with a worker active a fire-and-forget
    action is appended to the worker's queue and nothing runs, and a
    blocking action is appended wrapped with a completion frame, the
    caller being released only after the worker has run everything queued
    before it and then the action itself; enough worker turns release
    it. *)
Theorem scheduling_modes (b : Task) (tid : ThreadId) (w : World E) :
  (worker_active (sched w) = false ->
   linc_Loreline_schedule R b tid w = (_ <- run_task R b tid ;; ret tt) w /\
   (forall fuel, linc_Loreline_scheduleSync R fuel b tid w = run_task R b tid w) /\
   match run_task R b tid w with
   | Ok _ w' | Throw _ w' =>
       same_sched w w' /\ ran_tasks (trace w') = ran_tasks (trace w) ++ [(b, tid)]
   | Undefined => True
   | Terminate _ | Blocked _ => False
   end) /\
  (worker_active (sched w) = true ->
   exists t,
     linc_Loreline_thread (sched w) = Some t /\
     linc_Loreline_schedule R b tid w =
       Ok tt (set_thread (Some (mkThread (workerId t) (taskQueue t ++ [Async b]) (stopFlag t)))
                w) /\
     (frames_allocated w ->
      forall fuel,
        match linc_Loreline_scheduleSync R fuel b tid w with
        | Ok r w' =>
            ran_tasks (trace w') =
              ran_tasks (trace w) ++ on_worker (workerId t) (taskQueue t)
                ++ [(b, WorkerThread (workerId t))] /\
            frames w' !! length (frames w) = Some (mkFrame true r) /\
            linc_Loreline_thread (sched w') = Some (mkThread (workerId t) [] (stopFlag t))
        | Terminate _ | Undefined => True
        | Blocked _ => (fuel <= length (taskQueue t))%nat
        | Throw _ _ => False
        end)).
Proof.
  split.
  - intros Hact. unfold linc_Loreline_schedule, linc_Loreline_scheduleSync. rewrite Hact.
    split; [done|]. split; [done|]. apply run_task_spec.
  - intros Hact. destruct (worker_active_thread _ Hact) as [Hfl [t Ht]].
    exists t. split; [done|]. split.
    { unfold linc_Loreline_schedule, Thread_schedule, Thread_push. by rewrite Hact, Ht. }
    intros Hwf fuel. unfold linc_Loreline_scheduleSync. rewrite Hact.
    unfold Thread_scheduleSync, bind, Thread_push. cbn [sched set_frames]. rewrite Ht.
    set (c := length (frames w)).
    set (w1 := set_thread _ _).
    assert (Ht1 : linc_Loreline_thread (sched w1)
                  = Some (mkThread (workerId t) (taskQueue t ++ Wrapped b c :: []) (stopFlag t)))
      by done.
    assert (Hlook : frames w1 !! c = Some (mkFrame false RNone)).
    { unfold w1. cbn. by apply list_lookup_middle. }
    assert (Hpre : Forall (fun q => match q with
                                    | Wrapped _ c' => c' <> c
                                    | Async _ => True
                                    end) (taskQueue t)).
    { eapply Forall_impl; [exact (Hwf t Ht)|]. intros [b'|b' c']; [done|]. unfold c. lia. }
    pose proof (await_spec (taskQueue t) fuel w1 (workerId t) (stopFlag t) b c [] _
                  Ht1 Hlook eq_refl Hpre) as H.
    destruct (await R fuel c w1) as [r w2|e w2|w2|w2|]; try done.
    destruct H as (Hr & Hf & Hs & _). split; [exact Hr|]. split; [exact Hf|by rewrite Hs].
Qed.

End Worker.


(** *** The dispatch-out queue *)

Section DispatchOut.

Context {E : Type} (R : Runtime E).

Lemma delivered_app tr1 tr2 : delivered (tr1 ++ tr2) = delivered tr1 ++ delivered tr2.
Proof. apply omap_app. Qed.

(** A dispatch-out closure invoked on a thread is recorded once; the host
    handler it calls, if any, returns. *)
Lemma run_dispatch_spec d tid (w : World E) :
  match run_dispatch R d tid w with
  | Ok _ w' => delivered (trace w') = delivered (trace w) ++ [(d, tid)]
  | Undefined => True
  | Throw _ _ | Terminate _ | Blocked _ => False
  end.
Proof.
  unfold run_dispatch, bind, emit, on_heap, deref, call_host, ret.
  destruct d as [h ch tx tags n|h opts n|h]; cbn [heap trace set_trace set_heap];
    (destruct (interps _ !! h) as [i|]; [|done]).
  - destruct (dialogueHandler i); [destruct (host R _ tid _)|];
      cbn; rewrite ?delivered_app; cbn; by rewrite ?app_nil_r.
  - destruct (choiceHandler i); [destruct (host R _ tid _)|];
      cbn; rewrite ?delivered_app; cbn; by rewrite ?app_nil_r.
  - destruct (finishHandler i); [destruct (host R _ tid _)|];
      cbn; rewrite ?delivered_app; cbn; by rewrite ?app_nil_r.
Qed.

Lemma run_all_spec q tid : forall w : World E,
  match run_all R q tid w with
  | Ok _ w' => delivered (trace w') = delivered (trace w) ++ map (fun d => (d, tid)) q
  | Undefined => True
  | Throw _ _ | Terminate _ | Blocked _ => False
  end.
Proof.
  induction q as [|d q IH]; intros w; cbn [run_all].
  - cbn. by rewrite app_nil_r.
  - unfold bind. pose proof (run_dispatch_spec d tid w) as H.
    destruct (run_dispatch R d tid w) as [[] w1|e w1|w1|w1|]; try done.
    specialize (IH w1). destruct (run_all R q tid w1) as [[] w2|e w2|w2|w2|]; try done.
    rewrite IH, H. cbn. by rewrite <- app_assoc.
Qed.

(** C7: [flush] empties the queue before it runs anything and then
    invokes the saved callbacks, so that whatever the host handlers do
    meanwhile (adding to the queue included) the callbacks invoked by one
    flush are exactly those queued when it began, in the order they were
    added; [linc_Loreline_dispatchOut] without the worker flag invokes the
    callback at once and queues nothing, and with it only queues; between
    API calls the flag is set exactly when a worker is active. *)
Theorem flush_runs_snapshot_in_order (tid : ThreadId) (w : World E) :
  FunctionQueue_flush R tid w =
    run_all R (functionQueue (heap w)) tid (set_heap (set_functionQueue [] (heap w)) w) /\
  match FunctionQueue_flush R tid w with
  | Ok _ w' =>
      delivered (trace w') =
        delivered (trace w) ++ map (fun d => (d, tid)) (functionQueue (heap w))
  | Undefined => True
  | Throw _ _ | Terminate _ | Blocked _ => False
  end /\
  (forall d,
     linc_Loreline_useInternalThread (sched w) = false ->
     linc_Loreline_dispatchOut R d tid w = run_dispatch R d tid w /\
     match linc_Loreline_dispatchOut R d tid w with
     | Ok _ w' => delivered (trace w') = delivered (trace w) ++ [(d, tid)]
     | Undefined => True
     | Throw _ _ | Terminate _ | Blocked _ => False
     end) /\
  (forall d,
     linc_Loreline_useInternalThread (sched w) = true ->
     linc_Loreline_dispatchOut R d tid w =
       Ok tt (set_heap (set_functionQueue (functionQueue (heap w) ++ [d]) (heap w)) w)) /\
  (sched_inv w -> worker_active (sched w) = linc_Loreline_useInternalThread (sched w)).
Proof.
  assert (Heq : FunctionQueue_flush R tid w =
                run_all R (functionQueue (heap w)) tid
                  (set_heap (set_functionQueue [] (heap w)) w)).
  { unfold FunctionQueue_flush. destruct (functionQueue (heap w)) as [|d q] eqn:Hq; [|done].
    cbn. destruct w as [s hp fr sp lw tr]. destruct hp. cbn in *. by subst. }
  split; [exact Heq|]. split.
  - rewrite Heq.
    exact (run_all_spec (functionQueue (heap w)) tid
             (set_heap (set_functionQueue [] (heap w)) w)).
  - split; [|split].
    + intros d Hfl. unfold linc_Loreline_dispatchOut. rewrite Hfl. split; [done|].
      apply run_dispatch_spec.
    + intros d Hfl. unfold linc_Loreline_dispatchOut. by rewrite Hfl.
    + unfold sched_inv, worker_active.
      destruct (linc_Loreline_thread (sched w)); intros [-> _]; done.
Qed.

End DispatchOut.

(** *** Creation and disposal of the worker *)

Section Lifecycle.

Context {E : Type} (R : Runtime E).

Lemma sched_inv_active (w : World E) :
  sched_inv w -> worker_active (sched w) = false -> linc_Loreline_thread (sched w) = None.
Proof.
  unfold sched_inv, worker_active. destruct (linc_Loreline_thread (sched w)); [|done].
  intros [-> _]. cbn. done.
Qed.

(** C9 (as amended): [Loreline_createThread] called while the worker flag
    is set changes nothing, so calling it twice in a row is the same as
    calling it once; from the initial statics, and across creation and
    disposal, at most one worker thread is alive at any time; disposal
    joins the worker and clears the flag (after which a new call creates a
    new worker). *)
Theorem createThread_keeps_one_worker :
  (forall w : World E,
     linc_Loreline_useInternalThread (sched w) = true -> Loreline_createThread w = Ok tt w) /\
  (forall w w' : World E,
     Loreline_createThread w = Ok tt w' -> Loreline_createThread w' = Ok tt w') /\
  (forall e : E, sched_inv (initial_world e)) /\
  (forall w : World E, sched_inv w -> (length (liveWorkers w) <= 1)%nat) /\
  (forall w : World E,
     sched_inv w ->
     exists w', Loreline_createThread w = Ok tt w' /\ sched_inv w' /\
                worker_active (sched w') = true /\
                (linc_Loreline_useInternalThread (sched w) = false ->
                 spawned w' = S (spawned w) /\ liveWorkers w' = [spawned w])) /\
  (forall fuel tid (w w' : World E),
     sched_inv w -> Loreline_dispose R fuel tid w = Ok tt w' ->
     sched_inv w' /\ linc_Loreline_thread (sched w') = None /\
     liveWorkers w' = [] /\ spawned w' = spawned w).
Proof.
  split; [|split; [|split; [|split; [|split]]]].
  - intros w Hfl. unfold Loreline_createThread. by rewrite Hfl.
  - intros w w'. unfold Loreline_createThread.
    destruct (linc_Loreline_useInternalThread (sched w)) eqn:Hfl.
    + intros [= <-]. by rewrite Hfl.
    + by intros [= <-].
  - intros e. by split.
  - intros w. unfold sched_inv. destruct (linc_Loreline_thread (sched w));
      intros [_ ->]; simpl; lia.
  - intros w Hinv. unfold Loreline_createThread.
    destruct (linc_Loreline_useInternalThread (sched w)) eqn:Hfl.
    + exists w. split; [done|]. split; [exact Hinv|]. split; [|done].
      unfold worker_active, sched_inv in *. rewrite Hfl.
      destruct (linc_Loreline_thread (sched w)); [done|]. destruct Hinv; congruence.
    + eexists. split; [done|]. unfold sched_inv in *. cbn.
      destruct (linc_Loreline_thread (sched w)); [destruct Hinv; congruence|].
      destruct Hinv as [_ ->]. repeat split.
  - intros fuel tid w w' Hinv. unfold Loreline_dispose. unfold bind at 1.
    unfold linc_Loreline_schedule.
    destruct (worker_active (sched w)) eqn:Hact.
    + destruct (worker_active_thread _ Hact) as [Hfl [t Ht]].
      unfold Thread_schedule, Thread_push. rewrite Ht.
      cbn [sched set_thread set_sched linc_Loreline_thread]. unfold bind.
      set (w1 := set_thread _ w).
      pose proof (Thread_destructor_spec R fuel w1 _ eq_refl) as H.
      destruct (Thread_destructor R fuel w1) as [[] w2|e w2|w2|w2|]; try done.
      intros [= <-]. destruct H as (_ & Hs & Hl & Hn).
      unfold sched_inv in *. rewrite Ht in Hinv. destruct Hinv as [_ Hlw].
      cbn. rewrite Hl, Hn. cbn. rewrite Hlw.
      rewrite filter_cons_False by (intros Hne; by apply Hne). by rewrite filter_nil.
    + pose proof (sched_inv_active w Hinv Hact) as Hnone.
      pose proof (run_task_spec R TDispose tid w) as H. unfold bind.
      destruct (run_task R TDispose tid w) as [r w1|e w1|w1|w1|]; try done.
      destruct H as [(Hs & _ & Hn & Hl) _]. cbn [ret]. rewrite Hs, Hnone.
      intros [= <-]. unfold sched_inv in *. rewrite Hs, Hl, Hn.
      rewrite Hnone in *. by destruct Hinv.
Qed.

End Lifecycle.

(** *** Concrete runs *)

Section Runs.

Import Toy.



(** At the choice event of [w_choice], [select(-1)]. *)
Lemma select_forwards_any_index_witness :
  s_dispatchInterp (heap w_choice) = Some 2%positive /\
  exists hp',
    setPendingCallback 2 DNull (heap w_choice) = Some hp' /\
    linc_select toy (-1) main_thread w_choice =
      linc_Loreline_schedule toy (TSelect (DObject 7) (-1)) main_thread
        (set_heap hp' w_choice).
Proof.
  assert (Hd : s_dispatchInterp (heap w_choice) = Some 2%positive) by reflexivity.
  assert (Hi : interps (heap w_choice) !! 2%positive =
               Some (mkInterp (DObject 2) (DObject 7) (Some 10%positive)
                       (Some 11%positive) (Some 12%positive) None))
    by (vm_compute; reflexivity).
  split; [exact Hd|].
  destruct (select_forwards_any_index toy (-1) main_thread w_choice 2%positive _ Hd Hi eq_refl)
    as (hp' & Hs & _ & Hsel & _).
  exists hp'. split; [exact Hs|exact Hsel].
Defined.

(** C5 (as stated) fails: at a choice event with two options, [select(-1)]
    and [select(2)] are not rejected; each returns normally after the
    engine was entered with the continuation and the out-of-range index. *)
Lemma select_out_of_range_enters_engine :
  (exists options,
     last (delivered (trace w_choice)) = Some (DChoice 2 options 2, main_thread)) /\
  (exists w',
     linc_select toy (-1) main_thread w_choice = Ok tt w' /\
     last (engine_calls (trace w')) =
       Some (Callback_run (DObject 7) [DInt (-1)], main_thread) /\
     engineState (heap w') = S (engineState (heap w_choice))) /\
  (exists w',
     linc_select toy 2 main_thread w_choice = Ok tt w' /\
     last (engine_calls (trace w')) =
       Some (Callback_run (DObject 7) [DInt 2], main_thread) /\
     engineState (heap w') = S (engineState (heap w_choice))).
Proof.
  split; [eexists; vm_compute; reflexivity|].
  split; eexists; (split; [vm_compute; reflexivity|]);
    split; vm_compute; reflexivity.
Qed.

(** A malformed snapshot given to [Loreline_restore], and a session whose
    playback never started given to [Loreline_save]. *)
Lemma engine_exception_escapes_witness :
  worker_active (sched w_choice) = false /\
  on_haxe_thread main_thread w_choice /\
  (exists w', Loreline_restore toy (Some 2%positive) (Some "{"%string) main_thread w_choice
              = Throw (HxException (DString "Invalid JSON")) w') /\
  worker_active (sched w_unstarted) = false /\
  (exists w', Loreline_save toy 0 (Some 3%positive) main_thread w_unstarted
              = Throw (HxException (DString "Null Object Reference")) w').
Proof.
  assert (Hact : worker_active (sched w_choice) = false) by reflexivity.
  assert (Hth : on_haxe_thread main_thread w_choice) by (split; reflexivity).
  assert (Hi : interps (heap w_choice) !! 2%positive =
               Some (mkInterp (DObject 2) (DObject 7) (Some 10%positive)
                       (Some 11%positive) (Some 12%positive) None))
    by (vm_compute; reflexivity).
  assert (Hact' : worker_active (sched w_unstarted) = false) by reflexivity.
  assert (Hth' : on_haxe_thread main_thread w_unstarted) by (split; reflexivity).
  assert (Hi' : interps (heap w_unstarted) !! 3%positive =
               Some (mkInterp DNull DNull None None None None))
    by (vm_compute; reflexivity).
  split; [exact Hact|]. split; [exact Hth|]. split.
  - apply (proj1 (engine_exception_escapes_restore_and_save toy main_thread w_choice
                    2%positive _ Hact Hth Hi) "{"%string (DString "Invalid JSON")
                 (bump (heap w_choice))).
    reflexivity.
  - split; [exact Hact'|].
    apply (proj2 (engine_exception_escapes_restore_and_save toy main_thread w_unstarted
                    3%positive _ Hact' Hth' Hi') 0%nat (DString "Null Object Reference")
                 (bump (heap w_unstarted))).
    reflexivity.
Defined.

(** C4 (as stated) fails: [Loreline_start], [Loreline_save],
    [Loreline_restore] and [Loreline_getCharacterField] called with a null
    handle do not abort; they return normally and leave the world as it
    was. *)
Lemma null_handle_does_not_abort :
  Loreline_start toy None None main_thread w_started = Ok tt w_started /\
  Loreline_save toy 0 None main_thread w_started = Ok None w_started /\
  Loreline_restore toy None (Some "{}"%string) main_thread w_started = Ok tt w_started /\
  Loreline_getCharacterField toy 0 None (Some "barista"%string) (Some "name"%string)
    main_thread w_started = Ok null_val w_started.
Proof. repeat split. Qed.

(** The worker of [w_worker_busy] shut down with one collection queued. *)
Lemma shutdown_drains_queue_witness :
  linc_Loreline_thread (sched w_worker_busy) = Some (mkThread 0 [Async TGc] false) /\
  (length [Async TGc] < 2)%nat /\
  exists w',
    Thread_destructor toy 2 w_worker_busy = Ok tt w' /\
    ran_tasks (trace w') = [(TGc, WorkerThread 0)] /\
    liveWorkers w' = [].
Proof.
  assert (Ht : linc_Loreline_thread (sched w_worker_busy)
               = Some (mkThread 0 [Async TGc] false)) by reflexivity.
  split; [exact Ht|]. split; [simpl; lia|].
  destruct (Thread_destructor toy 2 w_worker_busy) as [[] w'|e w'|w'|w'|] eqn:Hd;
    try (vm_compute in Hd; discriminate).
  exists w'. split; [reflexivity|].
  destruct (proj1 (shutdown_drains_queue toy 2 w_worker_busy _ Ht) w' Hd) as (Hr & _ & Hl).
  split; [exact Hr|exact Hl].
Defined.

(** C3 (as stated) fails: a collection queued on the worker and not yet
    run when the worker is shut down is run by the shutdown, by the
    destructor alone and by [Loreline_dispose], which queues its own action
    behind it; the engine is entered for the collection. *)
Lemma queued_action_runs_at_shutdown :
  linc_Loreline_thread (sched w_worker_busy) = Some (mkThread 0 [Async TGc] false) /\
  ran_tasks (trace w_worker_busy) = [] /\
  (exists w',
     Thread_destructor toy 2 w_worker_busy = Ok tt w' /\
     ran_tasks (trace w') = [(TGc, WorkerThread 0)] /\
     engine_calls (trace w') = [(InternalCollect, WorkerThread 0)]) /\
  (exists w',
     Loreline_dispose toy 3 main_thread w_worker_busy = Ok tt w' /\
     ran_tasks (trace w') = [(TGc, WorkerThread 0); (TDispose, WorkerThread 0)] /\
     engine_calls (trace w') = [(InternalCollect, WorkerThread 0)] /\
     engineState (heap w') = 1%nat).
Proof.
  split; [reflexivity|]. split; [reflexivity|].
  split; eexists; (split; [vm_compute; reflexivity|]); repeat split.
Qed.

(** An action scheduled without a worker, and a blocking one scheduled
    behind the queued collection of [w_worker_busy]. *)
Lemma scheduling_modes_witness :
  (worker_active (sched w_started) = false /\
   linc_Loreline_scheduleSync toy 0 TGc main_thread w_started
     = run_task toy TGc main_thread w_started) /\
  (worker_active (sched w_worker_busy) = true /\ frames_allocated w_worker_busy /\
   exists r w',
     linc_Loreline_scheduleSync toy 2 TInit main_thread w_worker_busy = Ok r w' /\
     ran_tasks (trace w') = [(TGc, WorkerThread 0); (TInit, WorkerThread 0)]).
Proof.
  split.
  - assert (Hact : worker_active (sched w_started) = false) by reflexivity.
    split; [exact Hact|].
    exact (proj1 (proj2 (proj1 (scheduling_modes toy TGc main_thread w_started) Hact)) 0%nat).
  - assert (Hact : worker_active (sched w_worker_busy) = true) by reflexivity.
    assert (Hwf : frames_allocated w_worker_busy).
    { intros t [= <-]. repeat constructor. }
    split; [exact Hact|]. split; [exact Hwf|].
    destruct (proj2 (scheduling_modes toy TInit main_thread w_worker_busy) Hact)
      as (t & Ht & _ & Hsync).
    injection Ht as <-. specialize (Hsync Hwf 2%nat).
    destruct (linc_Loreline_scheduleSync toy 2 TInit main_thread w_worker_busy)
      as [r w'|e w'|w'|w'|] eqn:Hs; try (vm_compute in Hs; discriminate).
    exists r, w'. split; [reflexivity|]. exact (proj1 Hsync).
Defined.

(** One event dispatched out with and without the worker flag, and the
    poll of [w_deferred] under a host that queues an event meanwhile: the
    queued dialogue is delivered, the event added during the flush is
    not. *)
Lemma flush_runs_snapshot_in_order_witness :
  (linc_Loreline_useInternalThread (sched w_started) = false /\
   linc_Loreline_dispatchOut toy (DFinish 2) main_thread w_started
     = run_dispatch toy (DFinish 2) main_thread w_started) /\
  (linc_Loreline_useInternalThread (sched w_deferred) = true /\
   exists w',
     linc_Loreline_dispatchOut toy (DFinish 2) (WorkerThread 0) w_deferred = Ok tt w' /\
     functionQueue (heap w') = [DDialogue 2 None (Some "Hello"%string) None 0; DFinish 2] /\
     trace w' = trace w_deferred) /\
  (exists w',
     FunctionQueue_flush toy_requeue main_thread w_deferred = Ok tt w' /\
     delivered (trace w') = [(DDialogue 2 None (Some "Hello"%string) None 0, main_thread)] /\
     functionQueue (heap w') = [DFinish 2]).
Proof.
  split; [|split].
  - split; [reflexivity|].
    exact (proj1 (proj1 (proj2 (proj2 (flush_runs_snapshot_in_order toy main_thread w_started)))
                    (DFinish 2) eq_refl)).
  - split; [reflexivity|]. eexists. split.
    + exact (proj1 (proj2 (proj2 (proj2
               (flush_runs_snapshot_in_order toy (WorkerThread 0) w_deferred))))
               (DFinish 2) eq_refl).
    + split; reflexivity.
  - destruct (FunctionQueue_flush toy_requeue main_thread w_deferred)
      as [[] w'|e w'|w'|w'|] eqn:Hf; try (vm_compute in Hf; discriminate).
    exists w'. split; [reflexivity|].
    pose proof (proj1 (proj2 (flush_runs_snapshot_in_order toy_requeue main_thread w_deferred)))
      as H.
    vm_compute in Hf. injection Hf as <-. split; [exact H|reflexivity].
Defined.

(** From the initial statics: creation, a second creation, disposal. *)
Lemma createThread_keeps_one_worker_witness :
  sched_inv (initial_world 0%nat) /\
  linc_Loreline_useInternalThread (sched w_worker) = true /\
  Loreline_createThread (initial_world 0%nat) = Ok tt w_worker /\
  Loreline_createThread w_worker = Ok tt w_worker /\
  sched_inv w_worker_busy /\
  exists w',
    Loreline_dispose toy 3 main_thread w_worker_busy = Ok tt w' /\
    sched_inv w' /\ liveWorkers w' = [].
Proof.
  destruct (createThread_keeps_one_worker toy) as (H1 & H2 & H3 & _ & _ & H6).
  assert (Hc : Loreline_createThread (initial_world 0%nat) = Ok tt w_worker) by reflexivity.
  assert (Hinv : sched_inv w_worker_busy) by (split; reflexivity).
  split; [exact (H3 0%nat)|]. split; [reflexivity|]. split; [exact Hc|].
  split; [exact (H2 _ _ Hc)|]. split; [exact Hinv|].
  destruct (Loreline_dispose toy 3 main_thread w_worker_busy)
    as [[] w'|e w'|w'|w'|] eqn:Hd; try (vm_compute in Hd; discriminate).
  exists w'. split; [reflexivity|].
  destruct (H6 3%nat main_thread w_worker_busy w' Hinv Hd) as (Hi & _ & Hl & _).
  split; [exact Hi|exact Hl].
Defined.

(** C9 (as stated) fails: after [Loreline_dispose] a further
    [Loreline_createThread] is not a no-op; it starts a second worker
    thread. *)
Lemma createThread_after_dispose_creates_again :
  exists w1 w2 w3 : World nat,
    Loreline_createThread (initial_world 0%nat) = Ok tt w1 /\
    linc_Loreline_thread (sched w1) = Some (mkThread 0 [] false) /\
    Loreline_dispose toy 2 main_thread w1 = Ok tt w2 /\
    Loreline_createThread w2 = Ok tt w3 /\
    w3 <> w2 /\
    linc_Loreline_thread (sched w3) = Some (mkThread 1 [] false) /\
    spawned w3 = 2%nat.
Proof.
  eexists _, _, _.
  split; [reflexivity|]. split; [reflexivity|].
  split; [vm_compute; reflexivity|]. split; [vm_compute; reflexivity|].
  split; [|split; reflexivity].
  intros H. apply (f_equal spawned) in H. vm_compute in H. discriminate.
Qed.

End Runs.

(** *** Marshalling *)

Section Marshalling.

Lemma as_cstr_no_nul s :
  as_cstr s = s <-> Ascii.zero ∉ String.list_ascii_of_string s.
Proof.
  induction s as [|c s IH]; cbn.
  - split; [|done]. intros _. apply not_elem_of_nil.
  - case_bool_decide as Hc.
    + subst c. split; [done|]. intros H. exfalso. apply H. left.
    + rewrite not_elem_of_cons. split.
      * intros [= H]. split; [congruence|]. by apply IH.
      * intros [_ H]. f_equal. by apply IH.
Qed.

Lemma as_cstr_idemp s : as_cstr (as_cstr s) = as_cstr s.
Proof.
  induction s as [|c s IH]; cbn; [done|].
  case_bool_decide as Hc; cbn; [done|]. rewrite bool_decide_false by done. by rewrite IH.
Qed.

(** X1: a value converted to its Haxe form and back is the value again
    for the null value, integers and booleans; a string value comes back
    cut at its first NUL (unchanged when it holds none), and the null
    string comes back as the null value.  In the other direction
    booleans and integers survive, a string is cut at its first NUL, and
    every Haxe value that is no boolean, number or string becomes null.
    The values sent to the engine as null are exactly the null value and
    the null string.  (Floats are left aside: how hxcpp boxes a [double]
    is not part of the bridge.) *)
Theorem value_round_trip :
  (linc_hxToValue (linc_valueToHx null_val) = null_val /\
   (forall i, linc_hxToValue (linc_valueToHx (from_int i)) = from_int i) /\
   (forall b, linc_hxToValue (linc_valueToHx (from_bool b)) = from_bool b) /\
   (forall s, linc_hxToValue (linc_valueToHx (Loreline_StringValue (Some s))) =
                Loreline_StringValue (Some (as_cstr s))) /\
   linc_hxToValue (linc_valueToHx (from_string None)) = null_val) /\
  (forall d,
     match d with
     | DFloat _ => True
     | DBool _ | DInt _ => linc_valueToHx (linc_hxToValue d) = d
     | DString s => linc_valueToHx (linc_hxToValue d) = DString (as_cstr s)
     | _ => linc_valueToHx (linc_hxToValue d) = DNull
     end) /\
  (forall s, as_cstr s = s <-> Ascii.zero ∉ String.list_ascii_of_string s) /\
  (forall v, linc_valueToHx v = DNull <-> v = null_val \/ v = from_string None) /\
  (forall i f b s,
     linc_hxToValue (DInt i) = from_int i /\ linc_hxToValue (DFloat f) = from_float f /\
     linc_hxToValue (DBool b) = from_bool b /\
     linc_hxToValue (DString s) = from_string (Some (as_cstr s))).
Proof.
  split; [|split; [|split; [|split]]].
  - repeat split; try done. intros s. cbn. by rewrite as_cstr_idemp.
  - intros []; cbn; try done. by rewrite as_cstr_idemp.
  - apply as_cstr_no_nul.
  - intros [|?|?|?|[?|]]; cbn; (split; [try done|intros [H|H]; done]); auto.
  - done.
Qed.

Lemma buildTextTags_cons x l :
  linc_buildTextTags (DArray (x :: l)) =
    (Some (map (fun tag =>
                  mkTextTag (linc_hxToString (hx_string (hx_field tag "value")))
                            (hx_int (hx_field tag "offset"))
                            (hx_bool (hx_field tag "closing"))) (x :: l)),
     Z.of_nat (length (x :: l))).
Proof. reflexivity. Qed.


(** X2: [linc_buildTextTags] gives a null array with count 0 for a null or
    empty Haxe array, and otherwise an array of the same length, with that
    length as count, whose element [i] carries the offset and closing flag
    of the tag object [i] and its value cut at the first NUL (a null value
    stays null). *)
Theorem buildTextTags_shape :
  linc_buildTextTags DNull = (None, 0) /\
  linc_buildTextTags (DArray []) = (None, 0) /\
  (forall l,
     l <> [] ->
     exists tags,
       linc_buildTextTags (DArray l) = (Some tags, Z.of_nat (length l)) /\
       length tags = length l /\
       forall i fields value offset closing,
         l !! i = Some (DAnon fields) -> hx_tag fields value offset closing ->
         tags !! i = Some (mkTextTag (as_cstr <$> value) offset closing)) /\
  (forall l, array_count (linc_buildTextTags (DArray l)).1 (linc_buildTextTags (DArray l)).2).
Proof.
  split; [done|]. split; [done|]. split.
  - intros [|x l] Hne; [done|]. eexists. split; [apply buildTextTags_cons|].
    split; [by rewrite length_map|].
    intros i fields v o c Hi (Hv & Ho & Hc). rewrite list_lookup_fmap, Hi. cbn in *.
    rewrite Hv, Ho, Hc. by destruct v.
  - intros [|x l]; [done|]. rewrite buildTextTags_cons. cbn [fst snd array_count].
    split; [done|]. by rewrite length_map.
Qed.

Lemma buildChoiceOptions_cons x l :
  linc_buildChoiceOptions (DArray (x :: l)) =
    (Some (map (fun opt =>
                  let '(tags, tagCount) := linc_buildTextTags (hx_field opt "tags") in
                  mkChoiceOption (linc_hxToString (hx_string (hx_field opt "text")))
                                 tags tagCount
                                 (hx_bool (hx_field opt "enabled"))) (x :: l)),
     Z.of_nat (length (x :: l))).
Proof. reflexivity. Qed.

(** X3: [linc_buildChoiceOptions] gives a null array with count 0 for a
    null or empty Haxe array, and otherwise an array of the same length
    whose element [i] carries the enabled flag of option [i], its text cut
    at the first NUL, and its tags as built by [linc_buildTextTags]: a
    null tag array with count 0 when the option has none, else a non-empty
    one with its length. *)
Theorem buildChoiceOptions_shape :
  linc_buildChoiceOptions DNull = (None, 0) /\
  linc_buildChoiceOptions (DArray []) = (None, 0) /\
  (forall l,
     l <> [] ->
     exists options,
       linc_buildChoiceOptions (DArray l) = (Some options, Z.of_nat (length l)) /\
       length options = length l /\
       (forall i fields text enabled,
          l !! i = Some (DAnon fields) -> hx_option fields text enabled ->
          options !! i =
            Some (mkChoiceOption (as_cstr <$> text)
                    (linc_buildTextTags (assoc_field "tags" fields)).1
                    (linc_buildTextTags (assoc_field "tags" fields)).2 enabled)) /\
       (forall i fields tags o,
          l !! i = Some (DAnon fields) -> assoc_field "tags" fields = DArray tags ->
          options !! i = Some o -> array_count (opt_tags o) (opt_tagCount o)) /\
       (forall i fields o,
          l !! i = Some (DAnon fields) -> assoc_field "tags" fields = DNull ->
          options !! i = Some o -> opt_tags o = None /\ opt_tagCount o = 0)).
Proof.
  split; [done|]. split; [done|].
  intros [|x l] Hne; [done|]. eexists. split; [apply buildChoiceOptions_cons|].
  split; [by rewrite length_map|]. split; [|split].
  - intros i fields tx en Hi (Ht & He). rewrite list_lookup_fmap, Hi.
    cbn in *. rewrite Ht, He.
    destruct (linc_buildTextTags (assoc_field "tags" fields)). by destruct tx.
  - intros i fields tags o Hi Hg. rewrite list_lookup_fmap, Hi. cbn. rewrite Hg.
    intros [= <-]. destruct tags as [|y tags]; [done|]. rewrite buildTextTags_cons.
    cbn [opt_tags opt_tagCount array_count]. split; [done|]. by rewrite length_map.
  - intros i fields o Hi Hg. rewrite list_lookup_fmap, Hi. cbn. rewrite Hg.
    by intros [= <-].
Qed.

End Marshalling.

(** *** The thread check *)

Section ThreadCheck.

Context {E : Type} (R : Runtime E).

(** X4: the first call of [linc_Loreline_ensureHaxeThread] boots the
    runtime and binds the engine to the calling thread; from then on a
    call from that thread changes nothing and does not boot again, and a
    call from any other thread throws the runtime error and leaves the
    statics as they were: the binding is never changed. *)
Theorem ensureHaxeThread_binds_first_caller (tid : ThreadId) (w : World E) :
  boot_keeps_thread R ->
  (linc_Loreline_didCallHaxeMain (heap w) = false ->
   linc_Loreline_ensureHaxeThread R tid w =
     Ok tt (set_heap (hxRunLibrary R tid (set_haxeThread tid (heap w))) w) /\
   on_haxe_thread tid (set_heap (hxRunLibrary R tid (set_haxeThread tid (heap w))) w)) /\
  (forall t0,
     on_haxe_thread t0 w ->
     linc_Loreline_ensureHaxeThread R tid w =
       if decide (tid = t0) then Ok tt w else Throw wrong_thread w).
Proof.
  intros Hboot. split.
  - intros Hm. unfold linc_Loreline_ensureHaxeThread. rewrite Hm.
    pose proof (Hboot tid (set_haxeThread tid (heap w))) as Hb.
    unfold thread_statics in Hb. cbn in Hb. injection Hb as Hb1 Hb2.
    cbn [heap set_heap]. rewrite Hb2. rewrite decide_True by done.
    split; [done|]. split; cbn; done.
  - intros t0 [Hm Ht]. unfold linc_Loreline_ensureHaxeThread. rewrite Hm, Ht.
    destruct (decide (tid = t0)) as [->|Hne].
    + by rewrite decide_True.
    + rewrite decide_False; [done|]. intros [= ->]. done.
Qed.

Lemma ensure_wrong_thread tid t0 (w : World E) :
  on_haxe_thread t0 w -> tid <> t0 ->
  linc_Loreline_ensureHaxeThread R tid w = Throw wrong_thread w.
Proof.
  intros [Hm Ht] Hne. unfold linc_Loreline_ensureHaxeThread. rewrite Hm, Ht.
  rewrite decide_False; [done|]. intros [= ->]. done.
Qed.

Lemma run_task_wrong_thread b tid t0 (w : World E) :
  on_haxe_thread t0 w -> tid <> t0 ->
  run_task R b tid w = Throw wrong_thread (set_trace (trace w ++ [EvRan b tid]) w).
Proof.
  intros Hth Hne. unfold run_task, run_body, bind, emit.
  assert (Hth' : on_haxe_thread t0 (set_trace (trace w ++ [EvRan b tid]) w)) by exact Hth.
  by rewrite (ensure_wrong_thread tid t0 _ Hth' Hne).
Qed.


End ThreadCheck.

(** *** Script and session handles *)

Section Handles.

Context {E : Type} (R : Runtime E).

Lemma new_handle_fresh (hp : Heap E) :
  interps hp !! new_handle hp = None /\ scripts hp !! new_handle hp = None /\
  translations hp !! new_handle hp = None.
Proof.
  pose proof (is_fresh (dom (interps hp) ∪ dom (scripts hp) ∪ dom (translations hp))) as H.
  fold (new_handle hp) in H.
  repeat split; apply not_elem_of_dom; set_solver.
Qed.

(** [Loreline_parse] with no worker, on the engine's thread. *)
Lemma Loreline_parse_inline (fuel : nat) (input filePath : option string)
    (fh fhData : option positive) (tid : ThreadId) (w : World E) :
  worker_active (sched w) = false -> on_haxe_thread tid w ->
  let c := Loreline_obj_parse input filePath (parse_fileHandler fh fhData filePath) in
  let w1 := set_trace (trace w ++ [EvRan (TParse input filePath fh fhData) tid;
                                   EvEngine c tid]) w in
  Loreline_parse R fuel input filePath fh fhData tid w =
    match engine R c tid (sched w) (heap w) with
    | Throws e hp =>
        Ok None (set_trace (trace w1 ++ [EvStderr "Loreline_parse error" e]) (set_heap hp w1))
    | Returns v hp =>
        if IsNull v then Ok None (set_heap hp w1)
        else Ok (Some (new_Script v hp).1) (set_heap (new_Script v hp).2 w1)
    end.
Proof.
  intros Hact Hth c w1.
  assert (Hth' : forall tr, on_haxe_thread tid (set_trace tr w)) by (intros tr; exact Hth).
  unfold Loreline_parse, linc_Loreline_scheduleSync, bind at 1. rewrite Hact.
  unfold run_task, run_body, bind at 1, emit. unfold bind at 1.
  rewrite (ensure_on_thread R tid _ (Hth' _)).
  unfold try_catch, bind, call_engine, linc_toHxString. cbn [heap sched set_trace trace].
  fold (parse_fileHandler fh fhData filePath). fold c.
  destruct (engine R c tid (sched w) (heap w)) as [v hp|e hp].
  - destruct (IsNull v) eqn:Hv; cbn; rewrite <- app_assoc; [done|].
    unfold new_Script. by rewrite Hv.
  - cbn. by rewrite <- !app_assoc.
Qed.

(** X6: [Loreline_parse] with no worker, on the engine's thread, enters the
    engine once, with a file-handler closure only when both the handler and
    the file path are given.  When the engine throws, the call returns a
    null handle, prints the error and allocates nothing; when the engine
    returns null it returns a null handle; otherwise it returns a fresh
    script handle holding the engine's object, registered as a GC root,
    every other handle and root being left as the engine left them. *)
Theorem parse_returns_handle_or_null (fuel : nat) (input filePath : option string)
    (fh fhData : option positive) (tid : ThreadId) (w : World E) :
  worker_active (sched w) = false -> on_haxe_thread tid w ->
  let c := Loreline_obj_parse input filePath (parse_fileHandler fh fhData filePath) in
  let w1 := set_trace (trace w ++ [EvRan (TParse input filePath fh fhData) tid;
                                   EvEngine c tid]) w in
  match engine R c tid (sched w) (heap w) with
  | Throws e hp =>
      Loreline_parse R fuel input filePath fh fhData tid w =
        Ok None (set_trace (trace w1 ++ [EvStderr "Loreline_parse error" e]) (set_heap hp w1))
  | Returns v hp =>
      if IsNull v
      then Loreline_parse R fuel input filePath fh fhData tid w = Ok None (set_heap hp w1)
      else
        exists w',
          Loreline_parse R fuel input filePath fh fhData tid w = Ok (Some (new_handle hp)) w' /\
          scripts hp !! new_handle hp = None /\
          scripts (heap w') = <[new_handle hp := mkScript v]> (scripts hp) /\
          roots (heap w') = roots hp ∪ {[(new_handle hp, FObj)]} /\
          interps (heap w') = interps hp /\ translations (heap w') = translations hp /\
          trace w' = trace w1 /\ sched w' = sched w
  end.
Proof.
  intros Hact Hth c w1.
  rewrite (Loreline_parse_inline fuel input filePath fh fhData tid w Hact Hth).
  fold c w1. destruct (engine R c tid (sched w) (heap w)) as [v hp|e hp]; [|done].
  destruct (IsNull v) eqn:Hv; [done|].
  eexists. split; [reflexivity|]. split; [apply new_handle_fresh|].
  unfold new_Script. rewrite Hv. done.
Qed.

Lemma new_Interpreter_lookup d c f u (hp : Heap E) :
  interps (new_Interpreter d c f u hp).2 !! new_handle hp = Some (mkInterp DNull DNull d c f u) /\
  scripts (new_Interpreter d c f u hp).2 = scripts hp /\
  translations (new_Interpreter d c f u hp).2 = translations hp /\
  linc_Loreline_didCallHaxeMain (new_Interpreter d c f u hp).2 = linc_Loreline_didCallHaxeMain hp /\
  linc_Loreline_haxeThreadId (new_Interpreter d c f u hp).2 = linc_Loreline_haxeThreadId hp.
Proof. unfold new_Interpreter. cbn. by rewrite lookup_insert_eq. Qed.

(** X7: [Loreline_play] on a live script (no translations, no worker, on
    the engine's thread) allocates a fresh session handle and returns it
    whether or not the engine accepts to play: when the engine throws, the
    error is printed and the handle is returned all the same, not bound to
    any engine object by the bridge; when the engine returns, the handle is
    bound to the interpreter and rooted. *)
Theorem play_returns_handle_on_failure (sc : positive) (x : Loreline_Script)
    (onDialogue onChoice onFinish data : option positive) (beatName : option string)
    (tid : ThreadId) (w : World E) :
  worker_active (sched w) = false -> on_haxe_thread tid w ->
  scripts (heap w) !! sc = Some x ->
  let h := new_handle (heap w) in
  let hp1 := (new_Interpreter onDialogue onChoice onFinish data (heap w)).2 in
  let b := TPlay h (script_obj x) beatName DNull in
  let c := Loreline_obj_play (script_obj x) (DClosure (ClDialogue h)) (DClosure (ClChoice h))
             (DClosure (ClFinish h)) beatName DNull in
  let w1 := set_trace (trace w ++ [EvRan b tid; EvEngine c tid]) w in
  interps (heap w) !! h = None /\
  interps hp1 !! h = Some (mkInterp DNull DNull onDialogue onChoice onFinish data) /\
  match engine R c tid (sched w) hp1 with
  | Throws e hp' =>
      Loreline_play R (Some sc) onDialogue onChoice onFinish beatName None data tid w =
        Ok (Some h) (set_trace (trace w1 ++ [EvStderr "Loreline_play error" e])
                       (set_heap hp' w1))
  | Returns v hp' =>
      forall i, interps hp' !! h = Some i ->
        exists hp'',
          Interpreter_set h v hp' = Some hp'' /\
          interps hp'' !! h = Some (with_obj v i) /\
          (IsNull v = false -> (h, FObj) ∈ roots hp'') /\
          Loreline_play R (Some sc) onDialogue onChoice onFinish beatName None data tid w =
            Ok (Some h) (set_heap hp'' w1)
  end.
Proof.
  intros Hact Hth Hsc h hp1 b c w1.
  destruct (new_Interpreter_lookup onDialogue onChoice onFinish data (heap w))
    as (Hnew & Hscr & _ & Hm & Ht).
  fold hp1 in Hnew, Hscr, Hm, Ht. fold h in Hnew.
  split; [apply new_handle_fresh|]. split; [exact Hnew|].
  assert (Hth' : forall tr, on_haxe_thread tid (set_trace tr (set_heap hp1 w))).
  { intros tr. destruct Hth as [H1 H2]. split; cbn; congruence. }
  assert (Hp : Loreline_play R (Some sc) onDialogue onChoice onFinish beatName None data tid w =
               match engine R c tid (sched w) hp1 with
               | Throws e hp' =>
                   Ok (Some h) (set_trace (trace w1 ++ [EvStderr "Loreline_play error" e])
                                  (set_heap hp' w1))
               | Returns v hp' =>
                   match Interpreter_set h v hp' with
                   | Some hp'' => Ok (Some h) (set_heap hp'' w1)
                   | None => Undefined
                   end
               end).
  { unfold Loreline_play, bind at 1, alloc_Interpreter.
    change (new_Interpreter onDialogue onChoice onFinish data (heap w)) with (h, hp1).
    cbn iota. unfold bind at 1, script_obj_of. cbn [heap set_heap]. rewrite Hscr, Hsc.
    unfold bind at 1, translations_obj_of. unfold bind at 1, linc_Loreline_schedule.
    cbn [sched set_heap]. rewrite Hact. unfold linc_toHxString.
    unfold run_task, bind at 1. unfold bind at 1, emit. unfold run_body, bind at 1.
    rewrite (ensure_on_thread R tid _ (Hth' _)).
    cbn [IsNull]. unfold bind at 1. unfold ret at 1. unfold bind at 1.
    unfold try_catch, bind, call_engine, on_heap, emit, ret.
    cbn [heap sched set_trace set_heap trace]. fold b c.
    destruct (engine R c tid (sched w) hp1) as [v hp'|e hp'].
    - cbn [heap set_heap]. destruct (Interpreter_set h v hp'); [|done].
      cbn. by rewrite <- app_assoc.
    - cbn. by rewrite <- !app_assoc. }
  rewrite Hp. destruct (engine R c tid (sched w) hp1) as [v hp'|e hp']; [|done].
  intros i Hi. unfold Interpreter_set. rewrite Hi. eexists. split; [reflexivity|].
  split; [|split; [|reflexivity]].
  - destruct (IsNull v); cbn; by rewrite lookup_insert_eq.
  - intros ->. cbn. set_solver.
Qed.

(** X8: [Loreline_resume] parses the snapshot before its [try] block: when
    the JSON parser throws, the Haxe exception leaves [Loreline_resume]
    (with no worker), after the session handle was allocated; the handle
    is not returned to the caller. *)
Theorem resume_bad_snapshot_escapes (sc : positive) (x : Loreline_Script)
    (onDialogue onChoice onFinish data : option positive) (s : string)
    (beatName : option string) (tr : option positive) (tro : Dynamic)
    (tid : ThreadId) (w : World E) (e : Dynamic) (hp' : Heap E) :
  worker_active (sched w) = false -> on_haxe_thread tid w ->
  scripts (heap w) !! sc = Some x ->
  translations_arg tr (heap w) = Some tro ->
  let h := new_handle (heap w) in
  let hp1 := (new_Interpreter onDialogue onChoice onFinish data (heap w)).2 in
  engine R (Json_parse (Some s)) tid (sched w) hp1 = Throws e hp' ->
  interps (heap w) !! h = None /\
  interps hp1 !! h = Some (mkInterp DNull DNull onDialogue onChoice onFinish data) /\
  Loreline_resume R (Some sc) onDialogue onChoice onFinish (Some s) beatName tr data tid w =
    Throw (HxException e)
      (set_trace (trace w ++ [EvRan (TResume h (script_obj x) (Some s) beatName tro) tid;
                              EvEngine (Json_parse (Some s)) tid])
         (set_heap hp' w)).
Proof.
  intros Hact Hth Hsc Htr h hp1 He.
  destruct (new_Interpreter_lookup onDialogue onChoice onFinish data (heap w))
    as (Hnew & Hscr & Htrs & Hm & Ht).
  fold hp1 in Hnew, Hscr, Htrs, Hm, Ht. fold h in Hnew.
  split; [apply new_handle_fresh|]. split; [exact Hnew|].
  assert (Hth' : forall tr, on_haxe_thread tid (set_trace tr (set_heap hp1 w))).
  { intros tr'. destruct Hth as [H1 H2]. split; cbn; congruence. }
  unfold Loreline_resume, bind at 1, alloc_Interpreter.
  change (new_Interpreter onDialogue onChoice onFinish data (heap w)) with (h, hp1).
  cbn iota. unfold bind at 1, script_obj_of. cbn [heap set_heap]. rewrite Hscr, Hsc.
  unfold bind at 1, translations_obj_of. cbn [heap set_heap]. rewrite Htrs.
  assert (Hto : match tr with
                | Some t =>
                    match translations (heap w) !! t with
                    | Some x0 => Ok (translations_obj x0) (set_heap hp1 w)
                    | None => Undefined
                    end
                | None => Ok DNull (set_heap hp1 w)
                end = Ok tro (set_heap hp1 w)).
  { unfold translations_arg in Htr. destruct tr as [t|]; [|by injection Htr as <-].
    destruct (translations (heap w) !! t); [|done]. by injection Htr as <-. }
  rewrite Hto. unfold bind at 1, linc_Loreline_schedule.
  cbn [sched set_heap]. rewrite Hact. unfold linc_toHxString.
  unfold run_task, bind at 1. unfold bind at 1, emit. unfold run_body, bind at 1.
  rewrite (ensure_on_thread R tid _ (Hth' _)).
  unfold bind at 1, call_engine. cbn [heap sched set_trace set_heap trace].
  rewrite He. cbn. by rewrite <- app_assoc.
Qed.

Lemma delete_Interpreter_spec (h : positive) (hp : Heap E) (i : Loreline_Interpreter) :
  interps hp !! h = Some i ->
  exists hp',
    delete_Interpreter h hp = Some hp' /\
    interps hp' = delete h (interps hp) /\
    (IsNull (obj i) = false -> (h, FObj) ∉ roots hp') /\
    (IsNull (pendingCb i) = false -> (h, FPendingCb) ∉ roots hp') /\
    (forall slot, slot.1 <> h -> slot ∈ roots hp' <-> slot ∈ roots hp) /\
    roots hp' ⊆ roots hp /\
    scripts hp' = scripts hp /\ translations hp' = translations hp /\
    s_dispatchInterp hp' = s_dispatchInterp hp /\
    functionQueue hp' = functionQueue hp /\
    engineState hp' = engineState hp /\
    linc_Loreline_didCallHaxeMain hp' = linc_Loreline_didCallHaxeMain hp /\
    linc_Loreline_haxeThreadId hp' = linc_Loreline_haxeThreadId hp.
Proof.
  intros Hi. unfold delete_Interpreter. rewrite Hi. eexists. split; [reflexivity|].
  destruct (IsNull (pendingCb i)), (IsNull (obj i)); cbn;
    repeat split; try done; try set_solver.
Qed.

(** X9: [Loreline_releaseInterpreter] (no worker, on the engine's thread)
    removes the roots of the session, frees the handle without entering
    the engine, and leaves [s_dispatchInterp] and the dispatch-out queue as
    they were; the handle is dangling from then on: releasing it again,
    starting it, [advance()] or [select()] when it was the session last
    dispatched, and the delivery of an event still queued for it all
    dereference freed memory. *)
Theorem released_session_is_dangling (h : positive) (i : Loreline_Interpreter)
    (tid : ThreadId) (w : World E) :
  worker_active (sched w) = false -> on_haxe_thread tid w ->
  interps (heap w) !! h = Some i ->
  exists w',
    Loreline_releaseInterpreter R (Some h) tid w = Ok tt w' /\
    interps (heap w') = delete h (interps (heap w)) /\
    (IsNull (obj i) = false -> (h, FObj) ∉ roots (heap w')) /\
    (IsNull (pendingCb i) = false -> (h, FPendingCb) ∉ roots (heap w')) /\
    (forall slot, slot.1 <> h -> slot ∈ roots (heap w') <-> slot ∈ roots (heap w)) /\
    s_dispatchInterp (heap w') = s_dispatchInterp (heap w) /\
    functionQueue (heap w') = functionQueue (heap w) /\
    engine_calls (trace w') = engine_calls (trace w) /\
    Loreline_releaseInterpreter R (Some h) tid w' = Undefined /\
    (forall beatName, Loreline_start R (Some h) beatName tid w' = Undefined) /\
    (s_dispatchInterp (heap w) = Some h ->
     linc_advance R tid w' = Undefined /\ forall index, linc_select R index tid w' = Undefined) /\
    (forall tid' character text tags tagCount options optionCount,
       run_dispatch R (DDialogue h character text tags tagCount) tid' w' = Undefined /\
       run_dispatch R (DChoice h options optionCount) tid' w' = Undefined /\
       run_dispatch R (DFinish h) tid' w' = Undefined).
Proof.
  intros Hact Hth Hi.
  assert (Hth' : forall tr, on_haxe_thread tid (set_trace tr w)) by (intros tr; exact Hth).
  destruct (delete_Interpreter_spec h (heap w) i Hi)
    as (hp' & Hd & Hint & Ho & Hp & Hother & _ & _ & _ & Hdisp & Hq & _ & Hm & Ht).
  exists (set_heap hp' (set_trace (trace w ++ [EvRan (TReleaseInterpreter h) tid]) w)).
  split.
  { unfold Loreline_releaseInterpreter, linc_Loreline_schedule. rewrite Hact.
    unfold run_task, run_body, bind, emit. rewrite (ensure_on_thread R tid _ (Hth' _)).
    unfold on_heap. cbn [heap set_trace]. by rewrite Hd. }
  cbn [heap set_heap set_trace trace sched].
  split; [exact Hint|]. split; [exact Ho|]. split; [exact Hp|]. split; [exact Hother|].
  split; [exact Hdisp|]. split; [exact Hq|].
  split. { unfold engine_calls. rewrite omap_app. cbn. by rewrite app_nil_r. }
  set (w' := set_heap hp' _).
  assert (Hth2 : forall tr, on_haxe_thread tid (set_trace tr w')).
  { intros tr. destruct Hth as [H1 H2]. split; cbn; congruence. }
  assert (Hgone : interps (heap w') !! h = None).
  { cbn. rewrite Hint. apply lookup_delete_eq. }
  assert (Hact' : worker_active (sched w') = false) by exact Hact.
  split.
  { unfold Loreline_releaseInterpreter, linc_Loreline_schedule. rewrite Hact'.
    unfold run_task, run_body, bind, emit. rewrite (ensure_on_thread R tid _ (Hth2 _)).
    unfold on_heap, delete_Interpreter. cbn [heap set_trace]. by rewrite Hgone. }
  split.
  { intros beatName. unfold Loreline_start, linc_Loreline_schedule. rewrite Hact'.
    unfold run_task, run_body, bind, emit. rewrite (ensure_on_thread R tid _ (Hth2 _)).
    unfold deref. cbn [heap set_trace]. by rewrite Hgone. }
  split.
  { intros Hs. unfold linc_advance, linc_select.
    replace (s_dispatchInterp (heap w')) with (Some h) by (cbn; congruence).
    by rewrite Hgone. }
  intros tid' character text tags tagCount options optionCount.
  unfold run_dispatch, bind, emit, on_heap, deref.
  cbn [heap set_heap set_trace interps set_dispatchInterp].
  change (interps hp') with (interps (heap w')). by rewrite Hgone.
Qed.

Lemma new_delete_Script (v : Dynamic) (hp : Heap E) :
  roots_live hp ->
  delete_Script (new_Script v hp).1 (new_Script v hp).2 = Some hp.
Proof.
  intros Hlive.
  destruct (new_handle_fresh hp) as (Hi & Hs & Ht).
  assert (Hroot : (new_handle hp, FObj) ∉ roots hp).
  { intros Hin. apply Hlive in Hin. apply not_elem_of_dom in Hi, Hs, Ht. set_solver. }
  unfold new_Script, delete_Script. set (h := new_handle hp) in *. clearbody h.
  cbn [fst snd]. clear Hlive Hi Ht.
  destruct (IsNull v) eqn:Hv; cbn; rewrite lookup_insert_eq; cbn; rewrite Hv;
    destruct hp; cbn in *; f_equal; unfold set_scripts; cbn; f_equal.
  - by apply delete_insert_id.
  - by apply delete_insert_id.
  - apply leibniz_equiv. set_solver.
Qed.

(** X10: a script parsed and then released (no worker, on the engine's
    thread) leaves the handles and the GC roots exactly as the engine left
    them after the parse: the handle returned holds the engine's object
    and is rooted, and its release gives back the same heap, without
    entering the engine. *)
Theorem parse_release_round_trip (fuel : nat) (input filePath : option string)
    (fh fhData : option positive) (tid : ThreadId) (w : World E) (v : Dynamic) (hp : Heap E) :
  worker_active (sched w) = false -> on_haxe_thread tid w ->
  engine R (Loreline_obj_parse input filePath (parse_fileHandler fh fhData filePath))
    tid (sched w) (heap w) = Returns v hp ->
  IsNull v = false ->
  thread_statics hp = thread_statics (heap w) ->
  roots_live hp ->
  exists h w1 w2,
    Loreline_parse R fuel input filePath fh fhData tid w = Ok (Some h) w1 /\
    scripts (heap w1) !! h = Some (mkScript v) /\
    ((h, FObj) ∈ roots (heap w1)) /\
    Loreline_releaseScript R (Some h) tid w1 = Ok tt w2 /\
    heap w2 = hp /\ sched w2 = sched w /\
    engine_calls (trace w2) = engine_calls (trace w1).
Proof.
  intros Hact Hth He Hv Hst Hlive.
  pose proof (Loreline_parse_inline fuel input filePath fh fhData tid w Hact Hth) as Hp.
  cbn zeta in Hp. rewrite He, Hv in Hp.
  set (w1 := set_heap (new_Script v hp).2 _) in Hp.
  exists (new_Script v hp).1, w1. eexists. split; [exact Hp|].
  split. { unfold w1, new_Script. rewrite Hv. cbn. by rewrite lookup_insert_eq. }
  split. { unfold w1, new_Script. rewrite Hv. cbn. set_solver. }
  assert (Hth1 : forall tr, on_haxe_thread tid (set_trace tr w1)).
  { intros tr. destruct Hth as [H1 H2]. injection Hst as Hs1 Hs2.
    unfold w1, new_Script. rewrite Hv. split; cbn; congruence. }
  split.
  { unfold Loreline_releaseScript, linc_Loreline_schedule.
    replace (worker_active (sched w1)) with false by (symmetry; exact Hact).
    unfold run_task, run_body, bind, emit. rewrite (ensure_on_thread R tid _ (Hth1 _)).
    unfold on_heap. cbn [heap set_trace w1 set_heap].
    rewrite (new_delete_Script v hp Hlive). reflexivity. }
  cbn [heap set_heap sched set_trace trace]. split; [done|]. split; [done|].
  unfold engine_calls. rewrite omap_app. cbn. by rewrite app_nil_r.
Qed.

End Handles.

(** *** Events *)

Section Events.

Context {E : Type} (R : Runtime E).

(** X11: [linc_advance] acts on the session last dispatched, not on the
    session whose handler received it: after a dialogue of session [h1]
    and then a dialogue of session [h2] were delivered to handlers that
    keep [advance] for later, [advance()] takes the continuation of [h2]
    and schedules it, and the continuation of [h1] stays pending. *)
Theorem advance_targets_last_dispatched (h1 h2 : positive) (i1 i2 : Loreline_Interpreter)
    (fn1 fn2 : positive) (c1 t1 c2 t2 : option string)
    (tags1 tags2 : option (list Loreline_TextTag)) (n1 n2 : Z) (tid : ThreadId) (w : World E) :
  h1 <> h2 ->
  interps (heap w) !! h1 = Some i1 -> interps (heap w) !! h2 = Some i2 ->
  IsNull (pendingCb i1) = false -> IsNull (pendingCb i2) = false ->
  dialogueHandler i1 = Some fn1 -> dialogueHandler i2 = Some fn2 ->
  (forall x, host R (HDialogue fn1 h1 c1 t1 tags1 n1 (userData i1)) tid x = x) ->
  (forall x, host R (HDialogue fn2 h2 c2 t2 tags2 n2 (userData i2)) tid x = x) ->
  exists w2 hp',
    (run_dispatch R (DDialogue h1 c1 t1 tags1 n1) tid ;;
     run_dispatch R (DDialogue h2 c2 t2 tags2 n2) tid) w = Ok tt w2 /\
    host_calls (trace w2) =
      host_calls (trace w) ++ [(HDialogue fn1 h1 c1 t1 tags1 n1 (userData i1), tid);
                               (HDialogue fn2 h2 c2 t2 tags2 n2 (userData i2), tid)] /\
    s_dispatchInterp (heap w2) = Some h2 /\
    setPendingCallback h2 DNull (heap w2) = Some hp' /\
    linc_advance R tid w2 =
      linc_Loreline_schedule R (TAdvance (pendingCb i2)) tid (set_heap hp' w2) /\
    pending h1 hp' = [pendingCb i1] /\ pending h2 hp' = [] /\
    s_dispatchInterp hp' = Some h2.
Proof.
  intros Hne Hi1 Hi2 Hn1 Hn2 Hf1 Hf2 Hh1 Hh2.
  assert (Hrun : (run_dispatch R (DDialogue h1 c1 t1 tags1 n1) tid ;;
                  run_dispatch R (DDialogue h2 c2 t2 tags2 n2) tid) w =
                 Ok tt (set_trace
                          (trace w ++ [EvDelivered (DDialogue h1 c1 t1 tags1 n1) tid;
                                       EvHost (HDialogue fn1 h1 c1 t1 tags1 n1 (userData i1)) tid;
                                       EvDelivered (DDialogue h2 c2 t2 tags2 n2) tid;
                                       EvHost (HDialogue fn2 h2 c2 t2 tags2 n2 (userData i2)) tid])
                          (set_heap (set_dispatchInterp (Some h2) (heap w)) w))).
  { unfold run_dispatch, bind, emit, on_heap, deref, call_host.
    cbn [heap set_heap set_trace interps set_dispatchInterp trace sched].
    rewrite Hi1, Hf1, Hh1. cbn [heap set_heap set_trace interps set_dispatchInterp trace sched
                                 set_sched].
    rewrite Hi2, Hf2, Hh2. cbn. rewrite <- !app_assoc. cbn.
    destruct w as [s hp fr sp lw tr]; destruct hp; reflexivity. }
  set (w2 := set_trace _ _) in Hrun.
  assert (Hi2' : interps (heap w2) !! h2 = Some i2) by exact Hi2.
  destruct (setPendingCallback_spec h2 DNull (heap w2) i2 Hi2')
    as (hp' & Hs & Hint & Hp & _ & _ & Hdisp & _).
  exists w2, hp'. split; [exact Hrun|]. split.
  { unfold w2. cbn [trace set_trace]. unfold host_calls. rewrite omap_app. done. }
  split; [done|]. split; [exact Hs|]. split.
  { assert (Hd : s_dispatchInterp (heap w2) = Some h2) by reflexivity.
    unfold linc_advance. rewrite Hd, Hi2', Hn2. unfold bind, on_heap. by rewrite Hs. }
  split.
  { rewrite (pending_other h2 h1 (with_pendingCb DNull i2) (heap w2) hp' Hne Hint).
    unfold pending. change (interps (heap w2)) with (interps (heap w)).
    by rewrite Hi1, Hn1. }
  split; [exact Hp|]. by rewrite Hdisp.
Qed.


(** X12: with the worker flag set, a dialogue raised by the engine binds
    the session to its interpreter if it was not yet bound, stores the
    continuation, and queues the event with its marshalled arguments (the
    character and the text each cut at its first NUL, the tags as built by
    [linc_buildTextTags]): no handler runs and nothing is traced on the
    engine's thread.  The next [Loreline_update], on whatever thread
    polls, empties the queue, makes the session the dispatched one and
    calls its dialogue handler with those arguments and the session's user
    data. *)
Theorem event_on_worker_is_deferred (h : positive) (i : Loreline_Interpreter)
    (hxInterp : Dynamic) (character text : option string) (hxTags hxCallback : Dynamic)
    (tid : ThreadId) (w : World E) :
  linc_Loreline_useInternalThread (sched w) = true ->
  interps (heap w) !! h = Some i ->
  let i1 := if IsNull (obj i) && negb (IsNull hxInterp) then with_obj hxInterp i else i in
  let d := DDialogue h (as_cstr <$> character) (as_cstr <$> text)
             (linc_buildTextTags hxTags).1 (linc_buildTextTags hxTags).2 in
  exists w1,
    Closure_dialogue_run R h hxInterp (hx_of_string character) (hx_of_string text)
      hxTags hxCallback tid w = Ok tt w1 /\
    interps (heap w1) = <[h := with_pendingCb hxCallback i1]> (interps (heap w)) /\
    pending h (heap w1) = (if IsNull hxCallback then [] else [hxCallback]) /\
    functionQueue (heap w1) = functionQueue (heap w) ++ [d] /\
    trace w1 = trace w /\ sched w1 = sched w /\
    s_dispatchInterp (heap w1) = s_dispatchInterp (heap w) /\
    (functionQueue (heap w) = [] ->
     forall fn tid',
       dialogueHandler i = Some fn ->
       Loreline_update R false tid' w1 =
         call_host R (HDialogue fn h (as_cstr <$> character) (as_cstr <$> text)
                        (linc_buildTextTags hxTags).1
                        (linc_buildTextTags hxTags).2 (userData i)) tid'
           (set_trace (trace w ++ [EvDelivered d tid'])
              (set_heap (set_dispatchInterp (Some h) (set_functionQueue [] (heap w1))) w1))).
Proof.
  intros Hfl Hi i1 d.
  assert (Hens : exists hp0,
            linc_ensureInterpHandle h hxInterp w = Ok tt (set_heap hp0 w) /\
            interps hp0 = <[h := i1]> (interps (heap w)) /\
            functionQueue hp0 = functionQueue (heap w) /\
            s_dispatchInterp hp0 = s_dispatchInterp (heap w)).
  { unfold linc_ensureInterpHandle, bind, deref. rewrite Hi. unfold i1.
    destruct (IsNull (obj i) && negb (IsNull hxInterp)) eqn:Hc.
    - unfold on_heap, Interpreter_set. rewrite Hi. eexists. split; [reflexivity|].
      by destruct (IsNull hxInterp).
    - exists (heap w). split.
      + unfold ret. f_equal. by destruct w.
      + split; [|done]. by rewrite insert_id. }
  destruct Hens as (hp0 & Hens & Hint0 & Hq0 & Hd0).
  assert (Hi0 : interps hp0 !! h = Some i1) by (by rewrite Hint0, lookup_insert_eq).
  destruct (setPendingCallback_spec h hxCallback hp0 i1 Hi0)
    as (hp1 & Hs & Hint & Hp & _ & _ & Hdisp & Hq & _).
  exists (set_heap (set_functionQueue (functionQueue hp1 ++ [d]) hp1) w).
  assert (Hrun : Closure_dialogue_run R h hxInterp (hx_of_string character) (hx_of_string text)
                   hxTags hxCallback tid w =
                 Ok tt (set_heap (set_functionQueue (functionQueue hp1 ++ [d]) hp1) w)).
  { unfold Closure_dialogue_run, bind at 1. rewrite Hens.
    destruct (linc_buildTextTags hxTags) as [tags n] eqn:Ht.
    unfold bind, on_heap. cbn [heap set_heap]. rewrite Hs.
    unfold linc_Loreline_dispatchOut. cbn [sched set_heap]. rewrite Hfl.
    unfold FunctionQueue_add. cbn [heap set_heap]. unfold d, linc_hxToString.
    by destruct character, text. }
  split; [exact Hrun|]. cbn [heap set_heap trace sched set_functionQueue interps functionQueue
                             s_dispatchInterp].
  split; [by rewrite Hint, Hint0, insert_insert_eq|].
  split. { unfold pending. cbn. rewrite Hint, lookup_insert_eq. done. }
  split; [by rewrite Hq, Hq0|]. split; [done|]. split; [done|]. split; [congruence|].
  intros Hempty fn tid' Hfn.
  unfold Loreline_update, bind at 1, FunctionQueue_flush.
  cbn [heap set_heap functionQueue set_functionQueue]. rewrite Hq, Hq0, Hempty. cbn [app].
  cbn [run_all]. unfold run_dispatch at 1. unfold d at 2.
  unfold bind, emit, on_heap, deref. cbn [heap set_heap set_trace trace interps
    set_dispatchInterp set_functionQueue].
  rewrite Hint, lookup_insert_eq. cbn [dialogueHandler with_pendingCb userData].
  assert (Hfn1 : dialogueHandler i1 = Some fn).
  { unfold i1. by destruct (IsNull (obj i) && negb (IsNull hxInterp)). }
  assert (Hu1 : userData i1 = userData i).
  { unfold i1. by destruct (IsNull (obj i) && negb (IsNull hxInterp)). }
  rewrite Hfn1, Hu1. unfold call_host, ret.
  cbn [heap set_heap set_trace trace sched set_sched].
  by destruct (host R _ tid' _).
Qed.

End Events.

(** *** More on the worker *)

Section WorkerLoop.

Context {E : Type} (R : Runtime E).

(** X13: while [stopFlag] is down [threadLoop] never returns: it runs the
    queued tasks in FIFO order on the worker thread and then waits with
    an empty queue (or ends the process if a task throws). *)
Theorem worker_waits_until_stopped (fuel : nat) : forall (w : World E) id q,
  linc_Loreline_thread (sched w) = Some (mkThread id q false) ->
  match threadLoop R fuel w with
  | Ok _ _ | Throw _ _ => False
  | Blocked w' =>
      (length q < fuel)%nat ->
      ran_tasks (trace w') = ran_tasks (trace w) ++ on_worker id q /\
      sched w' = mkSched (linc_Loreline_useInternalThread (sched w))
                         (Some (mkThread id [] false)) /\
      liveWorkers w' = liveWorkers w
  | Terminate w' =>
      exists done_, ran_tasks (trace w') = ran_tasks (trace w) ++ on_worker id done_ /\
                    done_ `prefix_of` q /\ done_ <> []
  | Undefined => True
  end.
Proof.
  induction fuel as [|fuel IH]; intros w id q Ht; [simpl; lia|].
  cbn [threadLoop]. destruct q as [|x rest].
  - rewrite (threadLoop_iter_nil R w id false Ht). intros _. cbn.
    rewrite app_nil_r. repeat split. destruct (sched w) as [fl th]. cbn in *. by subst.
  - pose proof (threadLoop_iter_cons R w id x rest false Ht) as H.
    destruct (threadLoop_iter R w) as [st w1|e w1|w1|w1|]; try done.
    + destruct H as (-> & Hs & Hn & Hl & Hr & _).
      assert (Ht1 : linc_Loreline_thread (sched w1) = Some (mkThread id rest false))
        by (by rewrite Hs).
      specialize (IH w1 id rest Ht1).
      destruct (threadLoop R fuel w1) as [[] w2|e w2|w2|w2|]; try done.
      * destruct IH as (d & Hr2 & Hp & _). exists (x :: d).
        rewrite Hr2, Hr, <- app_assoc. split; [done|]. split; [|done].
        by apply prefix_cons.
      * intros Hlen. cbn in Hlen. destruct IH as (Hr2 & Hs2 & Hl2); [lia|].
        rewrite Hr2, Hr, Hs2, Hs, Hl2, Hl. cbn. by rewrite <- app_assoc.
    + exists [x]. split; [done|]. split; [|done]. by apply prefix_cons, prefix_nil.
Qed.

(** X14: a blocking call made while the worker is idle runs its body on
    the worker thread, not on the caller's; the caller gets the value the
    body left, through its completion frame.  An exception that leaves
    the body does not reach the caller: it ends the process. *)
Theorem sync_call_runs_on_worker (fuel : nat) (b : Task) (tid : ThreadId) (w : World E)
    (id : nat) (stop : bool) :
  linc_Loreline_useInternalThread (sched w) = true ->
  linc_Loreline_thread (sched w) = Some (mkThread id [] stop) ->
  let c := length (frames w) in
  let w0 := set_thread (Some (mkThread id [] stop))
              (set_frames (frames w ++ [mkFrame false RNone]) w) in
  linc_Loreline_scheduleSync R (S fuel) b tid w =
    match run_task R b (WorkerThread id) w0 with
    | Ok r w' => Ok r (set_frames (<[c := mkFrame true r]> (frames w')) w')
    | Throw _ w' | Terminate w' => Terminate w'
    | Blocked w' => Blocked w'
    | Undefined => Undefined
    end.
Proof.
  intros Hfl Ht c w0.
  assert (Hact : worker_active (sched w) = true).
  { unfold worker_active. rewrite Hfl, Ht. done. }
  unfold linc_Loreline_scheduleSync. rewrite Hact.
  unfold Thread_scheduleSync, bind, Thread_push. cbn [sched set_frames]. rewrite Ht.
  cbn [workerId taskQueue stopFlag app]. fold c.
  cbn [await]. cbn [frames set_thread set_sched set_frames].
  rewrite lookup_app_r by (unfold c; lia). replace (c - length (frames w))%nat with 0%nat by (unfold c; lia).
  cbn [lookup list_lookup completed]. 
  unfold threadLoop_iter. cbn [sched set_thread set_sched linc_Loreline_thread taskQueue
    workerId stopFlag]. unfold run_qtask, bind.
  match goal with |- context [run_task R b (WorkerThread id) ?x] => change x with w0 end.
  pose proof (run_task_spec R b (WorkerThread id) w0) as Hspec.
  destruct (run_task R b (WorkerThread id) w0) as [r w'|e w'|w'|w'|]; try done.
  destruct Hspec as [(Hs & Hf & _) _].
  unfold complete_frame.
  assert (Hlook : frames (set_frames (<[c := mkFrame true r]> (frames w')) w') !! c
                  = Some (mkFrame true r)).
  { cbn. apply list_lookup_insert_eq. rewrite Hf. unfold w0. cbn. rewrite length_app. cbn.
    unfold c. lia. }
  by rewrite (await_completed R fuel c _ _ Hlook eq_refl).
Qed.

End WorkerLoop.

(** *** The file handler bridge *)

Section FileHandler.

Context {E : Type} (R : Runtime E).

Lemma provide_calls_null contents tid (w : World E) :
  provide_calls R contents tid DNull w = (DNull, Ok tt w).
Proof. induction contents as [|c rest IH]; cbn; [done|]. exact IH. Qed.

(** X16: during one file request the host handler is given the path as a
    C string, and the engine's callback is run at most once: by the first
    call of [provide] the host handler makes, with the content given (null
    when the host passes a null pointer); further
    calls made by the handler do nothing, a handler that never calls leaves
    the request unanswered, and the static is null when the request ends,
    so that a call of [provide] made after the handler has returned does
    nothing either.  An exception of the callback goes through the
    handler. *)
Theorem file_provided_at_most_once (fh : string -> list (option string)) (path : string)
    (cb : Dynamic) (tid : ThreadId) (s0 : Dynamic) (w : World E) :
  IsNull cb = false ->
  Closure_fileHandler_run R fh path cb tid s0 w =
    match fh (as_cstr path) with
    | [] => (DNull, Ok tt w)
    | c :: _ =>
        (DNull,
         match engine R (Callback_run cb [hx_of_string c]) tid (sched w) (heap w) with
         | Returns _ hp =>
             Ok tt (set_heap hp (set_trace (trace w ++
                      [EvEngine (Callback_run cb [hx_of_string c]) tid]) w))
         | Throws e hp =>
             Throw (HxException e)
               (set_heap hp (set_trace (trace w ++
                  [EvEngine (Callback_run cb [hx_of_string c]) tid]) w))
         end)
    end /\
  (forall content w', linc_fileProvide R content tid DNull w' = (DNull, Ok tt w')).
Proof.
  intros Hcb. split; [|done].
  unfold Closure_fileHandler_run. destruct (fh (as_cstr path)) as [|c rest]; [done|].
  cbn [provide_calls]. unfold linc_fileProvide at 1. rewrite Hcb.
  unfold bind, call_engine, ret, linc_toHxString.
  destruct (engine R _ tid (sched w) (heap w)) as [v hp|e hp]; [|done].
  by rewrite provide_calls_null.
Qed.

End FileHandler.

(** *** Periodic collection *)

Section Update.

Context {E : Type} (R : Runtime E).

Lemma double_add_nan_r x : double_add x S754_nan = S754_nan.
Proof. by destruct x. Qed.

Lemma double_ge_nan y : double_ge S754_nan y = false.
Proof. by destruct y. Qed.

Lemma update_nan delta tid (w : World E) :
  Loreline_update_delta R delta tid S754_nan w = (S754_nan, FunctionQueue_flush R tid w).
Proof.
  unfold Loreline_update_delta. cbn [double_add SFadd]. rewrite double_ge_nan.
  by destruct (FunctionQueue_flush R tid w) as [[] w1|e w1|w1|w1|].
Qed.

(** X17: [Loreline_update] flushes the dispatch-out queue, adds [delta] to
    the accumulated time and, when the sum is at least 15.0, resets it to
    0.0 and schedules a collection.  A NaN [delta] makes the accumulated
    time a NaN, and from an accumulated NaN no later call, whatever its
    [delta], schedules a collection again: every later update is a flush
    and nothing else. *)
Theorem nan_delta_disables_periodic_gc (tid : ThreadId) (w : World E) :
  (forall acc delta,
     Loreline_update_delta R delta tid acc w =
       (match FunctionQueue_flush R tid w with
        | Ok _ _ => if double_ge (double_add acc delta) double_15 then double_0
                    else double_add acc delta
        | _ => acc
        end,
        Loreline_update R (double_ge (double_add acc delta) double_15) tid w)) /\
  (forall acc,
     Loreline_update_delta R S754_nan tid acc w =
       (match FunctionQueue_flush R tid w with Ok _ _ => S754_nan | _ => acc end,
        FunctionQueue_flush R tid w)) /\
  (forall deltas,
     updates R deltas tid S754_nan w = (S754_nan, flushes R (length deltas) tid w)).
Proof.
  split; [|split].
  - intros acc delta. unfold Loreline_update_delta, Loreline_update, bind. cbn zeta.
    destruct (FunctionQueue_flush R tid w) as [[] w1|e w1|w1|w1|]; try done.
    by destruct (double_ge _ _).
  - intros acc. unfold Loreline_update_delta. rewrite double_add_nan_r, double_ge_nan.
    by destruct (FunctionQueue_flush R tid w) as [[] w1|e w1|w1|w1|].
  - intros deltas. revert w. induction deltas as [|d rest IH]; intros w; [done|].
    cbn [updates flushes length]. rewrite update_nan. unfold bind.
    destruct (FunctionQueue_flush R tid w) as [[] w1|e w1|w1|w1|]; [apply IH|done..].
Qed.

End Update.

(** *** Disposal and the thread binding *)

Section Binding.

Context {E : Type} (R : Runtime E).

Hypothesis Hengine : engine_keeps_thread R.

Lemma keeps_thread_ret {A} (a : A) : keeps_thread (ret (E:=E) a).
Proof. by intros w. Qed.

Lemma keeps_thread_bind {A B} (m : M E A) (k : A -> M E B) :
  keeps_thread m -> (forall a, keeps_thread (k a)) -> keeps_thread (bind m k).
Proof.
  intros Hm Hk w. unfold bind. specialize (Hm w).
  destruct (m w) as [a w1|e w1|w1|w1|]; try done.
  specialize (Hk a w1). destruct (k a w1) as [b w2|e w2|w2|w2|]; try done; congruence.
Qed.

Lemma keeps_thread_try_catch {A} (m : M E A) (handler : Dynamic -> M E A) :
  keeps_thread m -> (forall e, keeps_thread (handler e)) -> keeps_thread (try_catch m handler).
Proof.
  intros Hm Hh w. unfold try_catch. specialize (Hm w).
  destruct (m w) as [a w1|e w1|w1|w1|]; try done.
  destruct e as [e|msg]; [|done].
  specialize (Hh e w1). destruct (handler e w1) as [b w2|e' w2|w2|w2|]; try done; congruence.
Qed.

Lemma keeps_thread_emit ev : keeps_thread (emit (E:=E) ev).
Proof. by intros w. Qed.

Lemma keeps_thread_call_engine c tid : keeps_thread (call_engine R c tid).
Proof.
  intros w. unfold call_engine. pose proof (Hengine c tid (sched w) (heap w)) as H.
  by destruct (engine R c tid (sched w) (heap w)).
Qed.

Lemma keeps_thread_deref h : keeps_thread (deref (E:=E) h).
Proof. intros w. unfold deref. by destruct (interps (heap w) !! h). Qed.

Lemma keeps_thread_script_obj_of sc : keeps_thread (script_obj_of (E:=E) sc).
Proof. intros w. unfold script_obj_of. by destruct (scripts (heap w) !! sc). Qed.

Lemma keeps_thread_on_heap (f : Heap E -> option (Heap E)) :
  (forall hp hp', f hp = Some hp' -> thread_statics hp' = thread_statics hp) ->
  keeps_thread (on_heap f).
Proof.
  intros Hf w. unfold on_heap. destruct (f (heap w)) as [hp'|] eqn:H; [|done].
  cbn. by apply Hf.
Qed.

Lemma Interpreter_set_thread h o (hp hp' : Heap E) :
  Interpreter_set h o hp = Some hp' -> thread_statics hp' = thread_statics hp.
Proof.
  unfold Interpreter_set. destruct (interps hp !! h); [|done]. intros [= <-].
  by destruct (IsNull o).
Qed.

Lemma delete_Interpreter_thread h (hp hp' : Heap E) :
  delete_Interpreter h hp = Some hp' -> thread_statics hp' = thread_statics hp.
Proof.
  unfold delete_Interpreter. destruct (interps hp !! h) as [i|]; [|done]. intros [= <-].
  by destruct (IsNull (pendingCb i)), (IsNull (obj i)).
Qed.

Lemma delete_Script_thread h (hp hp' : Heap E) :
  delete_Script h hp = Some hp' -> thread_statics hp' = thread_statics hp.
Proof.
  unfold delete_Script. destruct (scripts hp !! h) as [x|]; [|done]. intros [= <-].
  by destruct (IsNull (script_obj x)).
Qed.

Lemma delete_Translations_thread h (hp hp' : Heap E) :
  delete_Translations h hp = Some hp' -> thread_statics hp' = thread_statics hp.
Proof.
  unfold delete_Translations. destruct (translations hp !! h) as [x|]; [|done].
  intros [= <-]. by destruct (IsNull (translations_obj x)).
Qed.

Lemma keeps_thread_new_script (d : Dynamic) :
  keeps_thread (fun w : World E =>
                  let '(handle, hp) := new_Script d (heap w) in
                  Ok (RHandle (Some handle)) (set_heap hp w)).
Proof. intros w. unfold new_Script. by destruct (IsNull d). Qed.

Lemma keeps_thread_new_translations (d : Dynamic) :
  keeps_thread (fun w : World E =>
                  let '(handle, hp) := new_Translations d (heap w) in
                  Ok (RHandle (Some handle)) (set_heap hp w)).
Proof. intros w. unfold new_Translations. by destruct (IsNull d). Qed.

Lemma keeps_thread_ensure tid t0 (w : World E) :
  on_haxe_thread t0 w ->
  match linc_Loreline_ensureHaxeThread R tid w with
  | Ok _ w' | Throw _ w' => w' = w
  | _ => False
  end.
Proof.
  intros [Hm Ht]. unfold linc_Loreline_ensureHaxeThread. rewrite Hm.
  by destruct (decide _).
Qed.

(** Once the engine is bound, a body leaves the binding as it is, on
    whatever thread it runs. *)
Lemma run_body_keeps_thread b tid t0 (w : World E) :
  on_haxe_thread t0 w ->
  match run_body R b tid w with
  | Ok _ w' | Throw _ w' | Terminate w' | Blocked w' =>
      thread_statics (heap w') = thread_statics (heap w)
  | Undefined => True
  end.
Proof.
  intros Hth. unfold run_body. unfold bind at 1.
  pose proof (keeps_thread_ensure tid t0 w Hth) as He.
  destruct (linc_Loreline_ensureHaxeThread R tid w) as [[] w1|e w1|w1|w1|]; try done;
    subst w1; [|done].
  destruct b;
    match goal with |- match ?m w with _ => _ end => cut (keeps_thread m); [intros Hk; exact (Hk w)|] end;
    repeat first
      [ apply keeps_thread_ret
      | apply keeps_thread_call_engine
      | apply keeps_thread_deref
      | apply keeps_thread_script_obj_of
      | apply keeps_thread_new_script
      | apply keeps_thread_new_translations
      | apply keeps_thread_emit
      | apply keeps_thread_on_heap;
          first [ apply Interpreter_set_thread | apply delete_Interpreter_thread
                | apply delete_Script_thread | apply delete_Translations_thread ]
      | apply keeps_thread_try_catch; [|intros ?]
      | apply keeps_thread_bind; [|intros ?]
      | match goal with |- keeps_thread (if ?c then _ else _) => destruct c end ].
Qed.

Lemma on_haxe_thread_statics t0 (w w' : World E) :
  thread_statics (heap w') = thread_statics (heap w) ->
  on_haxe_thread t0 w -> on_haxe_thread t0 w'.
Proof. intros [= H1 H2] [Hm Ht]. split; congruence. Qed.

Lemma threadLoop_iter_keeps_thread t0 (w : World E) :
  on_haxe_thread t0 w ->
  match threadLoop_iter R w with
  | Ok _ w' | Throw _ w' | Terminate w' | Blocked w' => on_haxe_thread t0 w'
  | Undefined => True
  end.
Proof.
  intros Hth. unfold threadLoop_iter.
  destruct (linc_Loreline_thread (sched w)) as [t|]; [|done].
  destruct (taskQueue t) as [|q rest]; [by destruct (stopFlag t)|].
  set (w0 := set_thread _ w).
  assert (Hth0 : on_haxe_thread t0 (set_trace (trace w0 ++ [EvRan (task_of q)
                                                 (WorkerThread (workerId t))]) w0))
    by exact Hth.
  pose proof (run_body_keeps_thread (task_of q) (WorkerThread (workerId t)) t0 _ Hth0) as Hb.
  destruct q as [b|b c]; unfold run_qtask, run_task, bind, emit; cbn [task_of] in Hb;
    destruct (run_body R b _ _) as [r w1|e w1|w1|w1|]; try done;
    by apply (on_haxe_thread_statics t0 _ _ Hb).
Qed.

Lemma threadLoop_keeps_thread t0 fuel : forall w : World E,
  on_haxe_thread t0 w ->
  match threadLoop R fuel w with
  | Ok _ w' | Throw _ w' | Terminate w' | Blocked w' => on_haxe_thread t0 w'
  | Undefined => True
  end.
Proof.
  induction fuel as [|fuel IH]; intros w Hth; [done|]. cbn [threadLoop].
  pose proof (threadLoop_iter_keeps_thread t0 w Hth) as Hi.
  destruct (threadLoop_iter R w) as [[] w1|e w1|w1|w1|]; try done.
  by apply IH.
Qed.

(** X18: the runtime stays alive across [Loreline_dispose], bound to the
    thread id it was booted under: after a disposal that returned, no
    worker is active and the id bound is the same, so that a call
    scheduled afterwards by a thread of another id throws the runtime
    error, and a call by a thread that shows the bound id passes the check
    and enters the engine on that thread.  Only ids are compared: when the
    runtime was booted by the worker, which the disposal has joined, a
    thread started later is refused unless it was given that id again. *)
Theorem dispose_leaves_engine_bound (fuel : nat) (tid t0 : ThreadId) (w w' : World E) :
  on_haxe_thread t0 w ->
  Loreline_dispose R fuel tid w = Ok tt w' ->
  on_haxe_thread t0 w' /\
  worker_active (sched w') = false /\
  (forall tid', tid' <> t0 ->
     (forall b, linc_Loreline_schedule R b tid' w' =
                  Throw wrong_thread (set_trace (trace w' ++ [EvRan b tid']) w')) /\
     (forall fuel' b, linc_Loreline_scheduleSync R fuel' b tid' w' =
                        Throw wrong_thread (set_trace (trace w' ++ [EvRan b tid']) w'))) /\
  linc_Loreline_ensureHaxeThread R t0 w' = Ok tt w' /\
  Loreline_gc R t0 w' =
    match engine R InternalCollect t0 (sched w') (heap w') with
    | Returns _ hp =>
        Ok tt (set_heap hp (set_trace (trace w' ++ [EvRan TGc t0; EvEngine InternalCollect t0]) w'))
    | Throws e hp =>
        Throw (HxException e)
          (set_heap hp (set_trace (trace w' ++ [EvRan TGc t0; EvEngine InternalCollect t0]) w'))
    end.
Proof.
  intros Hth Hd.
  assert (H : on_haxe_thread t0 w' /\ worker_active (sched w') = false).
  { revert Hd. unfold Loreline_dispose. unfold bind at 1.
    assert (Hs : match linc_Loreline_schedule R TDispose tid w with
                 | Ok _ w1 => on_haxe_thread t0 w1
                 | _ => True
                 end).
    { unfold linc_Loreline_schedule. destruct (worker_active (sched w)).
      - unfold Thread_schedule, Thread_push.
        by destruct (linc_Loreline_thread (sched w)).
      - unfold run_task, bind, emit, ret.
        assert (Hth0 : on_haxe_thread t0 (set_trace (trace w ++ [EvRan TDispose tid]) w))
          by exact Hth.
        pose proof (run_body_keeps_thread TDispose tid t0 _ Hth0) as Hb.
        destruct (run_body R TDispose tid _) as [r w1|e w1|w1|w1|]; try done.
        by apply (on_haxe_thread_statics t0 _ _ Hb). }
    destruct (linc_Loreline_schedule R TDispose tid w) as [[] w1|e w1|w1|w1|]; try done.
    destruct (linc_Loreline_thread (sched w1)) as [t|] eqn:Ht.
    - unfold bind, Thread_destructor. rewrite Ht.
      set (w2 := set_thread _ w1).
      pose proof (threadLoop_keeps_thread t0 fuel w2 Hs) as Hl.
      destruct (threadLoop R fuel w2) as [[] w3|e w3|w3|w3|]; try done.
      intros [= <-]. split; [exact Hl|done].
    - intros [= <-]. split; [exact Hs|]. unfold worker_active. rewrite Ht.
      by destruct (linc_Loreline_useInternalThread (sched w1)). }
  destruct H as [Hth' Hact]. split; [exact Hth'|]. split; [exact Hact|].
  split; [|split].
  - intros tid' Hne. split.
    + intros b. unfold linc_Loreline_schedule. rewrite Hact. unfold bind.
      by rewrite (run_task_wrong_thread R b tid' t0 w' Hth' Hne).
    + intros fuel' b. unfold linc_Loreline_scheduleSync. rewrite Hact.
      apply (run_task_wrong_thread R b tid' t0 w' Hth' Hne).
  - by apply ensure_on_thread.
  - unfold Loreline_gc, linc_Loreline_schedule. rewrite Hact.
    unfold run_task, run_body, bind, emit.
    assert (Hth2 : on_haxe_thread t0 (set_trace (trace w' ++ [EvRan TGc t0]) w'))
      by exact Hth'.
    rewrite (ensure_on_thread R t0 _ Hth2). unfold call_engine, ret.
    cbn [heap sched set_trace trace].
    destruct (engine R InternalCollect t0 (sched w') (heap w')); cbn; by rewrite <- app_assoc.
Qed.

End Binding.

(** *** Calls without a handler *)

Section Unguarded.

Context {E : Type} (R : Runtime E).

(** X20: which null strings are checked.  [Loreline_restore] and
    [Loreline_resume] with a null snapshot, and the character accessors
    with a null character or field name, return at once, nothing being
    allocated or scheduled; [Loreline_parse] does not check its input: a
    null source text enters the engine as a null string. *)
Theorem null_strings_guarded_or_forwarded (fuel : nat) (tid : ThreadId) (w : World E) :
  (forall interp, Loreline_restore R interp None tid w = Ok tt w) /\
  (forall script onDialogue onChoice onFinish beatName tr data,
     Loreline_resume R script onDialogue onChoice onFinish None beatName tr data tid w
       = Ok None w) /\
  (forall interp character field,
     character = None \/ field = None ->
     Loreline_getCharacterField R fuel interp character field tid w = Ok null_val w) /\
  (forall interp character field value,
     character = None \/ field = None ->
     Loreline_setCharacterField R interp character field value tid w = Ok tt w) /\
  (worker_active (sched w) = false -> on_haxe_thread tid w ->
   forall filePath fh fhData,
     exists r w',
       Loreline_parse R fuel None filePath fh fhData tid w = Ok r w' /\
       engine_calls (trace w') =
         engine_calls (trace w) ++
           [(Loreline_obj_parse None filePath (parse_fileHandler fh fhData filePath), tid)]).
Proof.
  split; [by intros []|]. split; [by intros []|]. split; [|split].
  - intros [h|] character field [-> | ->]; try done; by destruct character.
  - intros [h|] character field value [-> | ->]; try done; by destruct character.
  - intros Hact Hth filePath fh fhData.
    rewrite (Loreline_parse_inline R fuel None filePath fh fhData tid w Hact Hth).
    destruct (engine R _ tid (sched w) (heap w)) as [v hp|e hp].
    + destruct (IsNull v); eexists _, _; (split; [reflexivity|]);
        cbn [trace set_heap set_trace]; unfold engine_calls; rewrite omap_app; done.
    + eexists _, _. split; [reflexivity|]. cbn [trace set_heap set_trace].
      unfold engine_calls. rewrite !omap_app. cbn. by rewrite app_nil_r.
Qed.

(** X19: [Loreline_start], [Loreline_getCharacterField],
    [Loreline_setCharacterField] and [Loreline_printScript] have no [try]
    block: on a live handle (no worker, on the engine's thread) each
    enters the engine once, with its arguments converted (a null beat name
    as null, the value by [linc_valueToHx], a string value cut at its
    first NUL), returns the engine's answer converted (the value by
    [linc_hxToValue], the printed script cut at its first NUL), and lets a
    Haxe exception of the engine leave the call. *)
Theorem unguarded_calls_let_exceptions_escape (fuel : nat) (tid : ThreadId) (w : World E) :
  worker_active (sched w) = false -> on_haxe_thread tid w ->
  let after c b := set_trace (trace w ++ [EvRan b tid; EvEngine c tid]) w in
  (forall h i beatName,
     interps (heap w) !! h = Some i ->
     let c := Interpreter_start (obj i) beatName in
     Loreline_start R (Some h) beatName tid w =
       match engine R c tid (sched w) (heap w) with
       | Returns _ hp => Ok tt (set_heap hp (after c (TStart h beatName)))
       | Throws e hp => Throw (HxException e) (set_heap hp (after c (TStart h beatName)))
       end) /\
  (forall h i character field,
     interps (heap w) !! h = Some i ->
     let c := Interpreter_getCharacterField (obj i) character field in
     Loreline_getCharacterField R fuel (Some h) (Some character) (Some field) tid w =
       match engine R c tid (sched w) (heap w) with
       | Returns v hp =>
           Ok (linc_hxToValue v) (set_heap hp (after c (TGetCharacterField h character field)))
       | Throws e hp =>
           Throw (HxException e) (set_heap hp (after c (TGetCharacterField h character field)))
       end) /\
  (forall h i character field value,
     interps (heap w) !! h = Some i ->
     let c := Interpreter_setCharacterField (obj i) character field (linc_valueToHx value) in
     Loreline_setCharacterField R (Some h) (Some character) (Some field) value tid w =
       match engine R c tid (sched w) (heap w) with
       | Returns _ hp =>
           Ok tt (set_heap hp (after c (TSetCharacterField h character field value)))
       | Throws e hp =>
           Throw (HxException e)
             (set_heap hp (after c (TSetCharacterField h character field value)))
       end) /\
  (forall sc x,
     scripts (heap w) !! sc = Some x ->
     let c := Loreline_obj_print (script_obj x) in
     match engine R c tid (sched w) (heap w) with
     | Returns v hp =>
         forall printed, v = hx_of_string printed ->
           Loreline_printScript R fuel (Some sc) tid w =
             Ok (as_cstr <$> printed) (set_heap hp (after c (TPrintScript sc)))
     | Throws e hp =>
         Loreline_printScript R fuel (Some sc) tid w =
           Throw (HxException e) (set_heap hp (after c (TPrintScript sc)))
     end).
Proof.
  intros Hact Hth after.
  assert (Hth' : forall tr, on_haxe_thread tid (set_trace tr w)) by (intros tr; exact Hth).
  split; [|split; [|split]].
  - intros h i beatName Hi c. unfold Loreline_start, linc_Loreline_schedule. rewrite Hact.
    unfold run_task, run_body, bind, emit, linc_toHxString.
    rewrite (ensure_on_thread R tid _ (Hth' _)).
    unfold deref. cbn [heap set_trace]. rewrite Hi. unfold call_engine, ret.
    cbn [heap sched set_trace trace]. fold c.
    destruct (engine R c tid (sched w) (heap w)); cbn; unfold after; by rewrite <- app_assoc.
  - intros h i character field Hi c. unfold Loreline_getCharacterField,
      linc_Loreline_scheduleSync. unfold bind at 1. rewrite Hact.
    unfold run_task, run_body, bind, emit.
    rewrite (ensure_on_thread R tid _ (Hth' _)).
    unfold deref. cbn [heap set_trace]. rewrite Hi. unfold call_engine, ret.
    cbn [heap sched set_trace trace]. fold c.
    destruct (engine R c tid (sched w) (heap w)); cbn; unfold after; by rewrite <- app_assoc.
  - intros h i character field value Hi c. unfold Loreline_setCharacterField,
      linc_Loreline_schedule. rewrite Hact.
    unfold run_task, run_body, bind, emit.
    rewrite (ensure_on_thread R tid _ (Hth' _)).
    unfold deref. cbn [heap set_trace]. rewrite Hi. unfold call_engine, ret.
    cbn [heap sched set_trace trace]. fold c.
    destruct (engine R c tid (sched w) (heap w)); cbn; unfold after; by rewrite <- app_assoc.
  - intros sc x Hx c.
    assert (Hp : Loreline_printScript R fuel (Some sc) tid w =
                 match engine R c tid (sched w) (heap w) with
                 | Returns v hp => Ok (linc_hxToString (hx_string v))
                                     (set_heap hp (after c (TPrintScript sc)))
                 | Throws e hp => Throw (HxException e) (set_heap hp (after c (TPrintScript sc)))
                 end).
    { unfold Loreline_printScript, linc_Loreline_scheduleSync. unfold bind at 1.
      rewrite Hact. unfold run_task, run_body, bind, emit.
      rewrite (ensure_on_thread R tid _ (Hth' _)).
      unfold script_obj_of. cbn [heap set_trace]. rewrite Hx. unfold call_engine, ret.
      cbn [heap sched set_trace trace]. fold c.
      destruct (engine R c tid (sched w) (heap w)); cbn; unfold after; by rewrite <- app_assoc. }
    destruct (engine R c tid (sched w) (heap w)) as [v hp|e hp] eqn:He; [|exact Hp].
    intros printed ->. rewrite Hp. by destruct printed.
Qed.

End Unguarded.

(** *** More concrete runs *)

Section MoreRuns.

Import Toy.

(** A tag array of two tags, the value of the second holding a NUL. *)
Lemma buildTextTags_shape_witness :
  exists tags,
    linc_buildTextTags
      (DArray [DAnon [("value"%string, DString "b"); ("offset"%string, DInt 3);
                      ("closing"%string, DBool false)];
               DAnon [("value"%string, DString (String "i" (String Ascii.zero "x")));
                      ("offset"%string, DInt 5); ("closing"%string, DBool true)]])
      = (Some tags, 2) /\
    tags !! 0%nat = Some (mkTextTag (Some "b"%string) 3 false) /\
    tags !! 1%nat = Some (mkTextTag (Some "i"%string) 5 true).
Proof.
  destruct (proj1 (proj2 (proj2 buildTextTags_shape))
              [DAnon [("value"%string, DString "b"); ("offset"%string, DInt 3);
                      ("closing"%string, DBool false)];
               DAnon [("value"%string, DString (String "i" (String Ascii.zero "x")));
                      ("offset"%string, DInt 5); ("closing"%string, DBool true)]])
    as (tags & Hb & _ & Hi); [done|].
  exists tags. split; [exact Hb|]. split.
  - apply (Hi 0%nat [("value"%string, DString "b"); ("offset"%string, DInt 3);
                     ("closing"%string, DBool false)] (Some "b"%string) 3 false);
      [reflexivity|]. repeat split.
  - apply (Hi 1%nat [("value"%string, DString (String "i" (String Ascii.zero "x")));
                     ("offset"%string, DInt 5); ("closing"%string, DBool true)]
             (Some (String "i" (String Ascii.zero "x"))) 5 true);
      [reflexivity|]. repeat split.
Defined.

(** The two options of [two_options], which carry no tags. *)
Lemma buildChoiceOptions_shape_witness :
  exists options,
    linc_buildChoiceOptions two_options = (Some options, 2) /\
    options !! 1%nat = Some (mkChoiceOption (Some "right"%string) None 0 true).
Proof.
  destruct (proj2 (proj2 buildChoiceOptions_shape)
              [DAnon [("text"%string, DString "left"); ("enabled"%string, DBool true)];
               DAnon [("text"%string, DString "right"); ("enabled"%string, DBool true)]])
    as (options & Hb & _ & Hi & _); [done|].
  exists options. split; [exact Hb|].
  apply (Hi 1%nat [("text"%string, DString "right"); ("enabled"%string, DBool true)]
           (Some "right"%string) true); [reflexivity|].
  repeat split.
Defined.

Lemma toy_boot_keeps_thread : boot_keeps_thread toy.
Proof. intros tid hp. reflexivity. Qed.

Lemma w_started_on_main : on_haxe_thread main_thread w_started.
Proof. split; reflexivity. Qed.

(** The first call, from the initial statics, and a later call from a
    second host thread. *)
Lemma ensureHaxeThread_binds_first_caller_witness :
  boot_keeps_thread toy /\
  on_haxe_thread main_thread
    (set_heap (set_haxeThread main_thread (heap (initial_world 0%nat))) (initial_world 0%nat)) /\
  on_haxe_thread main_thread w_started /\
  linc_Loreline_ensureHaxeThread toy other_thread w_started = Throw wrong_thread w_started.
Proof.
  split; [exact toy_boot_keeps_thread|]. split.
  - exact (proj2 (proj1 (ensureHaxeThread_binds_first_caller toy main_thread
                           (initial_world 0%nat) toy_boot_keeps_thread) eq_refl)).
  - split; [exact w_started_on_main|].
    exact (proj2 (ensureHaxeThread_binds_first_caller toy other_thread w_started
                    toy_boot_keeps_thread) main_thread w_started_on_main).
Defined.


(** A second script parsed in [w_started], and a parse the engine
    refuses. *)
Lemma parse_returns_handle_or_null_witness :
  worker_active (sched w_started) = false /\ on_haxe_thread main_thread w_started /\
  (exists w',
     Loreline_parse toy 0 (Some "more"%string) None None None main_thread w_started
       = Ok (Some 3%positive) w' /\
     scripts (heap w') !! 3%positive = Some (mkScript (DObject 1))) /\
  (exists w',
     Loreline_parse toy 0 None None None None main_thread w_started = Ok None w' /\
     last (trace w') = Some (EvStderr "Loreline_parse error" (DString "Parse error"))).
Proof.
  split; [reflexivity|]. split; [exact w_started_on_main|]. split.
  - destruct (parse_returns_handle_or_null toy 0 (Some "more"%string) None None None
                main_thread w_started eq_refl w_started_on_main)
      as (w' & Hp & _ & Hs & _).
    exists w'. split; [exact Hp|]. rewrite Hs. reflexivity.
  - eexists. split.
    + exact (parse_returns_handle_or_null toy 0 None None None None main_thread w_started
               eq_refl w_started_on_main).
    + reflexivity.
Defined.

Lemma w_started_script :
  scripts (heap w_started) !! 1%positive = Some (mkScript (DObject 1)).
Proof. vm_compute. reflexivity. Qed.

(** A playback the engine refuses to start. *)
Lemma play_returns_handle_on_failure_witness :
  worker_active (sched w_started) = false /\ on_haxe_thread main_thread w_started /\
  scripts (heap w_started) !! 1%positive = Some (mkScript (DObject 1)) /\
  exists w',
    Loreline_play toy_strict (Some 1%positive) None None None (Some "nowhere"%string) None None
      main_thread w_started = Ok (Some 3%positive) w' /\
    interps (heap w') !! 3%positive = Some (mkInterp DNull DNull None None None None) /\
    last (trace w') = Some (EvStderr "Loreline_play error" (DString "Beat not found")).
Proof.
  split; [reflexivity|]. split; [exact w_started_on_main|]. split; [exact w_started_script|].
  eexists. split.
  - exact (proj2 (proj2 (play_returns_handle_on_failure toy_strict 1%positive _ None None None
                           None (Some "nowhere"%string) main_thread w_started eq_refl
                           w_started_on_main w_started_script))).
  - split; vm_compute; reflexivity.
Defined.

(** A malformed snapshot given to [Loreline_resume]. *)
Lemma resume_bad_snapshot_escapes_witness :
  worker_active (sched w_started) = false /\ on_haxe_thread main_thread w_started /\
  exists w',
    Loreline_resume toy (Some 1%positive) None None None (Some "{"%string) None None None
      main_thread w_started = Throw (HxException (DString "Invalid JSON")) w' /\
    is_Some (interps (heap w') !! 3%positive).
Proof.
  split; [reflexivity|]. split; [exact w_started_on_main|].
  eexists. split.
  - exact (proj2 (proj2 (resume_bad_snapshot_escapes toy 1%positive _ None None None None
                           "{"%string None None DNull main_thread w_started
                           (DString "Invalid JSON") _ eq_refl w_started_on_main
                           w_started_script eq_refl eq_refl))).
  - vm_compute. eexists. reflexivity.
Defined.

Lemma w_choice_session :
  interps (heap w_choice) !! 2%positive =
    Some (mkInterp (DObject 2) (DObject 7) (Some 10%positive) (Some 11%positive)
            (Some 12%positive) None).
Proof. vm_compute. reflexivity. Qed.

(** The session of [w_choice] released while its choice is pending, and
    [select(0)] called afterwards. *)
Lemma released_session_is_dangling_witness :
  worker_active (sched w_choice) = false /\ on_haxe_thread main_thread w_choice /\
  s_dispatchInterp (heap w_choice) = Some 2%positive /\
  exists w',
    Loreline_releaseInterpreter toy (Some 2%positive) main_thread w_choice = Ok tt w' /\
    interps (heap w') !! 2%positive = None /\
    linc_select toy 0 main_thread w' = Undefined.
Proof.
  assert (Hth : on_haxe_thread main_thread w_choice) by (split; reflexivity).
  split; [reflexivity|]. split; [exact Hth|]. split; [reflexivity|].
  destruct (released_session_is_dangling toy 2%positive _ main_thread w_choice eq_refl Hth
              w_choice_session)
    as (w' & Hr & Hi & _ & _ & _ & _ & _ & _ & _ & _ & Hsel & _).
  exists w'. split; [exact Hr|]. split.
  - rewrite Hi. apply lookup_delete_eq.
  - exact (proj2 (Hsel eq_refl) 0).
Defined.

Lemma w_started_roots_live : roots_live (bump (heap w_started)).
Proof.
  intros h f Hin.
  assert (Hr : roots (bump (heap w_started)) = {[(1%positive, FObj); (2%positive, FObj)]})
    by (vm_compute; reflexivity).
  assert (Hi : dom (interps (bump (heap w_started))) = {[2%positive]})
    by (vm_compute; reflexivity).
  assert (Hs : dom (scripts (bump (heap w_started))) = {[1%positive]})
    by (vm_compute; reflexivity).
  rewrite Hr in Hin. rewrite Hi, Hs. set_solver.
Qed.

(** A second script parsed in [w_started] and released at once. *)
Lemma parse_release_round_trip_witness :
  roots_live (bump (heap w_started)) /\
  exists h w1 w2,
    Loreline_parse toy 0 (Some "more"%string) None None None main_thread w_started
      = Ok (Some h) w1 /\
    Loreline_releaseScript toy (Some h) main_thread w1 = Ok tt w2 /\
    heap w2 = bump (heap w_started).
Proof.
  split; [exact w_started_roots_live|].
  destruct (parse_release_round_trip toy 0 (Some "more"%string) None None None main_thread
              w_started (DObject 1) (bump (heap w_started)) eq_refl w_started_on_main
              eq_refl eq_refl eq_refl w_started_roots_live)
    as (h & w1 & w2 & Hp & _ & _ & Hr & Hh & _).
  exists h, w1, w2. split; [exact Hp|]. split; [exact Hr|exact Hh].
Defined.

Lemma w_two_sessions_2 :
  interps (heap w_two_sessions) !! 2%positive =
    Some (mkInterp (DObject 2) (DObject 7) (Some 10%positive) (Some 11%positive)
            (Some 12%positive) None).
Proof. vm_compute. reflexivity. Qed.

Lemma w_two_sessions_3 :
  interps (heap w_two_sessions) !! 3%positive =
    Some (mkInterp (DObject 2) (DObject 8) (Some 10%positive) (Some 11%positive)
            (Some 12%positive) None).
Proof. vm_compute. reflexivity. Qed.

(** The two sessions of [w_two_sessions], the dialogue of session 3
    delivered before the dialogue of session 2. *)
Lemma advance_targets_last_dispatched_witness :
  exists w2 hp',
    (run_dispatch toy (DDialogue 3 (Some "b"%string) (Some "Hi"%string) None 0) main_thread ;;
     run_dispatch toy (DDialogue 2 (Some "a"%string) (Some "Hello"%string) None 0) main_thread)
      w_two_sessions = Ok tt w2 /\
    linc_advance toy main_thread w2 =
      linc_Loreline_schedule toy (TAdvance (DObject 7)) main_thread (set_heap hp' w2) /\
    pending 3 hp' = [DObject 8] /\ pending 2 hp' = [].
Proof.
  destruct (advance_targets_last_dispatched toy 3%positive 2%positive _ _ 10%positive
              10%positive (Some "b"%string) (Some "Hi"%string) (Some "a"%string)
              (Some "Hello"%string) None None 0 0 main_thread w_two_sessions
              ltac:(discriminate) w_two_sessions_3 w_two_sessions_2 eq_refl eq_refl
              eq_refl eq_refl ltac:(reflexivity) ltac:(reflexivity))
    as (w2 & hp' & Hrun & _ & _ & _ & Hadv & Hp1 & Hp2 & _).
  exists w2, hp'. split; [exact Hrun|]. split; [exact Hadv|]. split; [exact Hp1|exact Hp2].
Defined.

Lemma w_worker_started_session :
  interps (heap w_worker_started) !! 2%positive =
    Some (mkInterp (DObject 2) DNull (Some 10%positive) (Some 11%positive)
            (Some 12%positive) None).
Proof. vm_compute. reflexivity. Qed.

(** A dialogue raised on the worker of [w_worker_started], and the poll
    that delivers it on the main thread. *)
Lemma event_on_worker_is_deferred_witness :
  linc_Loreline_useInternalThread (sched w_worker_started) = true /\
  exists w1 w2,
    Closure_dialogue_run toy 2 (DObject 2) DNull
      (DString (String "H" (String "i" (String Ascii.zero "!")))) DNull (DObject 8)
      (WorkerThread 0) w_worker_started = Ok tt w1 /\
    functionQueue (heap w1) = [DDialogue 2 None (Some "Hi"%string) None 0] /\
    host_calls (trace w1) = [] /\
    Loreline_update toy false main_thread w1 = Ok tt w2 /\
    host_calls (trace w2) =
      [(HDialogue 10 2 None (Some "Hi"%string) None 0 None, main_thread)].
Proof.
  split; [reflexivity|].
  destruct (event_on_worker_is_deferred toy 2%positive _ (DObject 2) None
              (Some (String "H" (String "i" (String Ascii.zero "!")))) DNull (DObject 8)
              (WorkerThread 0) w_worker_started
              eq_refl w_worker_started_session)
    as (w1 & Hrun & _ & _ & Hq & Htr & _ & _ & Hupd).
  exists w1. eexists. split; [exact Hrun|]. split; [exact Hq|].
  split; [rewrite Htr; reflexivity|]. split.
  - rewrite (Hupd eq_refl 10%positive main_thread eq_refl). reflexivity.
  - reflexivity.
Defined.

(** The worker of [w_worker_busy], not stopped, given two turns. *)
Lemma worker_waits_until_stopped_witness :
  linc_Loreline_thread (sched w_worker_busy) = Some (mkThread 0 [Async TGc] false) /\
  exists w',
    threadLoop toy 2 w_worker_busy = Blocked w' /\
    ran_tasks (trace w') = [(TGc, WorkerThread 0)] /\
    linc_Loreline_thread (sched w') = Some (mkThread 0 [] false).
Proof.
  split; [reflexivity|].
  pose proof (worker_waits_until_stopped toy 2 w_worker_busy 0%nat [Async TGc] eq_refl) as H.
  destruct (threadLoop toy 2 w_worker_busy) as [[] w'|e w'|w'|w'|] eqn:Hl;
    try (vm_compute in Hl; discriminate).
  exists w'. split; [reflexivity|].
  destruct H as (Hr & Hs & _); [simpl; lia|]. split; [exact Hr|]. rewrite Hs. reflexivity.
Defined.

(** [Loreline_init] called from the main thread with the idle worker of
    [w_worker]: the runtime is booted by the worker thread. *)
Lemma sync_call_runs_on_worker_witness :
  linc_Loreline_useInternalThread (sched w_worker) = true /\
  linc_Loreline_thread (sched w_worker) = Some (mkThread 0 [] false) /\
  exists w',
    linc_Loreline_scheduleSync toy 1 TInit main_thread w_worker = Ok RNone w' /\
    ran_tasks (trace w') = [(TInit, WorkerThread 0)] /\
    on_haxe_thread (WorkerThread 0) w'.
Proof.
  split; [reflexivity|]. split; [reflexivity|]. eexists. split.
  - rewrite (sync_call_runs_on_worker toy 0 TInit main_thread w_worker 0%nat false
               eq_refl eq_refl). reflexivity.
  - split; [reflexivity|]. split; reflexivity.
Defined.

(** A request answered twice by the host: the engine sees the first
    answer only. *)
Lemma file_provided_at_most_once_witness :
  exists w',
    Closure_fileHandler_run toy eager_handler "chars.lor" (DObject 5) main_thread DNull
      w_started = (DNull, Ok tt w') /\
    engine_calls (trace w') =
      engine_calls (trace w_started) ++
        [(Callback_run (DObject 5) [DString "chars.lor"], main_thread)].
Proof.
  eexists. split.
  - exact (proj1 (file_provided_at_most_once toy eager_handler "chars.lor" (DObject 5)
                    main_thread DNull w_started eq_refl)).
  - reflexivity.
Defined.

Lemma toy_engine_keeps_thread : engine_keeps_thread toy.
Proof.
  intros c tid s hp. unfold engine, toy, toy_engine. repeat case_match; simplify_eq; reflexivity.
Qed.

(** The runtime booted by the worker, then disposed of: a collection
    asked for afterwards by the main thread, which lived beside the worker
    and has another id, and one asked for by a thread that shows the id
    of the joined worker. *)
Lemma dispose_leaves_engine_bound_witness :
  engine_keeps_thread toy /\ on_haxe_thread (WorkerThread 0) w_worker_booted /\
  exists w',
    Loreline_dispose toy 2 main_thread w_worker_booted = Ok tt w' /\
    linc_Loreline_thread (sched w') = None /\
    Loreline_gc toy main_thread w' =
      Throw wrong_thread (set_trace (trace w' ++ [EvRan TGc main_thread]) w') /\
    exists w'',
      Loreline_gc toy (WorkerThread 0) w' = Ok tt w'' /\
      engine_calls (trace w'') =
        engine_calls (trace w') ++ [(InternalCollect, WorkerThread 0)].
Proof.
  assert (Hth : on_haxe_thread (WorkerThread 0) w_worker_booted) by (split; reflexivity).
  split; [exact toy_engine_keeps_thread|]. split; [exact Hth|].
  destruct (Loreline_dispose toy 2 main_thread w_worker_booted) as [[] w'|e w'|w'|w'|] eqn:Hd;
    try (vm_compute in Hd; discriminate).
  exists w'. split; [reflexivity|].
  destruct (dispose_leaves_engine_bound toy toy_engine_keeps_thread 2 main_thread
              (WorkerThread 0) w_worker_booted w' Hth Hd) as (_ & _ & Hcalls & _ & Hgc).
  split; [|split].
  - vm_compute in Hd. injection Hd as <-. reflexivity.
  - exact (proj1 (Hcalls main_thread ltac:(discriminate)) TGc).
  - eexists. split; [exact Hgc|].
    vm_compute in Hd. injection Hd as <-. reflexivity.
Defined.

Lemma w_started_session :
  interps (heap w_started) !! 2%positive =
    Some (mkInterp (DObject 2) DNull (Some 10%positive) (Some 11%positive)
            (Some 12%positive) None).
Proof. vm_compute. reflexivity. Qed.

(** The session of [w_started] asked to start at a beat the engine does
    not know. *)
Lemma unguarded_calls_let_exceptions_escape_witness :
  worker_active (sched w_started) = false /\ on_haxe_thread main_thread w_started /\
  exists w',
    Loreline_start toy_strict (Some 2%positive) (Some "nowhere"%string) main_thread w_started
      = Throw (HxException (DString "Beat not found")) w'.
Proof.
  split; [reflexivity|]. split; [exact w_started_on_main|]. eexists.
  exact (proj1 (unguarded_calls_let_exceptions_escape toy_strict 0 main_thread w_started
                  eq_refl w_started_on_main) 2%positive _ (Some "nowhere"%string)
               w_started_session).
Defined.

(** A null source text given to [Loreline_parse]. *)
Lemma null_strings_guarded_or_forwarded_witness :
  exists r w',
    Loreline_parse toy 0 None None None None main_thread w_started = Ok r w' /\
    last (engine_calls (trace w')) = Some (Loreline_obj_parse None None DNull, main_thread).
Proof.
  destruct (proj2 (proj2 (proj2 (proj2
              (null_strings_guarded_or_forwarded toy 0 main_thread w_started))))
              eq_refl w_started_on_main None None None) as (r & w' & Hp & Hc).
  exists r, w'. split; [exact Hp|]. rewrite Hc. reflexivity.
Defined.

End MoreRuns.

End BridgeFacts.

(** * Facts about the hosts *)

Module HostFacts.

Import Bridge Host.
#[local] Set Warnings "-clear-no-such-hyp".

Lemma onChoice_scan_some options : forall choice idx i j,
  onChoice_scan options choice idx i = Some j ->
  exists k o,
    j = i + Z.of_nat k /\ options !! k = Some o /\ opt_enabled o = true /\
    choice = idx + Z.of_nat (enabled_count (take k options)).
Proof.
  induction options as [|o rest IH]; intros choice idx i j H; [done|].
  cbn in H. destruct (opt_enabled o) eqn:Ho.
  - destruct (choice =? idx) eqn:Hc.
    + injection H as <-. exists 0%nat, o. cbn. split; [lia|]. split; [done|].
      split; [done|]. lia.
    + destruct (IH _ _ _ _ H) as (k & o' & -> & Hk & He & Hn).
      exists (S k), o'. cbn. rewrite Ho. split; [lia|]. split; [done|].
      split; [done|]. lia.
  - destruct (IH _ _ _ _ H) as (k & o' & -> & Hk & He & Hn).
    exists (S k), o'. cbn. rewrite Ho. split; [lia|]. split; [done|].
    split; [done|]. lia.
Qed.

Lemma onChoice_scan_none options : forall choice idx i,
  onChoice_scan options choice idx i = None <->
  (choice < idx \/ idx + Z.of_nat (enabled_count options) <= choice).
Proof.
  induction options as [|o rest IH]; intros choice idx i; cbn.
  - split; [lia|done].
  - destruct (opt_enabled o).
    + destruct (choice =? idx) eqn:Hc.
      * split; [done|]. lia.
      * rewrite IH. lia.
    + rewrite IH. lia.
Qed.

Lemma onChoice_eof_scan options : forall i idx,
  onChoice_eof options i = onChoice_scan options idx idx i.
Proof.
  induction options as [|o rest IH]; intros i idx; [done|]. cbn.
  destruct (opt_enabled o); [by rewrite Z.eqb_refl|].
  apply IH.
Qed.

(** X21 ([onChoice] of the sample): the index given to [select] for the
    number typed is that of an enabled option, the one displayed under this
    number; a number below 1 or above the count of enabled options selects
    nothing (the input is asked for again); at the end of the input the
    option selected is the one the number 1 selects. *)
Theorem sample_selects_enabled_option (options : list Loreline_ChoiceOption) (choice : Z) :
  (forall i,
     onChoice_pick options choice = Some i ->
     0 <= i < Z.of_nat (length options) /\
     exists o,
       options !! Z.to_nat i = Some o /\ opt_enabled o = true /\
       choice = 1 + Z.of_nat (enabled_count (take (Z.to_nat i) options))) /\
  (onChoice_pick options choice = None <->
   choice < 1 \/ Z.of_nat (enabled_count options) < choice) /\
  onChoice_eof options 0 = onChoice_pick options 1.
Proof.
  split; [|split].
  - intros i. unfold onChoice_pick. destruct (1 <=? choice); [|done]. intros H.
    destruct (onChoice_scan_some _ _ _ _ _ H) as (k & o & -> & Hk & He & Hn).
    rewrite Z.add_0_l, Nat2Z.id. split.
    + apply lookup_lt_Some in Hk. lia.
    + by exists o.
  - unfold onChoice_pick. destruct (1 <=? choice) eqn:Hc.
    + rewrite onChoice_scan_none. lia.
    + split; [lia|done].
  - unfold onChoice_pick. cbn. apply onChoice_eof_scan.
Qed.

Lemma startsWith_prefix s p : startsWith s p = true <-> exists r, s = p ++ r.
Proof.
  unfold startsWith, substr. rewrite drop_0. destruct (Nat.ltb_spec (length s) (length p)).
  - split; [done|]. intros [r ->]. rewrite length_app in *. lia.
  - rewrite bool_decide_eq_true. split.
    + intros Hp. exists (drop (length p) s). by rewrite <- Hp at 1; rewrite take_drop.
    + intros [r ->]. by rewrite take_app_length.
Qed.

Lemma endsWith_suffix s x : endsWith s x = true <-> exists l, s = l ++ x.
Proof.
  unfold endsWith, substr. destruct (Nat.ltb_spec (length s) (length x)).
  - split; [done|]. intros [l ->]. rewrite length_app in *. lia.
  - rewrite bool_decide_eq_true. split.
    + intros Hp. exists (take (length s - length x) s).
      rewrite take_ge in Hp by (rewrite length_drop; lia).
      pose proof (take_drop (length s - length x) s) as H2. by rewrite Hp in H2.
    + intros [l ->]. rewrite length_app.
      replace (length l + length x - length x)%nat with (length l) by lia.
      rewrite drop_app_length. apply take_ge. lia.
Qed.

(** X23 ([startsWith], [endsWith]): the two tests hold exactly of the texts
    that begin, respectively end, with the given one, also when it is the
    longer of the two or empty. *)
Theorem startsWith_endsWith_affix (s x : list ascii) :
  (startsWith s x = true <-> exists r, s = x ++ r) /\
  (endsWith s x = true <-> exists l, s = l ++ x).
Proof. split; [apply startsWith_prefix|apply endsWith_suffix]. Qed.

Lemma find_first_not_of_some s k :
  find_first_not_of s = Some k ->
  Forall (fun c => is_space c = true) (take k s) /\
  exists c, s !! k = Some c /\ is_space c = false.
Proof.
  revert k. induction s as [|c s IH]; intros k H; [done|]. cbn in H.
  destruct (is_space c) eqn:Hc.
  - destruct (find_first_not_of s) as [k'|]; [|done]. injection H as <-.
    destruct (IH k' eq_refl) as [Hall Hk]. cbn. split; [by constructor|exact Hk].
  - injection H as <-. cbn. split; [constructor|]. by exists c.
Qed.

Lemma find_first_not_of_none s :
  find_first_not_of s = None <-> Forall (fun c => is_space c = true) s.
Proof.
  induction s as [|c s IH]; cbn; [done|]. destruct (is_space c) eqn:Hc.
  - destruct (find_first_not_of s); cbn.
    + split; [done|]. intros H. apply Forall_cons in H as [_ H]. by apply IH in H.
    + split; [|done]. intros _. constructor; [done|]. by apply IH.
  - split; [done|]. intros H. apply Forall_cons in H as [H _]. congruence.
Qed.

Lemma find_last_not_of_some s k :
  find_last_not_of s = Some k ->
  Forall (fun c => is_space c = true) (drop (S k) s) /\
  exists c, s !! k = Some c /\ is_space c = false.
Proof.
  revert k. induction s as [|c s IH]; intros k H; [done|]. cbn in H.
  destruct (find_last_not_of s) as [k'|] eqn:Hl.
  - injection H as <-. destruct (IH k' eq_refl) as [Hall Hk]. by cbn.
  - destruct (is_space c) eqn:Hc; [done|]. injection H as <-. cbn. split.
    + rewrite drop_0. clear IH. revert Hl. induction s as [|d s IH]; [done|]. cbn.
      destruct (find_last_not_of s); [done|]. destruct (is_space d) eqn:Hd; [|done].
      intros _. constructor; [done|]. by apply IH.
    + by exists c.
Qed.

Lemma find_last_not_of_none s :
  find_last_not_of s = None <-> Forall (fun c => is_space c = true) s.
Proof.
  induction s as [|c s IH]; cbn; [done|].
  destruct (find_last_not_of s) as [k|].
  - split; [done|]. intros H. apply Forall_cons in H as [_ H]. by apply IH in H.
  - destruct (is_space c) eqn:Hc.
    + split; [|done]. intros _. constructor; [done|]. by apply IH.
    + split; [done|]. intros H. apply Forall_cons in H as [H _]. congruence.
Qed.

Lemma find_first_last s start :
  find_first_not_of s = Some start ->
  exists end_, find_last_not_of s = Some end_ /\ (start <= end_)%nat.
Proof.
  intros Hf. destruct (find_last_not_of s) as [e|] eqn:Hl.
  - exists e. split; [done|].
    destruct (find_first_not_of_some _ _ Hf) as [Hpre (c & Hc & Hs)].
    destruct (find_last_not_of_some _ _ Hl) as [Hpost _].
    destruct (decide (start <= e)%nat) as [|Hgt]; [done|]. exfalso.
    assert (Hin : drop (S e) s !! (start - S e)%nat = Some c).
    { rewrite lookup_drop. rewrite <- Hc. f_equal. lia. }
    rewrite Forall_lookup in Hpost. specialize (Hpost _ _ Hin). congruence.
  - apply find_last_not_of_none in Hl. apply find_first_not_of_none in Hl. congruence.
Qed.

(** X22 ([trim], [trimEnd]): [trim] removes a run of whitespace at each end
    and nothing else, what is left neither begins nor ends with whitespace,
    and it is empty exactly for a text of whitespace only; [trimEnd] does
    the same at the end alone. *)
Theorem trim_strips_whitespace (s : list ascii) :
  (exists l r,
     s = l ++ trim s ++ r /\
     Forall (fun c => is_space c = true) l /\ Forall (fun c => is_space c = true) r) /\
  (forall c, head (trim s) = Some c -> is_space c = false) /\
  (forall c, last (trim s) = Some c -> is_space c = false) /\
  (trim s = [] <-> Forall (fun c => is_space c = true) s) /\
  (exists r, s = trimEnd s ++ r /\ Forall (fun c => is_space c = true) r) /\
  (forall c, last (trimEnd s) = Some c -> is_space c = false).
Proof.
  assert (Htrim : forall start e, find_first_not_of s = Some start ->
            find_last_not_of s = Some e -> (start <= e)%nat ->
            s = take start s ++ substr s start (e - start + 1) ++ drop (S e) s).
  { intros start e _ _ Hle. unfold substr.
    rewrite <- (take_drop start s) at 1. f_equal.
    rewrite <- (take_drop (e - start + 1) (drop start s)) at 1. f_equal.
    rewrite drop_drop. f_equal. lia. }
  unfold trim, trimEnd.
  destruct (find_first_not_of s) as [start|] eqn:Hf.
  - destruct (find_first_last s start Hf) as (e & Hl & Hle). rewrite Hl.
    destruct (find_first_not_of_some _ _ Hf) as [Hpre (c1 & Hc1 & Hs1)].
    destruct (find_last_not_of_some _ _ Hl) as [Hpost (c2 & Hc2 & Hs2)].
    assert (He : (e < length s)%nat) by (by apply lookup_lt_Some in Hc2).
    split; [|split; [|split; [|split; [|split]]]].
    + exists (take start s), (drop (S e) s). split; [by apply Htrim|done].
    + intros c. unfold substr. rewrite head_lookup, lookup_take_lt by lia.
      rewrite lookup_drop. replace (start + 0)%nat with start by lia. rewrite Hc1. by intros [= <-].
    + intros c. unfold substr. rewrite last_lookup.
      rewrite length_take, length_drop.
      replace (Init.Nat.pred ((e - start + 1) `min` (length s - start)))%nat
        with (e - start)%nat by lia.
      rewrite lookup_take_lt by lia. rewrite lookup_drop.
      replace (start + (e - start))%nat with e by lia. rewrite Hc2. by intros [= <-].
    + split.
      * intros Hnil. exfalso. apply (f_equal length) in Hnil. unfold substr in Hnil.
        rewrite length_take, length_drop in Hnil. cbn in Hnil. lia.
      * intros Hall. apply find_first_not_of_none in Hall. congruence.
    + exists (drop (S e) s). split; [|done]. unfold substr. rewrite drop_0.
      replace (e + 1)%nat with (S e) by lia. by rewrite take_drop.
    + intros c. unfold substr. rewrite drop_0, last_lookup, length_take.
      replace (Init.Nat.pred ((e + 1) `min` length s))%nat with e by lia.
      rewrite lookup_take_lt by lia. rewrite Hc2. by intros [= <-].
  - pose proof (proj1 (find_first_not_of_none s) Hf) as Hall.
    rewrite (proj2 (find_last_not_of_none s) Hall).
    split; [|split; [|split; [|split; [|split]]]]; try done.
    + exists s, []. by rewrite app_nil_r.
    + exists s. done.
Qed.

Lemma splitLines_from_no_LF s line :
  LF ∉ line -> Forall (fun l => LF ∉ l) (splitLines_from s line).
Proof.
  revert line. induction s as [|c s IH]; intros line Hl; cbn.
  - destruct line; [constructor|]. by constructor.
  - case_bool_decide as Hc.
    + constructor; [done|]. apply IH. set_solver.
    + apply IH. set_solver.
Qed.

Lemma splitLines_from_unlines s line :
  unlines (splitLines_from s line) =
    match last s with
    | Some c => if bool_decide (c = LF) then line ++ s else line ++ s ++ [LF]
    | None => match line with [] => [] | _ => line ++ [LF] end
    end.
Proof.
  unfold unlines. revert line. induction s as [|c s IH]; intros line; cbn.
  - destruct line; cbn; [done|]. by rewrite app_nil_r.
  - case_bool_decide as Hc.
    + subst c. cbn. rewrite IH. cbn.
      destruct s as [|d s]; cbn.
      { rewrite bool_decide_true by done. by rewrite app_nil_r. }
      destruct (last (d :: s)) eqn:Hl; [|by apply last_None in Hl].
      case_bool_decide; by rewrite <- app_assoc.
    + rewrite IH. destruct s as [|d s]; cbn.
      * rewrite bool_decide_false by done. destruct line; cbn; by rewrite <- ?app_assoc.
      * destruct (last (d :: s)) eqn:Hl; [|by apply last_None in Hl].
        case_bool_decide; by rewrite <- app_assoc.
Qed.

Lemma splitLines_from_app l line rest :
  LF ∉ l -> splitLines_from (l ++ LF :: rest) line = (line ++ l) :: splitLines_from rest [].
Proof.
  revert line. induction l as [|c l IH]; intros line Hl; cbn.
  - rewrite bool_decide_true by done. by rewrite app_nil_r.
  - rewrite bool_decide_false by set_solver. rewrite IH by set_solver.
    by rewrite <- app_assoc.
Qed.

(** X24 ([splitLines]): the lines of a text hold no newline and, each
    followed by a newline, give the text back (with a final newline added
    when a non-empty text had none); conversely newline-free lines written
    one after the other are read back as they were. *)
Theorem splitLines_round_trip :
  (forall s, Forall (fun l => LF ∉ l) (splitLines s) /\
             unlines (splitLines s) = terminated s) /\
  (forall lines, Forall (fun l => LF ∉ l) lines -> splitLines (unlines lines) = lines).
Proof.
  split.
  - intros s. split; [apply splitLines_from_no_LF; set_solver|].
    unfold splitLines, terminated. rewrite splitLines_from_unlines. cbn.
    by destruct (last s).
  - intros lines. induction 1 as [|l lines Hl _ IH]; [done|].
    unfold splitLines, unlines in *. cbn. rewrite <- app_assoc. cbn.
    rewrite splitLines_from_app by done. cbn. by rewrite IH.
Qed.

Lemma find_in_shift rest from pos :
  find_in rest from pos = (fun p => pos + p)%nat <$> find_in rest from 0.
Proof.
  revert pos. induction rest as [|c rest IH]; intros pos; cbn.
  - destruct from; cbn; [f_equal; lia|done].
  - case_bool_decide; cbn; [f_equal; lia|].
    rewrite (IH (S pos)), (IH 1%nat). destruct (find_in rest from 0); cbn; [f_equal; lia|done].
Qed.

Lemma find_in_some rest from p :
  find_in rest from 0 = Some p ->
  from `prefix_of` drop p rest /\ (p <= length rest)%nat /\
  forall q, (q < p)%nat -> ~ from `prefix_of` drop q rest.
Proof.
  revert p. induction rest as [|c rest IH]; intros p; cbn.
  - destruct from; [|done]. intros [= <-]. split; [done|]. split; [done|]. lia.
  - case_bool_decide as Hp.
    + intros [= <-]. split; [done|]. split; [lia|]. lia.
    + rewrite find_in_shift. destruct (find_in rest from 0) as [p'|] eqn:Hf; [|done].
      cbn. intros [= <-]. destruct (IH p' eq_refl) as (H1 & H2 & H3).
      split; [done|]. split; [lia|]. intros [|q] Hq; [done|]. cbn. apply H3. lia.
Qed.

Lemma find_in_none rest from :
  find_in rest from 0 = None -> forall q, ~ from `prefix_of` drop q rest.
Proof.
  induction rest as [|c rest IH]; cbn.
  - destruct from; [done|]. intros _ q. rewrite drop_nil. by intros ?%prefix_nil_inv.
  - case_bool_decide as Hp; [done|]. rewrite find_in_shift.
    destruct (find_in rest from 0) eqn:Hf; [done|]. intros _ [|q]; [done|]. cbn. by apply IH.
Qed.

Lemma find_in_first rest from p :
  from `prefix_of` drop p rest -> (p <= length rest)%nat ->
  (forall q, (q < p)%nat -> ~ from `prefix_of` drop q rest) ->
  find_in rest from 0 = Some p.
Proof.
  intros H1 H2 H3. destruct (find_in rest from 0) as [p'|] eqn:Hf.
  - destruct (find_in_some _ _ _ Hf) as (H1' & H2' & H3').
    f_equal. destruct (lt_eq_lt_dec p p') as [[Hlt|]|Hlt]; [|done|].
    + by destruct (H3' _ Hlt).
    + by destruct (H3 _ Hlt).
  - by destruct (find_in_none _ _ Hf p).
Qed.

Section ReplaceAll.

Variables from to : list ascii.

Lemma find_le s prev :
  (prev <= length s)%nat ->
  find s from prev = (fun p => prev + p)%nat <$> find_in (drop prev s) from 0.
Proof.
  intros H. unfold find. destruct (Nat.ltb_spec (length s) prev) as [|_]; [lia|].
  apply find_in_shift.
Qed.

Lemma replaceAll_loop_S fuel s prev result :
  replaceAll_loop (S fuel) s from to prev result =
    match find s from prev with
    | Some pos =>
        replaceAll_loop fuel s from to (pos + length from)
          (result ++ substr s prev (pos - prev) ++ to)
    | None => Some (result ++ drop prev s)
    end.
Proof. reflexivity. Qed.

Lemma find_in_bound s p :
  find_in s from 0 = Some p -> (p + length from <= length s)%nat.
Proof.
  intros Hf. destruct (find_in_some _ _ _ Hf) as ([post Hpost] & Hle & _).
  apply (f_equal length) in Hpost. rewrite length_drop, length_app in Hpost. lia.
Qed.

Lemma replaceAll_loop_shift fuel s prev result :
  (prev <= length s)%nat ->
  replaceAll_loop fuel s from to prev result =
    (fun r => result ++ r) <$> replaceAll_loop fuel (drop prev s) from to 0 [].
Proof.
  revert s prev result. induction fuel as [|fuel IH]; intros s prev result Hprev; [done|].
  rewrite !replaceAll_loop_S. rewrite (find_le s prev) by done.
  rewrite (find_le (drop prev s) 0) by lia. rewrite !drop_0.
  destruct (find_in (drop prev s) from 0) as [p|] eqn:Hf; cbn; [|done].
  pose proof (find_in_bound _ _ Hf) as Hlen. rewrite length_drop in Hlen.
  rewrite IH by lia. rewrite (IH (drop prev s)) by (rewrite length_drop; lia).
  replace (drop (prev + p + length from) s) with (drop (p + length from) (drop prev s))
    by (rewrite drop_drop; f_equal; lia).
  destruct (replaceAll_loop fuel _ from to 0 []); cbn; [|done].
  f_equal. unfold substr. rewrite drop_0, Nat.sub_0_r.
  replace (prev + p - prev)%nat with p by lia. by rewrite <- !app_assoc.
Qed.

(** One turn of the loop, seen from the text that is left. *)
Lemma replaceAll_loop_unfold fuel s :
  replaceAll_loop (S fuel) s from to 0 [] =
    match find_in s from 0 with
    | None => Some s
    | Some p =>
        (fun r => take p s ++ to ++ r) <$>
          replaceAll_loop fuel (drop (p + length from) s) from to 0 []
    end.
Proof.
  rewrite replaceAll_loop_S, (find_le s 0) by lia. rewrite drop_0.
  destruct (find_in s from 0) as [p|] eqn:Hf; [|done]. cbn.
  pose proof (find_in_bound _ _ Hf) as Hlen.
  rewrite replaceAll_loop_shift by done.
  destruct (replaceAll_loop fuel _ from to 0 []); cbn; [|done].
  f_equal. unfold substr. by rewrite drop_0, Nat.sub_0_r, <- app_assoc.
Qed.

Lemma replaceAll_loop_enough fuel s :
  from <> [] -> (length s < fuel)%nat ->
  is_Some (replaceAll_loop fuel s from to 0 []).
Proof.
  intros Hne. revert s. induction fuel as [|fuel IH]; intros s Hlt; [lia|].
  rewrite replaceAll_loop_unfold.
  destruct (find_in s from 0) as [p|] eqn:Hf; [|done].
  destruct (find_in_some _ _ _ Hf) as ([post Hpost] & Hle & _).
  destruct (IH (drop (p + length from) s)) as [r Hr].
  - rewrite length_drop. destruct from; [done|]. cbn.
    apply (f_equal length) in Hpost. rewrite length_drop, length_app in Hpost. cbn in Hpost. lia.
  - rewrite Hr. done.
Qed.

Lemma replaceAll_loop_mono fuel fuel' s r :
  replaceAll_loop fuel s from to 0 [] = Some r -> (fuel <= fuel')%nat ->
  replaceAll_loop fuel' s from to 0 [] = Some r.
Proof.
  revert fuel' s r. induction fuel as [|fuel IH]; intros fuel' s r; [done|].
  intros H Hle. destruct fuel' as [|fuel']; [lia|].
  rewrite replaceAll_loop_unfold in *.
  destruct (find_in s from 0) as [p|]; [|done].
  destruct (replaceAll_loop fuel _ from to 0 []) as [r'|] eqn:Hr; [|done].
  rewrite (IH fuel' _ r' Hr) by lia. done.
Qed.

Lemma replaceAll_eq s :
  from <> [] -> replaceAll s from to = replaceAll_loop (S (length s)) s from to 0 [].
Proof. unfold replaceAll. by destruct from. Qed.

Lemma replaceAll_no_match s :
  from <> [] -> find_in s from 0 = None -> replaceAll s from to = Some s.
Proof.
  intros Hne Hf. by rewrite replaceAll_eq, replaceAll_loop_unfold, Hf.
Qed.

Lemma replaceAll_match s p :
  from <> [] -> find_in s from 0 = Some p ->
  replaceAll s from to =
    (fun r => take p s ++ to ++ r) <$> replaceAll (drop (p + length from) s) from to.
Proof.
  intros Hne Hf. rewrite !replaceAll_eq by done.
  rewrite replaceAll_loop_unfold, Hf.
  destruct (replaceAll_loop_enough (S (length (drop (p + length from) s)))
              (drop (p + length from) s) Hne ltac:(lia)) as [r Hr].
  rewrite Hr. rewrite (replaceAll_loop_mono _ (length s) _ _ Hr); [done|].
  rewrite length_drop. pose proof (find_in_bound _ _ Hf).
  destruct from; [done|]. cbn in *. lia.
Qed.

Lemma replaceAll_total s : is_Some (replaceAll s from to).
Proof.
  destruct (decide (from = [])) as [He|Hne].
  - unfold replaceAll. by rewrite He.
  - rewrite replaceAll_eq by done. apply replaceAll_loop_enough; [done|lia].
Qed.
End ReplaceAll.

Lemma prefix_drop_decompose (from s : list ascii) q :
  (q <= length s)%nat ->
  from `prefix_of` drop q s <-> exists l2, s = take q s ++ from ++ l2.
Proof.
  intros Hq. split.
  - intros [l2 Hl2]. exists l2. by rewrite <- Hl2, take_drop.
  - intros [l2 Hl2]. exists l2. apply (f_equal (drop q)) in Hl2.
    rewrite drop_app_length' in Hl2; [done|]. rewrite length_take. lia.
Qed.

Lemma decompose_prefix_drop (from s l1 l2 : list ascii) :
  s = l1 ++ from ++ l2 -> from `prefix_of` drop (length l1) s.
Proof. intros ->. rewrite drop_app_length. by exists l2. Qed.

Lemma replaceAll_first_match (s from to pre rest : list ascii) :
  from <> [] -> s = pre ++ from ++ rest ->
  (forall l1 l2, s = l1 ++ from ++ l2 -> (length pre <= length l1)%nat) ->
  replaceAll s from to = (fun r => pre ++ to ++ r) <$> replaceAll rest from to.
Proof.
  intros Hne Hs Hfirst.
  assert (Hf : find_in s from 0 = Some (length pre)).
  { apply find_in_first.
    - by eapply decompose_prefix_drop.
    - subst s. rewrite length_app. lia.
    - intros q Hq Hp.
      assert (Hqs : (q <= length s)%nat) by (subst s; rewrite length_app; lia).
      apply prefix_drop_decompose in Hp as [l2 Hl2]; [|done].
      apply Hfirst in Hl2. rewrite length_take in Hl2. lia. }
  rewrite (replaceAll_match from to s _ Hne Hf). subst s.
  rewrite take_app_length. rewrite <- drop_drop, drop_app_length, drop_app_length. done.
Qed.

(** X25 ([replaceAll]): for a non-empty [from] the loop ends within its
    bound; a text without [from] is returned as it is, and otherwise the
    leftmost occurrence is replaced and the scan goes on behind it (what
    was put in is not scanned again). *)
Theorem replaceAll_replaces_leftmost (s from to : list ascii) :
  from <> [] ->
  is_Some (replaceAll s from to) /\
  ((forall l1 l2, s <> l1 ++ from ++ l2) -> replaceAll s from to = Some s) /\
  (forall pre rest,
     s = pre ++ from ++ rest ->
     (forall l1 l2, s = l1 ++ from ++ l2 -> (length pre <= length l1)%nat) ->
     replaceAll s from to = (fun r => pre ++ to ++ r) <$> replaceAll rest from to).
Proof.
  intros Hne. split; [apply replaceAll_total|]. split.
  - intros Hno. apply replaceAll_no_match; [done|].
    destruct (find_in s from 0) as [p|] eqn:Hf; [|done]. exfalso.
    destruct (find_in_some _ _ _ Hf) as (Hp & Hle & _).
    apply prefix_drop_decompose in Hp as [l2 Hl2]; [|done]. by apply Hno in Hl2.
  - intros pre rest. by apply replaceAll_first_match.
Qed.

Lemma replaceAll_replaces_leftmost_witness :
  [CR; LF] <> [] /\
  is_Some (replaceAll [CR; LF; "a"%char; CR; LF] [CR; LF] [LF]).
Proof.
  split; [done|].
  apply (replaceAll_replaces_leftmost [CR; LF; "a"%char; CR; LF] [CR; LF] [LF]). done.
Defined.

Lemma prefix_drop_1 (c : ascii) s q : [c] `prefix_of` drop q s <-> s !! q = Some c.
Proof.
  rewrite <- (take_drop q s) at 2. split.
  - intros [l2 Hl2]. destruct (decide (q <= length s)%nat).
    + rewrite lookup_app_r by (rewrite length_take; lia).
      rewrite length_take, Hl2. replace (q - q `min` length s)%nat with 0%nat by lia. done.
    + rewrite drop_ge in Hl2 by lia. done.
  - intros H. destruct (decide (q < length s)%nat) as [Hq|Hq].
    + rewrite lookup_app_r in H by (rewrite length_take; lia).
      rewrite length_take in H. replace (q - q `min` length s)%nat with 0%nat in H by lia.
      destruct (drop q s) as [|d l]; [done|]. cbn in H. injection H as ->. by exists l.
    + rewrite take_drop in H. apply lookup_lt_Some in H. lia.
Qed.

Lemma prefix_drop_2 (c d : ascii) s q :
  [c; d] `prefix_of` drop q s <-> s !! q = Some c /\ s !! S q = Some d.
Proof.
  split.
  - intros [l2 Hl2]. split.
    + apply prefix_drop_1. exists (d :: l2). done.
    + apply prefix_drop_1. exists l2. replace (S q) with (q + 1)%nat by lia.
      rewrite <- drop_drop, Hl2. done.
  - intros [H1 H2]. apply prefix_drop_1 in H1 as [l1 Hl1]. apply prefix_drop_1 in H2 as [l2 Hl2].
    replace (S q) with (q + 1)%nat in Hl2 by lia. rewrite <- drop_drop, Hl1 in Hl2.
    cbn in Hl2. rewrite drop_0 in Hl2. subst l1. by exists l2.
Qed.

Lemma LF_to_CRLF_to_LF s :
  exists s', replaceAll s [LF] [CR; LF] = Some s' /\ replaceAll s' [CR; LF] [LF] = Some s.
Proof.
  remember (length s) as n eqn:Hn. revert s Hn.
  induction n as [n IH] using lt_wf_ind. intros s Hn.
  destruct (find_in s [LF] 0) as [p|] eqn:Hf.
  - destruct (find_in_some _ _ _ Hf) as (Hp & Hle & Hfirst).
    pose proof (find_in_bound _ _ _ Hf) as Hb. cbn in Hb.
    destruct (IH (length (drop (p + 1) s)) ltac:(rewrite length_drop; lia) _ eq_refl)
      as (r' & Hr1 & Hr2).
    exists (take p s ++ [CR; LF] ++ r'). split.
    + rewrite (replaceAll_match [LF] _ s p) by done. cbn [length]. by rewrite Hr1.
    + rewrite (replaceAll_first_match _ [CR; LF] [LF] (take p s) r'); [|done|done|].
      * rewrite Hr2. cbn. f_equal.
        destruct Hp as [l2 Hl2]. rewrite <- (take_drop p s) at 3. f_equal.
        rewrite Hl2. cbn. f_equal. rewrite <- drop_drop, Hl2. done.
      * intros l1 l2 Hl. rewrite length_take.
        destruct (decide (p <= length l1)%nat) as [|Hlt]; [lia|]. exfalso.
        apply decompose_prefix_drop in Hl. apply prefix_drop_2 in Hl as [_ Hl].
        destruct (decide (S (length l1) < p)%nat) as [Hlt'|Hge].
        -- rewrite lookup_app_l in Hl by (rewrite length_take; lia).
           rewrite lookup_take_lt in Hl by lia.
           apply prefix_drop_1 in Hl. by apply Hfirst in Hl.
        -- assert (S (length l1) = p) as Heq by lia.
           rewrite lookup_app_r in Hl by (rewrite length_take; lia).
           rewrite length_take in Hl.
           replace (S (length l1) - p `min` length s)%nat with 0%nat in Hl by lia.
           cbn in Hl. discriminate.
  - exists s. split; [by apply replaceAll_no_match|].
    apply replaceAll_no_match; [done|].
    destruct (find_in s [CR; LF] 0) as [p|] eqn:Hf2; [|done]. exfalso.
    destruct (find_in_some _ _ _ Hf2) as (Hp & _ & _).
    apply prefix_drop_2 in Hp as [_ Hp]. apply prefix_drop_1 in Hp.
    by apply (find_in_none _ _ Hf) in Hp.
Qed.

(** X26 ([replaceAll] on line endings): converting a text to CRLF line
    endings and back to LF, the two conversions of the test runner, gives
    the text back; the conversion to LF alone is not idempotent (a CR
    before a CRLF leaves a new CRLF). *)
Theorem crlf_round_trip :
  (forall s, exists s',
     replaceAll s [LF] [CR; LF] = Some s' /\ replaceAll s' [CR; LF] [LF] = Some s) /\
  (exists s r, replaceAll s [CR; LF] [LF] = Some r /\ replaceAll r [CR; LF] [LF] <> Some r).
Proof.
  split; [apply LF_to_CRLF_to_LF|].
  exists [CR; CR; LF], [CR; LF]. split; [reflexivity|]. vm_compute. discriminate.
Qed.

Lemma compareOutput_loop_some e a i n k :
  compareOutput_loop e a i n = Some k ->
  (i <= k < i + n)%nat /\ e !! k <> a !! k /\
  forall j, (i <= j < k)%nat -> e !! j = a !! j.
Proof.
  revert i. induction n as [|n IH]; intros i; [done|]. cbn.
  case_bool_decide as He.
  - intros H. destruct (IH _ H) as (H1 & H2 & H3). split; [lia|]. split; [done|].
    intros j Hj. destruct (decide (j = i)) as [->|]; [done|]. apply H3. lia.
  - intros [= <-]. split; [lia|]. split; [done|]. intros j Hj. lia.
Qed.

Lemma compareOutput_loop_none e a i n :
  compareOutput_loop e a i n = None ->
  forall j, (i <= j < i + n)%nat -> e !! j = a !! j.
Proof.
  revert i. induction n as [|n IH]; intros i; cbn; [intros _ j Hj; lia|].
  case_bool_decide as He; [|done]. intros H j Hj.
  destruct (decide (j = i)) as [->|]; [done|]. apply (IH _ H). lia.
Qed.

Lemma take_eq_lookup {A} (e a : list A) k :
  (forall j, (j < k)%nat -> e !! j = a !! j) -> take k e = take k a.
Proof.
  intros H. apply list_eq. intros j. rewrite !lookup_take.
  case_decide; [by apply H|done].
Qed.

Lemma int_cast_small (n : nat) :
  Z.of_nat n < 2 ^ 31 -> RefString.int_wrap (Z.of_nat n) = Z.of_nat n.
Proof.
  intros H. unfold RefString.int_wrap. rewrite Z.mod_small by lia. lia.
Qed.

Lemma compare_lines_spec e a :
  Z.of_nat (length e `min` length a) < 2 ^ 31 ->
  (compare_lines e a = -1 <-> e = a) /\
  (forall i, compare_lines e a = Z.of_nat i ->
     take i e = take i a /\ e !! i <> a !! i) /\
  (e <> a -> 0 <= compare_lines e a <= Z.of_nat (length e `min` length a)).
Proof.
  intros Hmin. unfold compare_lines.
  destruct (compareOutput_loop e a 0 _) as [k|] eqn:Hloop.
  - destruct (compareOutput_loop_some _ _ _ _ _ Hloop) as (Hk & Hne & Heq).
    rewrite int_cast_small by lia.
    assert (e <> a) by (intros ->; done).
    split; [split; [lia|done]|]. split; [|lia].
    intros i Hi. assert (i = k) as -> by lia. split; [|done].
    apply take_eq_lookup. intros j Hj. apply Heq. lia.
  - pose proof (compareOutput_loop_none _ _ _ _ Hloop) as Heq.
    destruct (Nat.ltb_spec (length e `min` length a) (length e `max` length a)) as [Hlt|Hge].
    + rewrite int_cast_small by lia.
      assert (e <> a) by (intros ->; lia).
      split; [split; [lia|done]|]. split; [|lia].
      intros i Hi. assert (i = (length e `min` length a)%nat) as -> by lia. split.
      * apply take_eq_lookup. intros j Hj. apply Heq. lia.
      * destruct (decide (length e < length a)%nat).
        -- rewrite (lookup_ge_None_2 e) by lia.
           destruct (lookup_lt_is_Some_2 a (length e `min` length a)) as [x ->]; [lia|done].
        -- rewrite (lookup_ge_None_2 a) by lia.
           destruct (lookup_lt_is_Some_2 e (length e `min` length a)) as [x ->]; [lia|done].
    + assert (e = a) as ->.
      { apply list_eq. intros j. destruct (decide (j < length e `min` length a)%nat).
        - apply Heq. lia.
        - rewrite !lookup_ge_None_2 by lia. done. }
      split; [done|]. split; [lia|done].
Qed.

Lemma normalized_lines_total s : is_Some (normalized_lines s).
Proof.
  unfold normalized_lines. by destruct (replaceAll_total [CR; LF] [LF] s) as [r ->].
Qed.

(** X27 ([compareOutput]): the result is -1 exactly when the two texts have
    the same normalised lines, and otherwise the index of the first line
    that differs or is missing on one side (for fewer than 2^31 common
    lines, so that the cast to [int] keeps the index). *)
Theorem compareOutput_first_difference (expected actual : list ascii) e a :
  normalized_lines expected = Some e ->
  normalized_lines actual = Some a ->
  Z.of_nat (length e `min` length a) < 2 ^ 31 ->
  exists r,
    compareOutput expected actual = Some r /\
    (r = -1 <-> e = a) /\
    (forall i, r = Z.of_nat i -> take i e = take i a /\ e !! i <> a !! i) /\
    (e <> a -> 0 <= r <= Z.of_nat (length e `min` length a)).
Proof.
  intros He Ha Hmin. exists (compare_lines e a). split.
  - unfold compareOutput. rewrite He, Ha. done.
  - by apply compare_lines_spec.
Qed.

Lemma compareOutput_first_difference_witness :
  exists r,
    compareOutput [CR; LF; "a"%char; CR; LF; "b"%char] ["a"%char; LF; "c"%char; LF] = Some r /\
    (r = -1 <-> [["a"%char]; ["b"%char]] = [["a"%char]; ["c"%char]]) /\
    (forall i, r = Z.of_nat i ->
       take i [["a"%char]; ["b"%char]] = take i [["a"%char]; ["c"%char]] /\
       [["a"%char]; ["b"%char]] !! i <> [["a"%char]; ["c"%char]] !! i) /\
    ([["a"%char]; ["b"%char]] <> [["a"%char]; ["c"%char]] ->
     0 <= r <= Z.of_nat (length [["a"%char]; ["b"%char]] `min` length [["a"%char]; ["c"%char]])).
Proof.
  apply (compareOutput_first_difference
           [CR; LF; "a"%char; CR; LF; "b"%char] ["a"%char; LF; "c"%char; LF]).
  - reflexivity.
  - reflexivity.
  - simpl. lia.
Defined.

Lemma indented_app n l1 l2 : indented n (l1 ++ l2) = indented n l1 ++ indented n l2.
Proof. unfold indented. by rewrite bind_app. Qed.

Lemma indented_no_LF n l : LF ∉ l -> indented n l = l.
Proof.
  induction l as [|c l IH]; intros H; [done|]. unfold indented in *. cbn.
  rewrite bool_decide_false by set_solver. cbn. f_equal. apply IH. set_solver.
Qed.

Lemma find_in_LF_none s : find_in s [LF] 0 = None -> LF ∉ s.
Proof.
  intros Hf Hin. apply list_elem_of_lookup_1 in Hin as [i Hi].
  apply prefix_drop_1 in Hi. by apply (find_in_none _ _ Hf) in Hi.
Qed.

Lemma find_in_LF_some s p :
  find_in s [LF] 0 = Some p -> (LF ∉ take p s) /\ s !! p = Some LF.
Proof.
  intros Hf. destruct (find_in_some _ _ _ Hf) as (Hp & Hle & Hfirst). split.
  - intros Hin. apply list_elem_of_lookup_1 in Hin as [i Hi].
    pose proof (lookup_lt_Some _ _ _ Hi) as Hlt. rewrite length_take in Hlt.
    rewrite lookup_take_lt in Hi by lia. apply prefix_drop_1 in Hi.
    apply Hfirst in Hi; [done|lia].
  - by apply prefix_drop_1.
Qed.

Lemma onDialogue_loop_spec n fuel formatted pos :
  (pos <= length formatted)%nat -> (length formatted - pos < fuel)%nat ->
  onDialogue_loop fuel formatted (LF :: replicate n " "%char) (S n) pos =
    Some (take pos formatted ++ indented n (drop pos formatted)).
Proof.
  revert formatted pos. induction fuel as [|fuel IH]; intros f pos Hpos Hfuel; [lia|].
  cbn [onDialogue_loop]. rewrite (find_le [LF] f pos) by done.
  destruct (find_in (drop pos f) [LF] 0) as [p|] eqn:Hf; cbn [fmap option_fmap option_map].
  - destruct (find_in_LF_some _ _ Hf) as [Hno Hlf].
    pose proof (lookup_lt_Some _ _ _ Hlf) as Hlt. rewrite length_drop in Hlt.
    rewrite lookup_drop in Hlf.
    assert (Hdec : f = (take pos f ++ take p (drop pos f)) ++ LF :: drop (S (pos + p)) f).
    { rewrite take_take_drop. rewrite <- (drop_S f LF (pos + p)) by done.
      by rewrite take_drop. }
    set (repl := LF :: replicate n " "%char).
    assert (Hrepl : length repl = S n) by (cbn; by rewrite length_replicate).
    remember (take pos f) as a eqn:Ha. remember (take p (drop pos f)) as pre eqn:Hpre.
    remember (drop (S (pos + p)) f) as rest eqn:Hrest.
    assert (Hla : length a = pos) by (subst a; rewrite length_take; lia).
    assert (Hlp : length pre = p) by (subst pre; rewrite length_take, length_drop; lia).
    assert (Hd1 : drop (pos + p + 1) f = rest) by (subst rest; f_equal; lia).
    assert (Ht1 : take (pos + p) f = a ++ pre) by (subst a pre; by rewrite take_take_drop).
    assert (Hd2 : drop pos f = pre ++ LF :: rest).
    { rewrite Hdec at 1. rewrite <- app_assoc. by rewrite drop_app_length'. }
    rewrite Hd1, Ht1, Hd2. rewrite IH.
    + f_equal. replace ((a ++ pre) ++ repl ++ rest) with ((a ++ pre ++ repl) ++ rest)
        by (by rewrite <- !app_assoc).
      rewrite take_app_length' by (rewrite !length_app; lia).
      rewrite drop_app_length' by (rewrite !length_app; lia).
      rewrite indented_app, (indented_no_LF _ _ Hno). by rewrite <- !app_assoc.
    + rewrite !length_app. lia.
    + rewrite !length_app. apply (f_equal length) in Hdec.
      rewrite !length_app in Hdec. cbn in Hdec. lia.
  - by rewrite (indented_no_LF _ _ (find_in_LF_none _ Hf)), take_drop.
Qed.

(** X28 ([onDialogue] of the sample): the loop that indents continuation
    lines ends, although it scans a text that grows, and the text printed
    is the text given with three spaces (one for a narrative text) put
    behind every newline, and nothing else changed. *)
Theorem sample_indents_continuation_lines (dialogue : bool) (t : list ascii) :
  onDialogue_format dialogue t = Some (indented (if dialogue then 3 else 1) t).
Proof.
  unfold onDialogue_format. destruct dialogue.
  - rewrite (onDialogue_loop_spec 3) by lia. by rewrite take_0, drop_0.
  - rewrite (onDialogue_loop_spec 1) by lia. by rewrite take_0, drop_0.
Qed.

Lemma append_tags_none tags sel result :
  (forall t, t ∈ tags -> sel (tag_offset t) = false) ->
  append_tags tags sel result = Some result.
Proof.
  induction tags as [|t tags IH]; intros H; [done|]. cbn.
  rewrite (H t) by set_solver. apply IH. intros t' Ht'. apply H. set_solver.
Qed.

Lemma append_tags_clip len tags sel result :
  0 <= len ->
  (forall o, o < 0 -> sel o = false) ->
  (forall o, 0 <= o -> sel (Z.min o len) = sel o) ->
  append_tags (clip_tags len tags) sel result = append_tags tags sel result.
Proof.
  intros Hlen Hneg Hmin. revert result. unfold clip_tags.
  induction tags as [|t tags IH]; intros result; [done|].
  rewrite filter_cons. case_decide as Ht.
  - cbn. rewrite Hmin by done. destruct (sel (tag_offset t)); [|apply IH].
    unfold tag_markup. cbn. destruct (tag_value t); cbn; [apply IH|done].
  - cbn. rewrite Hneg by lia. apply IH.
Qed.

Lemma append_tags_set tags (i : Z) result :
  (if bool_decide (i ∈ (list_to_set (tag_offset <$> tags) : gset Z))
   then append_tags tags (fun o => o =? i) result
   else Some result) = append_tags tags (fun o => o =? i) result.
Proof.
  case_bool_decide as Hi; [done|]. symmetry. apply append_tags_none.
  intros t Ht. apply Z.eqb_neq. intros <-. apply Hi.
  apply elem_of_list_to_set, list_elem_of_fmap. by exists t.
Qed.

Lemma insertTags_loop_clip len n i text tags multiline result :
  0 <= i -> i + Z.of_nat n <= len ->
  insertTags_loop n i text (clip_tags len tags)
    (list_to_set (tag_offset <$> clip_tags len tags)) multiline result =
  insertTags_loop n i text tags (list_to_set (tag_offset <$> tags)) multiline result.
Proof.
  revert i result. induction n as [|n IH]; intros i result Hi Hn; [done|].
  cbn [insertTags_loop]. rewrite !append_tags_set.
  rewrite append_tags_clip; [|lia|intros o Ho; apply Z.eqb_neq; lia|].
  - destruct (append_tags tags _ result) as [r|]; [|done]. cbn.
    destruct (text !! Z.to_nat i) as [c|]; [|done]. cbn. apply IH; lia.
  - intros o Ho. destruct (Z.eqb_spec o i) as [->|Hne].
    + apply Z.eqb_eq. lia.
    + apply Z.eqb_neq. lia.
Qed.

Lemma insertTags_loop_no_tags n i text tags multiline result :
  (forall t, t ∈ tags -> tag_offset t < 0) ->
  0 <= i -> (Z.to_nat i + n <= length text)%nat ->
  insertTags_loop n i text tags (list_to_set (tag_offset <$> tags)) multiline result =
    Some (result ++ (if multiline then indented 2 (take n (drop (Z.to_nat i) text))
                     else take n (drop (Z.to_nat i) text))).
Proof.
  intros Hneg. revert i result. induction n as [|n IH]; intros i result Hi Hn.
  - cbn. destruct multiline; by rewrite app_nil_r.
  - cbn [insertTags_loop]. rewrite append_tags_set.
    rewrite append_tags_none by (intros t Ht; apply Z.eqb_neq; specialize (Hneg t Ht); lia).
    cbn. destruct (lookup_lt_is_Some_2 text (Z.to_nat i)) as [c Hc]; [lia|].
    rewrite Hc. cbn. rewrite IH by lia.
    replace (Z.to_nat (i + 1)) with (S (Z.to_nat i)) by lia.
    rewrite (drop_S _ _ _ Hc). cbn [take]. f_equal.
    destruct multiline; cbn; [|by rewrite <- app_assoc].
    unfold indented. cbn. case_bool_decide; by rewrite <- app_assoc.
Qed.

Lemma append_tags_marks tags sel result :
  (forall t, t ∈ tags -> sel (tag_offset t) = true -> tag_value t <> None) ->
  append_tags tags sel result = Some (result ++ marks tags sel).
Proof.
  revert result. induction tags as [|t tags IH]; intros result H.
  - cbn. by rewrite app_nil_r.
  - cbn [append_tags]. unfold marks. rewrite filter_cons.
    destruct (sel (tag_offset t)) eqn:Hs.
    + rewrite decide_True by done.
      destruct (tag_markup t) as [m|] eqn:Hm.
      * cbn. rewrite IH by (intros t' Ht'; apply H; set_solver).
        unfold markup at 1. rewrite Hm. cbn. unfold marks. by rewrite <- app_assoc.
      * exfalso. apply (H t); [set_solver|done|]. unfold tag_markup in Hm.
        by destruct (tag_value t).
    + rewrite decide_False by done. apply IH. intros t' Ht'. apply H. set_solver.
Qed.

Lemma append_tags_undefined tags sel result t :
  t ∈ tags -> sel (tag_offset t) = true -> tag_value t = None ->
  append_tags tags sel result = None.
Proof.
  revert result. induction tags as [|t' tags IH]; intros result Ht Hs Hv; [set_solver|].
  cbn [append_tags]. apply elem_of_cons in Ht as [<-|Ht].
  - rewrite Hs. unfold tag_markup. by rewrite Hv.
  - destruct (sel (tag_offset t')); [|by apply IH].
    destruct (tag_markup t'); cbn; [by apply IH|done].
Qed.

Lemma insertTags_loop_tagged n k text tags multiline result :
  (forall t, t ∈ tags -> 0 <= tag_offset t -> tag_value t <> None) ->
  (k + n <= length text)%nat ->
  insertTags_loop n (Z.of_nat k) text tags (list_to_set (tag_offset <$> tags)) multiline result =
    Some (result ++ concat (imap (fun j c => piece tags multiline (k + j) c)
                              (take n (drop k text)))).
Proof.
  intros Hval. revert k result. induction n as [|n IH]; intros k result Hn.
  - cbn. by rewrite app_nil_r.
  - cbn [insertTags_loop]. rewrite append_tags_set.
    rewrite append_tags_marks
      by (intros t Ht Hs; apply Hval; [done|]; apply Z.eqb_eq in Hs; lia).
    cbn. rewrite Nat2Z.id.
    destruct (lookup_lt_is_Some_2 text k) as [c Hc]; [lia|]. rewrite Hc. cbn.
    replace (Z.of_nat k + 1) with (Z.of_nat (S k)) by lia. rewrite IH by lia.
    rewrite (drop_S _ _ _ Hc). cbn [take imap concat]. f_equal.
    rewrite Nat.add_0_r. unfold piece at 2.
    rewrite (imap_ext (fun j c0 => piece tags multiline (S k + j) c0)
               ((fun j c0 => piece tags multiline (k + j) c0) ∘ S))
      by (intros j x _; cbn; f_equal; lia).
    destruct (multiline && bool_decide (c = LF)); by rewrite <- !app_assoc.
Qed.

Lemma insertTags_loop_undefined n k text tags multiline result t :
  (k + n <= length text)%nat ->
  t ∈ tags -> (k <= Z.to_nat (tag_offset t) < k + n)%nat -> 0 <= tag_offset t ->
  tag_value t = None ->
  insertTags_loop n (Z.of_nat k) text tags (list_to_set (tag_offset <$> tags)) multiline result
    = None.
Proof.
  revert k result. induction n as [|n IH]; intros k result Hn Ht Hk H0 Hv; [lia|].
  cbn [insertTags_loop]. rewrite append_tags_set.
  destruct (decide (tag_offset t = Z.of_nat k)) as [He|Hne].
  - rewrite (append_tags_undefined tags _ result t Ht); [done| |done].
    apply Z.eqb_eq. done.
  - destruct (append_tags tags _ result) as [r|]; [|done]. cbn. rewrite Nat2Z.id.
    destruct (text !! k) as [c|]; [|done]. cbn.
    replace (Z.of_nat k + 1) with (Z.of_nat (S k)) by lia.
    apply IH; try done; lia.
Qed.

Lemma marks_one t sel : marks [t] sel = if sel (tag_offset t) then markup t else [].
Proof.
  unfold marks. rewrite filter_cons, filter_nil.
  destruct (sel (tag_offset t)).
  - rewrite decide_True by done. cbn. by rewrite app_nil_r.
  - by rewrite decide_False by done.
Qed.

Lemma pieces_behind t j (l : list ascii) :
  tag_offset t < Z.of_nat j ->
  concat (imap (fun i c => piece [t] false (j + i) c) l) = l.
Proof.
  revert j. induction l as [|c l IH]; intros j Hj; [done|].
  cbn [imap concat]. unfold piece at 1. rewrite marks_one.
  destruct (Z.eqb_spec (tag_offset t) (Z.of_nat (j + 0))) as [He|_]; [lia|]. cbn. f_equal.
  rewrite (imap_ext _ (fun i c0 => piece [t] false (S j + i) c0))
    by (intros i x _; unfold compose; by rewrite Nat.add_succ_r).
  apply IH. lia.
Qed.

Lemma pieces_one t j (pre post : list ascii) :
  tag_offset t = Z.of_nat (j + length pre) ->
  concat (imap (fun i c => piece [t] false (j + i) c) (pre ++ post)) =
    pre ++ (match post with [] => [] | _ => markup t end) ++ post.
Proof.
  revert j. induction pre as [|c pre IH]; intros j Hj.
  - cbn [app]. destruct post as [|c post]; [done|].
    cbn [imap concat]. unfold piece at 1. rewrite marks_one.
    rewrite (proj2 (Z.eqb_eq _ _)) by (cbn in Hj; lia).
    rewrite (imap_ext _ (fun i c0 => piece [t] false (S j + i) c0))
      by (intros i x _; unfold compose; by rewrite Nat.add_succ_r).
    rewrite pieces_behind by (cbn in Hj; lia). cbn. by rewrite <- app_assoc.
  - cbn [app imap concat]. unfold piece at 1. rewrite marks_one.
    destruct (Z.eqb_spec (tag_offset t) (Z.of_nat (j + 0))) as [He|_]; [cbn in Hj; lia|].
    cbn. f_equal.
    rewrite (imap_ext _ (fun i c0 => piece [t] false (S j + i) c0))
      by (intros i x _; unfold compose; by rewrite Nat.add_succ_r).
    apply IH. cbn in Hj. lia.
Qed.

Lemma tagged_one (pre post : list ascii) (t : Loreline_TextTag) :
  tag_offset t = Z.of_nat (length pre) ->
  tagged (pre ++ post) [t] false = pre ++ markup t ++ post.
Proof.
  intros Ho. unfold tagged.
  change (concat (imap _ (pre ++ post)))
    with (concat (imap (fun i c => piece [t] false (0 + i) c) (pre ++ post))).
  rewrite (pieces_one t 0 pre post) by (cbn; lia). rewrite marks_one, length_app.
  destruct post as [|c post].
  - cbn. rewrite Nat.add_0_r. rewrite (proj2 (Z.leb_le _ _)) by lia. by rewrite !app_nil_r.
  - destruct (Z.leb_spec (Z.of_nat (length pre + length (c :: post))) (tag_offset t)) as [H|_].
    + cbn in H. lia.
    + by rewrite app_nil_r.
Qed.

(** X29 ([insertTagsInText]): a null text gives the empty text.  When
    every tag of a non-negative offset has a value, the result is the
    tagged text without its trailing whitespace: each such tag is rendered
    once, as [<<value>>] or [<</value>>], before the character at its
    offset, or behind the text when its offset is the length or more, tags
    of one offset in the order of the array; so a single tag at the offset
    [length pre] of the text [pre ++ post] comes between the two.  A
    rendered tag without a value makes the result undefined.  Tags of a
    negative offset are never rendered, and the result is that of the tags
    clipped to the text. *)
Theorem insertTagsInText_renders_clipped_tags (text : list ascii)
    (tags : list Loreline_TextTag) (multiline : bool) :
  Z.of_nat (length text) < 2 ^ 31 ->
  insertTagsInText None tags multiline = Some [] /\
  ((forall t, t ∈ tags -> 0 <= tag_offset t -> tag_value t <> None) ->
   insertTagsInText (Some text) tags multiline = Some (trimEnd (tagged text tags multiline))) /\
  ((exists t, t ∈ tags /\ 0 <= tag_offset t /\ tag_value t = None) ->
   insertTagsInText (Some text) tags multiline = None) /\
  (forall pre post t v,
     text = pre ++ post -> tag_offset t = Z.of_nat (length pre) -> tag_value t = Some v ->
     insertTagsInText (Some text) [t] false =
       Some (trimEnd (pre ++ (["<"; "<"]%char ++ (if tag_closing t then ["/"%char] else []) ++
                              String.list_ascii_of_string (as_cstr v) ++ [">"; ">"]%char)
                          ++ post))) /\
  ((forall t, t ∈ tags -> tag_offset t < 0) ->
   insertTagsInText (Some text) tags multiline =
     Some (trimEnd (if multiline then indented 2 text else text))) /\
  insertTagsInText (Some text) (clip_tags (Z.of_nat (length text)) tags) multiline =
    insertTagsInText (Some text) tags multiline.
Proof.
  intros Hlen. split; [done|].
  assert (Hw : RefString.int_wrap (Z.of_nat (length text)) = Z.of_nat (length text))
    by (by apply int_cast_small).
  assert (Hgen : forall tags' m,
            (forall t, t ∈ tags' -> 0 <= tag_offset t -> tag_value t <> None) ->
            insertTagsInText (Some text) tags' m = Some (trimEnd (tagged text tags' m))).
  { intros tags' m Hval. unfold insertTagsInText. rewrite Hw, Nat2Z.id.
    change 0 with (Z.of_nat 0). rewrite insertTags_loop_tagged by (done || lia). cbn.
    rewrite drop_0, firstn_all.
    rewrite append_tags_marks by (intros t Ht Hs; apply Hval; [done|]; apply Z.leb_le in Hs; lia).
    cbn. done. }
  split; [apply Hgen|]. split; [|split; [|split]].
  - intros (t & Ht & H0 & Hv). unfold insertTagsInText. rewrite Hw, Nat2Z.id.
    destruct (decide (tag_offset t < Z.of_nat (length text))) as [Hlt|Hge].
    + change 0 with (Z.of_nat 0).
      rewrite (insertTags_loop_undefined _ _ _ _ _ _ t); [done|lia|done|lia|done|done].
    + destruct (insertTags_loop _ 0 text tags _ multiline []) as [r|]; [|done]. cbn.
      rewrite (append_tags_undefined tags _ r t Ht); [done| |done]. apply Z.leb_le. lia.
  - intros pre post t v -> Ho Hv. rewrite Hgen.
    + rewrite tagged_one by done. unfold markup, tag_markup. rewrite Hv. done.
    + intros t' Ht' _. apply list_elem_of_singleton in Ht' as ->. by rewrite Hv.
  - intros Hneg. unfold insertTagsInText. rewrite Hw, Nat2Z.id.
    rewrite insertTags_loop_no_tags by (done || lia). cbn.
    rewrite drop_0, firstn_all.
    rewrite append_tags_none
      by (intros t Ht; apply Z.leb_gt; specialize (Hneg t Ht); lia).
    cbn. by destruct multiline.
  - unfold insertTagsInText. rewrite Hw, Nat2Z.id.
    rewrite insertTags_loop_clip by lia.
    destruct (insertTags_loop _ 0 text tags _ multiline []) as [r|]; [|done]. cbn.
    rewrite append_tags_clip; [done|lia| |].
    + intros o Ho. apply Z.leb_gt. lia.
    + intros o Ho. destruct (Z.leb_spec (Z.of_nat (length text)) o).
      * apply Z.leb_le. lia.
      * apply Z.leb_gt. lia.
Qed.

(** A text with a tag in it, one behind its end and one before its
    start. *)
Lemma insertTagsInText_renders_clipped_tags_witness :
  insertTagsInText (Some ["a"; " "; "b"; " "]%char)
    [mkTextTag (Some "i"%string) 9 true; mkTextTag (Some "b"%string) 1 false;
     mkTextTag None (-1) true] false =
    Some (String.list_ascii_of_string "a<<b>> b <</i>>").
Proof.
  rewrite (proj1 (proj2 (insertTagsInText_renders_clipped_tags ["a"; " "; "b"; " "]%char
                           [mkTextTag (Some "i"%string) 9 true;
                            mkTextTag (Some "b"%string) 1 false;
                            mkTextTag None (-1) true] false ltac:(simpl; lia))));
    [reflexivity|].
  intros t Ht H0. repeat (apply elem_of_cons in Ht as [->|Ht]); try done.
  by apply elem_of_nil in Ht.
Defined.

Section SampleFiles.

Context {E : Type} (R : Runtime E).

(** X30 ([onFileRequest] of the sample, behind the file handler of the
    bridge): every file request is answered, once: with null when the file
    of the path given (a C string) cannot be read or is empty, and
    otherwise with the bytes of the file up to its first NUL. *)
Theorem sample_answers_file_request (readFile : string -> string) (path : string)
    (cb : Dynamic) (tid : ThreadId) (s0 : Dynamic) (w : World E) :
  IsNull cb = false ->
  let answer :=
    if bool_decide (readFile (as_cstr path) = EmptyString) then DNull
    else DString (as_cstr (readFile (as_cstr path))) in
  Closure_fileHandler_run R (onFileRequest readFile) path cb tid s0 w =
    (DNull,
     match engine R (Callback_run cb [answer]) tid (sched w) (heap w) with
     | Returns _ hp =>
         Ok tt (set_heap hp (set_trace (trace w ++
                  [EvEngine (Callback_run cb [answer]) tid]) w))
     | Throws e hp =>
         Throw (HxException e)
           (set_heap hp (set_trace (trace w ++
              [EvEngine (Callback_run cb [answer]) tid]) w))
     end).
Proof.
  intros Hcb answer. unfold Closure_fileHandler_run, onFileRequest, answer.
  case_bool_decide; cbn [provide_calls]; unfold linc_fileProvide; rewrite Hcb;
    unfold bind, call_engine, ret, linc_toHxString; cbn;
    by destruct (engine R _ tid (sched w) (heap w)).
Qed.

End SampleFiles.

Section SampleRuns.

Import Toy.

(** A request for a file that is not there. *)
Lemma sample_answers_file_request_witness :
  exists w',
    Closure_fileHandler_run toy (onFileRequest (fun _ => EmptyString)) "chars.lor"
      (DObject 5) main_thread DNull w_started = (DNull, Ok tt w') /\
    engine_calls (trace w') =
      engine_calls (trace w_started) ++ [(Callback_run (DObject 5) [DNull], main_thread)].
Proof.
  eexists. split.
  - exact (sample_answers_file_request toy (fun _ => EmptyString) "chars.lor" (DObject 5)
             main_thread DNull w_started eq_refl).
  - reflexivity.
Defined.

End SampleRuns.

End HostFacts.
